(** * Enigma: a shallow embedding of [enigma.py] and [code_breaker.py]

    The cipher engine ([PlugLead], [Plugboard], [Rotor], [Reflector],
    [Enigma]) and the search engine ([CodeBreaker]) are translated method by
    method.  Python objects become records, mutation becomes explicit state
    passing, and exceptions become the [Raise] branch of [res].

    Conventions of the embedding:
    - a Python [int] is a [Z]; a one-character [str] is an [ascii]; a longer
      [str] is a [string] or a [list ascii] where the code iterates over it;
    - [str.isalpha], [str.upper], [str.lower] and [int] are embedded on the
      ASCII range, which is the range of the machine's alphabet;
    - a Python [set] is a duplicate-free list ([ListSet.set]); the code only
      pops from sets with at most one element; the one place where the order
      of a set shows (the order of the candidates of the plug search) is
      left open by Python, and no statement below depends on it;
    - the rotors of a drum are distinct objects (no rotor is added twice). *)

From Stdlib Require Import List String Ascii ZArith Lia Bool ListSet Permutation.
Import ListNotations.

Local Open Scope string_scope.
Local Open Scope list_scope.
Local Open Scope Z_scope.

(** ** Exceptions and results *)

Inductive exn : Type :=
| MissingRotors
| EnigmaDrumFull
| NoPlugsAvailableException
| ConnectionExistsException
| KeyError
| ValueError
| IndexError
| TypeError
| AttributeError
| SyntaxError.

Inductive res (A : Type) : Type :=
| Ok (a : A)
| Raise (e : exn).

Arguments Ok {A} a.
Arguments Raise {A} e.

Definition res_bind {A B : Type} (c : res A) (k : A -> res B) : res B :=
  match c with
  | Ok a => k a
  | Raise e => Raise e
  end.

Declare Scope res_scope.
Delimit Scope res_scope with res.
Notation "x <- c ;; k" := (res_bind c (fun x => k))
  (at level 61, c at next level, right associativity) : res_scope.
Local Open Scope res_scope.

Definition is_ok {A : Type} (r : res A) : bool :=
  match r with Ok _ => true | Raise _ => false end.

(** A computation over a mutable state [S]: the state reached is returned
    also when an exception is raised, as the mutations done before a Python
    exception stay in place. *)

Definition M (S A : Type) : Type := S -> S * res A.

Definition m_ret {S A : Type} (a : A) : M S A := fun s => (s, Ok a).

Definition m_bind {S A B : Type} (c : M S A) (k : A -> M S B) : M S B :=
  fun s =>
    match c s with
    | (s', Ok a) => k a s'
    | (s', Raise e) => (s', Raise e)
    end.

Definition m_lift {S A : Type} (r : res A) : M S A := fun s => (s, r).

Definition m_read {S A : Type} (f : S -> res A) : M S A := fun s => (s, f s).

Definition m_modify {S : Type} (f : S -> S) : M S unit := fun s => (f s, Ok tt).

Declare Scope m_scope.
Delimit Scope m_scope with m.
Notation "x <~ c ;; k" := (m_bind c (fun x => k))
  (at level 61, c at next level, right associativity) : m_scope.
Notation "c ;;; k" := (m_bind c (fun _ => k))
  (at level 61, right associativity) : m_scope.

(** ** Python primitives *)

Definition is_upper_ascii (c : ascii) : bool :=
  let n := nat_of_ascii c in (Nat.leb 65 n && Nat.leb n 90)%bool.

Definition is_lower_ascii (c : ascii) : bool :=
  let n := nat_of_ascii c in (Nat.leb 97 n && Nat.leb n 122)%bool.

(** [str.isalpha] on one character. *)
Definition isalpha (c : ascii) : bool := (is_upper_ascii c || is_lower_ascii c)%bool.

(** [str.upper] and [str.lower] on one character. *)
Definition upper (c : ascii) : ascii :=
  if is_lower_ascii c then ascii_of_nat (nat_of_ascii c - 32) else c.

Definition lower (c : ascii) : ascii :=
  if is_upper_ascii c then ascii_of_nat (nat_of_ascii c + 32) else c.

Fixpoint str_lower (s : string) : string :=
  match s with
  | EmptyString => EmptyString
  | String c s' => String (lower c) (str_lower s')
  end.

(** [l.index(x)]: the first position of [x], or [ValueError]. *)
Fixpoint index (x : ascii) (l : list ascii) : res Z :=
  match l with
  | [] => Raise ValueError
  | y :: l' => if Ascii.eqb x y then Ok 0 else i <- index x l' ;; Ok (i + 1)
  end.

(** [l[i]]: a negative [i] counts from the end; out of range is
    [IndexError]. *)
Definition getitem {A : Type} (l : list A) (i : Z) : res A :=
  let n := Z.of_nat (List.length l) in
  let j := if i <? 0 then i + n else i in
  if (j <? 0) || (n <=? j) then Raise IndexError
  else match nth_error l (Z.to_nat j) with
       | Some a => Ok a
       | None => Raise IndexError
       end.

(** One step of [deque.rotate(1)] and of [deque.rotate(-1)]. *)
Definition rotate_right1 {A : Type} (l : list A) : list A :=
  match l with
  | [] => []
  | a :: _ => last l a :: removelast l
  end.

Definition rotate_left1 {A : Type} (l : list A) : list A :=
  match l with
  | [] => []
  | a :: l' => l' ++ [a]
  end.

(** [deque(l).rotate(n)]: [n] steps to the right, to the left when [n] is
    negative. *)
Definition deque_rotate {A : Type} (n : Z) (l : list A) : list A :=
  if 0 <=? n then Nat.iter (Z.to_nat n) rotate_right1 l
  else Nat.iter (Z.to_nat (- n)) rotate_left1 l.

(** [key in d] then [d[key]] on a dict with string keys, kept as an
    association list: [KeyError] when the key is missing. *)
Fixpoint dict_getitem {V : Type} (d : list (string * V)) (key : string) : res V :=
  match d with
  | [] => Raise KeyError
  | (k, v) :: d' => if String.eqb key k then Ok v else dict_getitem d' key
  end.

(** [c in s] for a one-character [c]. *)
Definition char_in (c : ascii) (l : list ascii) : bool :=
  existsb (Ascii.eqb c) l.

(** [crib in cypher]: [crib] occurs as a contiguous run of [cypher]. *)
Fixpoint starts_with (p s : list ascii) : bool :=
  match p, s with
  | [], _ => true
  | _ :: _, [] => false
  | a :: p', b :: s' => Ascii.eqb a b && starts_with p' s'
  end.

Fixpoint str_contains (s p : list ascii) : bool :=
  starts_with p s ||
  match s with
  | [] => false
  | _ :: s' => str_contains s' p
  end.

(** ** RotorData: wirings and notch positions *)

(** The value of a notch entry: an [int], or [False] for the rotors that
    have no notch. *)
Inductive notch_t : Type :=
| NInt (n : Z)
| NFalse.

(** [type(n) is int]. *)
Definition is_int (n : notch_t) : bool :=
  match n with NInt _ => true | NFalse => false end.

(** The integer a notch entry stands for in arithmetic ([False] is 0). *)
Definition int_of (n : notch_t) : Z :=
  match n with NInt z => z | NFalse => 0 end.

Module RotorData.

Definition sequence : list (string * list ascii) :=
  map (fun kv => (fst kv, list_ascii_of_string (snd kv)))
    [ ("alpha", "ABCDEFGHIJKLMNOPQRSTUVWXYZ");
      ("beta", "LEYJVCNIXWPBQMDRTAKZGFUHOS");
      ("gamma", "FSOKANUERHMBTIYCWLQPZXVGJD");
      ("i", "EKMFLGDQVZNTOWYHXUSPAIBRCJ");
      ("ii", "AJDKSIRUXBLHWTMCQGZNPYFVOE");
      ("iii", "BDFHJLCPRTXVZNYEIWGAKMUSQO");
      ("iv", "ESOVPZJAYQUIRHXLNFTGKDCMWB");
      ("v", "VZBRGITYUPSDNHLXAWMJQOFECK");
      ("a", "EJMZALYXVBWFCRQUONTSPIKHGD");
      ("b", "YRUHQSLDPXNGOKMIEBFZCWVJAT");
      ("c", "FVPJIAOYEDRZXWGCTKUQSBNMHL") ].

Definition notch : list (string * notch_t) :=
  [ ("i", NInt 17);
    ("ii", NInt 5);
    ("iii", NInt 22);
    ("iv", NInt 10);
    ("v", NInt 26);
    ("beta", NFalse);
    ("gamma", NFalse) ].

End RotorData.

(** The machine's alphabet, [Enigma.wiring] and [RotorData.sequence['alpha']]. *)
Definition alphabet : list ascii :=
  list_ascii_of_string "ABCDEFGHIJKLMNOPQRSTUVWXYZ".

(** ** PlugLead *)

Module PlugLead.

Record t : Type := mk { lead_mapping : set ascii }.

(** [PlugLead(mapping)]: the two letters, upper-cased, when [mapping] has
    two alphabetic characters; the empty set otherwise. *)
Definition new (mapping : string) : t :=
  match list_ascii_of_string mapping with
  | [a; b] =>
      if isalpha a && isalpha b
      then mk (set_add ascii_dec (upper b) (set_add ascii_dec (upper a) (empty_set ascii)))
      else mk (empty_set ascii)
  | _ => mk (empty_set ascii)
  end.

Definition get_mapping (self : t) : set ascii := lead_mapping self.

(** [set.pop()]: [KeyError] on the empty set. *)
Definition set_pop (s : set ascii) : res ascii :=
  match s with
  | [] => Raise KeyError
  | c :: _ => Ok c
  end.

Definition encode (self : t) (character : ascii) : res ascii :=
  if set_mem ascii_dec character (lead_mapping self)
  then set_pop (set_diff ascii_dec (lead_mapping self) [character])
  else Ok character.

End PlugLead.

(** ** Plugboard *)

Module Plugboard.

Record t : Type := mk {
  plug_leads : list PlugLead.t;
  plugs_in_use : list ascii
}.

Definition new : t := mk [] [].

Definition plugs_connected (self : t) : Z := Z.of_nat (List.length (plug_leads self)).

(** [any(plug in self.plugs_in_use for plug in plug_lead.get_mapping())] *)
Definition any_in_use (in_use : list ascii) (plug_lead : PlugLead.t) : bool :=
  existsb (fun plug => char_in plug in_use) (PlugLead.get_mapping plug_lead).

Definition append (self : t) (plug_lead : PlugLead.t) : t :=
  mk (plug_leads self ++ [plug_lead])
     (plugs_in_use self ++ PlugLead.get_mapping plug_lead).

Definition add (self : t) (plug_lead : PlugLead.t) : t * res unit :=
  if plugs_connected self =? 0 then (append self plug_lead, Ok tt)
  else if plugs_connected self <? 10 then
    if negb (any_in_use (plugs_in_use self) plug_lead)
    then (append self plug_lead, Ok tt)
    else (self, Ok tt)
  else (self, Raise NoPlugsAvailableException).

Fixpoint encode_leads (leads : list PlugLead.t) (character : ascii) : res ascii :=
  match leads with
  | [] => Ok character
  | a_lead :: leads' =>
      if set_mem ascii_dec character (PlugLead.get_mapping a_lead)
      then PlugLead.encode a_lead character
      else encode_leads leads' character
  end.

Definition encode (self : t) (character : ascii) : res ascii :=
  encode_leads (plug_leads self) character.

End Plugboard.

(** ** Rotor *)

Module Rotor.

Record t : Type := mk {
  notch : notch_t;
  rotor_type : string;
  rotor_offset : Z;
  rotor_wiring : list ascii;
  label : list ascii;
  initial_position : ascii;
  ring_setting : Z
}.

Definition with_notch (self : t) (n : notch_t) : t :=
  mk n (rotor_type self) (rotor_offset self) (rotor_wiring self) (label self)
     (initial_position self) (ring_setting self).

Definition with_rotor_offset (self : t) (o : Z) : t :=
  mk (notch self) (rotor_type self) o (rotor_wiring self) (label self)
     (initial_position self) (ring_setting self).

Definition with_rotor_wiring (self : t) (w : list ascii) : t :=
  mk (notch self) (rotor_type self) (rotor_offset self) w (label self)
     (initial_position self) (ring_setting self).

Definition with_label (self : t) (l : list ascii) : t :=
  mk (notch self) (rotor_type self) (rotor_offset self) (rotor_wiring self) l
     (initial_position self) (ring_setting self).

Definition encode_right_to_left (self : t) (character : ascii) : res ascii :=
  i <- index character (label self) ;;
  getitem (rotor_wiring self) i.

Definition encode_left_to_right (self : t) (character : ascii) : res ascii :=
  i <- index character (rotor_wiring self) ;;
  getitem (label self) i.

(** The wiring and the label sequence turn together. *)
Definition rotate (self : t) (n : Z) : t :=
  with_label (with_rotor_wiring self (deque_rotate n (rotor_wiring self)))
             (deque_rotate n (label self)).

Definition rotate_rotor (self : t) (direction : Z) : t := rotate self direction.

Definition set_rotor_offset (self : t) (direction : Z) : t :=
  let o := rotor_offset self + direction in
  let o := if o <=? 1 then 26 else o in
  let o := if 27 <=? o then 1 else o in
  with_rotor_offset self o.

Definition adjust_notch_position (self : t) : t :=
  match notch self with
  | NInt n =>
      let n := n - 1 in
      with_notch self (NInt (if n <? 1 then 26 else n))
  | NFalse => self
  end.

(** The body of the loop of [set_rotor_to_initial_position]. *)
Definition initial_position_step (self : t) : t :=
  set_rotor_offset (rotate self (-1)) 1.

(** [label.index] is evaluated once, before the first rotation: a
    [ValueError] leaves the rotor as it was. *)
Definition set_rotor_to_initial_position (self : t) (initial_position : ascii) : res t :=
  n <- index initial_position (label self) ;;
  Ok (Nat.iter (Z.to_nat n) initial_position_step self).

(** The body of the loop of [set_rotor_ring_setting]. *)
Definition ring_setting_step (self : t) : t :=
  adjust_notch_position (set_rotor_offset (rotate self 1) (-1)).

Definition set_rotor_ring_setting (self : t) (ring_setting : Z) : t :=
  Nat.iter (Z.to_nat (ring_setting - 1)) ring_setting_step self.

(** [Rotor(rotor_type, initial_position, ring_setting)] *)
Definition new (rotor_type : string) (initial_position : ascii) (ring_setting : Z) : res t :=
  n <- dict_getitem RotorData.notch (str_lower rotor_type) ;;
  w <- dict_getitem RotorData.sequence (str_lower rotor_type) ;;
  l <- dict_getitem RotorData.sequence "alpha" ;;
  self <- set_rotor_to_initial_position
            (mk n rotor_type 1 w l initial_position ring_setting) initial_position ;;
  Ok (set_rotor_ring_setting self ring_setting).

Definition reset_deque : M t unit :=
  (n <~ m_read (fun self => dict_getitem RotorData.notch (str_lower (rotor_type self))) ;;
   m_modify (fun self => with_notch self n) ;;;
   m_modify (fun self => with_rotor_offset self 1) ;;;
   m_modify (fun self => with_rotor_wiring self []) ;;;
   m_modify (fun self => with_label self []) ;;;
   w <~ m_read (fun self => dict_getitem RotorData.sequence (str_lower (rotor_type self))) ;;
   m_modify (fun self => with_rotor_wiring self w) ;;;
   l <~ m_lift (dict_getitem RotorData.sequence "alpha") ;;
   m_modify (fun self => with_label self l) ;;;
   (fun self =>
      match set_rotor_to_initial_position self (initial_position self) with
      | Ok self' => (self', Ok tt)
      | Raise e => (self, Raise e)
      end) ;;;
   m_modify (fun self => set_rotor_ring_setting self (ring_setting self)))%m.

End Rotor.

(** ** Reflector *)

(** [range(n)] *)
Definition range (n : Z) : list Z := map Z.of_nat (seq 0 (Z.to_nat n)).

Module Reflector.

Record t : Type := mk {
  reflector_sequence : list ascii;
  label : list ascii;
  r_type : string;
  wiring : list PlugLead.t;
  connected_wires : list ascii
}.

(** What [encode] returns: the index of the partner letter, or the
    character itself when no wire holds it. *)
Inductive contact : Type :=
| CInt (i : Z)
| CStr (c : ascii).

Fixpoint encode_leads (label : list ascii) (leads : list PlugLead.t)
    (character : ascii) : res contact :=
  match leads with
  | [] => Ok (CStr character)
  | a_lead :: leads' =>
      if set_mem ascii_dec character (PlugLead.get_mapping a_lead)
      then c <- PlugLead.encode a_lead character ;;
           i <- index c label ;;
           Ok (CInt i)
      else encode_leads label leads' character
  end.

Definition encode (self : t) (character : ascii) : res contact :=
  encode_leads (label self) (wiring self) character.

Definition get_wiring_pairs (self : t) : res (list string) :=
  fold_left
    (fun acc i =>
       wiring <- acc ;;
       li <- getitem (label self) i ;;
       if negb (existsb (fun l => char_in li (list_ascii_of_string l)) wiring)
       then si <- getitem (reflector_sequence self) i ;;
            Ok (wiring ++ [String li (String si EmptyString)])
       else Ok wiring)
    (range (Z.of_nat (List.length (label self)) - 1))
    (Ok []).

Definition append (self : t) (plug_lead : PlugLead.t) : t :=
  mk (reflector_sequence self) (label self) (r_type self)
     (wiring self ++ [plug_lead])
     (connected_wires self ++ PlugLead.get_mapping plug_lead).

Definition add (self : t) (plug_lead : PlugLead.t) : t :=
  if Z.of_nat (List.length (wiring self)) =? 0 then append self plug_lead
  else if negb (existsb (fun plug => char_in plug (connected_wires self))
                        (PlugLead.get_mapping plug_lead))
       then append self plug_lead
       else self.

Definition wire_reflector (self : t) (wiring : list string) : t :=
  fold_left (fun self wire => add self (PlugLead.new wire)) wiring self.

(** [Reflector(reflector_type, wiring)]; [wiring] is [None] by default. *)
Definition new (reflector_type : string) (wiring : option (list string)) : res t :=
  s <- dict_getitem RotorData.sequence (str_lower reflector_type) ;;
  l <- dict_getitem RotorData.sequence "alpha" ;;
  let self := mk s l reflector_type [] [] in
  match wiring with
  | None => w <- get_wiring_pairs self ;; Ok (wire_reflector self w)
  | Some w => Ok (wire_reflector self w)
  end.

End Reflector.

(** ** Enigma *)

Fixpoint list_set {A : Type} (l : list A) (i : nat) (a : A) : list A :=
  match l, i with
  | [], _ => []
  | _ :: l', O => a :: l'
  | b :: l', S i' => b :: list_set l' i' a
  end.

Module Enigma.

Record t : Type := mk {
  plugboard : option Plugboard.t;
  drum : list Rotor.t;
  reflector : option Reflector.t;
  wiring : list ascii
}.

(** [Enigma()] *)
Definition new : t := mk None [] None alphabet.

Definition with_drum (self : t) (d : list Rotor.t) : t :=
  mk (plugboard self) d (reflector self) (wiring self).

Definition add_rotor (self : t) (rotor : Rotor.t) : t * res unit :=
  if 3 <? Z.of_nat (List.length (drum self)) then (self, Raise EnigmaDrumFull)
  else (with_drum self (drum self ++ [rotor]), Ok tt).

Definition set_reflector (self : t) (reflector : Reflector.t) : t :=
  mk (plugboard self) (drum self) (Some reflector) (wiring self).

Definition set_plugboard (self : t) (plugboard : Plugboard.t) : t :=
  mk (Some plugboard) (drum self) (reflector self) (wiring self).

(** [self.drum[i]] and a method call [self.drum[i].f(...)] that mutates
    the rotor in place. *)
Definition drum_get (i : nat) : M (list Rotor.t) Rotor.t :=
  fun d => match nth_error d i with
           | Some r => (d, Ok r)
           | None => (d, Raise IndexError)
           end.

Definition drum_call (i : nat) (f : Rotor.t -> Rotor.t) : M (list Rotor.t) unit :=
  fun d => match nth_error d i with
           | Some r => (list_set d i (f r), Ok tt)
           | None => (d, Raise IndexError)
           end.

(** [type(r.notch) is int and r.notch == wiring.index(r.label[0])] *)
Definition on_notch (wiring : list ascii) (r : Rotor.t) : res bool :=
  if is_int (Rotor.notch r)
  then c <- getitem (Rotor.label r) 0 ;;
       i <- index c wiring ;;
       Ok (int_of (Rotor.notch r) =? i)
  else Ok false.

(** [type(r0.notch) is int and r1.notch - 1 == wiring.index(r1.label[0])] *)
Definition before_notch (wiring : list ascii) (r0 r1 : Rotor.t) : res bool :=
  if is_int (Rotor.notch r0)
  then c <- getitem (Rotor.label r1) 0 ;;
       i <- index c wiring ;;
       Ok (int_of (Rotor.notch r1) - 1 =? i)
  else Ok false.

(** [type(r2.notch) is int and r2.notch == wiring.index(r2.label[2]) - 1],
    the value [third_notch_rotation] starts with. *)
Definition third_notch_init (wiring : list ascii) (r2 : Rotor.t) : res bool :=
  if is_int (Rotor.notch r2)
  then c <- getitem (Rotor.label r2) 2 ;;
       i <- index c wiring ;;
       Ok (int_of (Rotor.notch r2) =? i - 1)
  else Ok false.

Definition rotate_and_offset (i : nat) : M (list Rotor.t) unit :=
  (drum_call i (fun r => Rotor.rotate_rotor r (-1)) ;;;
   drum_call i (fun r => Rotor.set_rotor_offset r 1))%m.

(** The stepping of the rotors for one letter; returns the new value of
    [third_notch_rotation]. *)
Definition step_rotors (wiring : list ascii) (third_notch_rotation : bool)
  : M (list Rotor.t) bool :=
  (drum_call 0 (fun r => Rotor.rotate_rotor r (-1)) ;;;
   r0 <~ drum_get 0 ;;
   c <~ m_lift (on_notch wiring r0) ;;
   third_notch_rotation <~
     (if c : bool then rotate_and_offset 1 ;;; m_ret true
      else m_ret third_notch_rotation) ;;
   r0 <~ drum_get 0 ;;
   c <~ (if is_int (Rotor.notch r0)
         then r1 <~ drum_get 1 ;; m_lift (before_notch wiring r0 r1)
         else m_ret false) ;;
   (if c : bool then rotate_and_offset 1 else m_ret tt) ;;;
   r1 <~ drum_get 1 ;;
   c <~ m_lift (on_notch wiring r1) ;;
   if (c && third_notch_rotation)%bool
   then drum_call 2 (fun r => Rotor.rotate_rotor r (-1)) ;;; m_ret false
   else m_ret third_notch_rotation)%m.

(** The current from right to left, rotor 0 first. *)
Definition forward (d : list Rotor.t) (contact : Z) : res Z :=
  fold_left
    (fun acc r =>
       contact <- acc ;;
       c <- getitem (Rotor.rotor_wiring r) contact ;;
       index c (Rotor.label r))
    d (Ok contact).

(** The current from left to right, the last rotor first. *)
Definition backward (d : list Rotor.t) (contact : Z) : res Z :=
  fold_left
    (fun acc r =>
       contact <- acc ;;
       c <- getitem (Rotor.label r) contact ;;
       index c (Rotor.rotor_wiring r))
    (rev d) (Ok contact).

Definition get_plugboard (self : t) : res Plugboard.t :=
  match plugboard self with
  | Some pb => Ok pb
  | None => Raise AttributeError
  end.

Definition get_reflector (self : t) : res Reflector.t :=
  match reflector self with
  | Some rf => Ok rf
  | None => Raise AttributeError
  end.

(** The path of one letter through the plugboard, the rotors as they
    stand, the reflector, and back. *)
Definition encode_letter (self : t) (d : list Rotor.t) (letter : ascii) : res ascii :=
  pb <- get_plugboard self ;;
  p <- Plugboard.encode pb letter ;;
  contact <- index p (wiring self) ;;
  contact <- forward d contact ;;
  rf <- get_reflector self ;;
  c <- getitem (wiring self) contact ;;
  contact <- Reflector.encode rf c ;;
  match contact with
  | Reflector.CStr _ => Raise TypeError
  | Reflector.CInt contact =>
      contact <- backward d contact ;;
      pb <- get_plugboard self ;;
      c <- getitem (wiring self) contact ;;
      Plugboard.encode pb c
  end.

(** The loop over the letters of [a_string]. *)
Fixpoint encode_letters (self : t) (a_string : list ascii)
    (third_notch_rotation : bool) (encoded : list ascii) : M (list Rotor.t) (list ascii) :=
  match a_string with
  | [] => m_ret encoded
  | letter :: rest =>
      (third_notch_rotation <~ step_rotors (wiring self) third_notch_rotation ;;
       c <~ m_read (fun d => encode_letter self d letter) ;;
       drum_call 0 (fun r => Rotor.set_rotor_offset r 1) ;;;
       encode_letters self rest third_notch_rotation (encoded ++ [c]))%m
  end.

(** [for r in self.drum: r.reset_deque()] *)
Fixpoint reset_drum (d : list Rotor.t) : list Rotor.t * res unit :=
  match d with
  | [] => ([], Ok tt)
  | r :: d' =>
      match Rotor.reset_deque r with
      | (r', Ok _) => let (d'', x) := reset_drum d' in (r' :: d'', x)
      | (r', Raise e) => (r' :: d', Raise e)
      end
  end.

(** The body of [encode_sequence] up to the end of the loop over the
    letters. *)
Definition encode_loop (self : t) (a_string : list ascii) : M (list Rotor.t) (list ascii) :=
  (r2 <~ drum_get 2 ;;
   third_notch_rotation <~ m_lift (third_notch_init (wiring self) r2) ;;
   encode_letters self a_string third_notch_rotation [])%m.

Definition encode_sequence (self : t) (a_string : list ascii) : t * res (list ascii) :=
  if Z.of_nat (List.length (drum self)) <? 3 then (self, Raise MissingRotors)
  else
    let (d, r) :=
      (encoded <~ encode_loop self a_string ;;
       reset_drum ;;;
       m_ret encoded)%m (drum self)
    in (with_drum self d, r).

End Enigma.

(** ** CodeBreaker *)

(** [for a in l: f(a)] on a mutable state. *)
Fixpoint m_iter {S A : Type} (f : A -> M S unit) (l : list A) : M S unit :=
  match l with
  | [] => m_ret tt
  | a :: l' => (f a ;;; m_iter f l')%m
  end.

(** [itertools.product(l, repeat=3)], each triple as a list. *)
Definition product3 {A : Type} (l : list A) : list (list A) :=
  flat_map (fun a => flat_map (fun b => map (fun c => [a; b; c]) l) l) l.

(** [itertools.product] over the lists of [ls], each tuple as a list. *)
Fixpoint product {A : Type} (ls : list (list A)) : list (list A) :=
  match ls with
  | [] => [[]]
  | l :: ls' => flat_map (fun a => map (cons a) (product ls')) l
  end.

(** [int(s)] on a string, in base 10: blanks around the number are dropped;
    a sign may come first; then decimal digits, with single underscores
    allowed between two digits; anything else is [ValueError].  CPython 3.11
    also answers [ValueError] to a number of more than 4300 digits. *)
Definition is_blank (c : ascii) : bool :=
  let n := nat_of_ascii c in
  ((Nat.leb 9 n && Nat.leb n 13) || Nat.eqb n 32)%bool.

Definition is_digit (c : ascii) : bool :=
  let n := nat_of_ascii c in (Nat.leb 48 n && Nat.leb n 57)%bool.

Definition digit_value (c : ascii) : Z := Z.of_nat (nat_of_ascii c - 48).

Fixpoint lstrip (l : list ascii) : list ascii :=
  match l with
  | c :: l' => if is_blank c then lstrip l' else l
  | [] => []
  end.

Definition strip (l : list ascii) : list ascii := rev (lstrip (rev (lstrip l))).

(** The digits after a first digit: [acc] is the value and [count] the
    number of the digits read so far. *)
Fixpoint int_digits (acc : Z) (count : nat) (l : list ascii) : res Z :=
  match l with
  | [] => if Nat.ltb 4300 count then Raise ValueError else Ok acc
  | c :: l' =>
      if is_digit c then int_digits (10 * acc + digit_value c) (S count) l'
      else if Ascii.eqb c "_"%char then
        match l' with
        | d :: l'' =>
            if is_digit d then int_digits (10 * acc + digit_value d) (S count) l''
            else Raise ValueError
        | [] => Raise ValueError
        end
      else Raise ValueError
  end.

Definition int_unsigned (l : list ascii) : res Z :=
  match l with
  | c :: l' => if is_digit c then int_digits (digit_value c) 1 l' else Raise ValueError
  | [] => Raise ValueError
  end.

Definition int (s : string) : res Z :=
  match strip (list_ascii_of_string s) with
  | c :: l =>
      if Ascii.eqb c "+"%char then int_unsigned l
      else if Ascii.eqb c "-"%char then n <- int_unsigned l ;; Ok (- n)
      else int_unsigned (c :: l)
  | [] => Raise ValueError
  end.

(** The keys of a dict filled by [d[k] = ...] for the [k] of [l] in turn:
    each key once, at the place where it came first. *)
Definition dict_keys (l : list string) : list string :=
  fold_left (fun keys k => if existsb (String.eqb k) keys then keys else keys ++ [k]) l [].

Module CodeBreaker.

(** The input record: the keys of the [data] dict, in the order the samples
    give them; [None] marks an unknown setting. *)
Record Data : Type := mkData {
  d_code : list ascii;
  d_crib : list ascii;
  d_rotors : option (list string);
  d_reflector : option string;
  d_ring_settings : option (list string);
  d_starting_positions : option (list ascii);
  d_plugboard : option (list string)
}.

(** An entry of [missing_information]: the name of a key, or the dict
    [{'plug': plug}] of a partly known plug. *)
Inductive missing : Type :=
| MKey (k : string)
| MPlug (plug : string).

(** What a search returns: the text of a hit with the settings it reports,
    the empty string, or the string ['Crib not found']. *)
Inductive result : Type :=
| Found (message : list ascii) (r_type : string) (sp : option (list ascii))
        (plugs : list (set ascii))
| Found3 (message : list ascii) (r_type : string) (rotors ring_settings : list string)
         (plugs : list (set ascii))
| EmptyResult
| CribNotFound.

Record t : Type := mk {
  missing_information : list missing;
  code : list ascii;
  crib : list ascii;
  enigma : Enigma.t;
  data : Data;
  plugboard : Plugboard.t;
  reflector : Reflector.t;
  rotors : list Rotor.t;
  reflectors : list string;
  starting_positions : list (list ascii);
  r3_combinations : list (list string * list string * string);
  plug_combinations : option (list (list string));
  reflector_combinations : list (list string)
}.

Definition with_enigma (self : t) (e : Enigma.t) : t :=
  mk (missing_information self) (code self) (crib self) e (data self) (plugboard self)
     (reflector self) (rotors self) (reflectors self) (starting_positions self)
     (r3_combinations self) (plug_combinations self) (reflector_combinations self).

Definition with_data (self : t) (d : Data) : t :=
  mk (missing_information self) (code self) (crib self) (enigma self) d (plugboard self)
     (reflector self) (rotors self) (reflectors self) (starting_positions self)
     (r3_combinations self) (plug_combinations self) (reflector_combinations self).

Definition with_plugboard (self : t) (pb : Plugboard.t) : t :=
  mk (missing_information self) (code self) (crib self) (enigma self) (data self) pb
     (reflector self) (rotors self) (reflectors self) (starting_positions self)
     (r3_combinations self) (plug_combinations self) (reflector_combinations self).

Definition with_reflector (self : t) (rf : Reflector.t) : t :=
  mk (missing_information self) (code self) (crib self) (enigma self) (data self)
     (plugboard self) rf (rotors self) (reflectors self) (starting_positions self)
     (r3_combinations self) (plug_combinations self) (reflector_combinations self).

Definition with_plug_combinations (self : t) (pc : option (list (list string))) : t :=
  mk (missing_information self) (code self) (crib self) (enigma self) (data self)
     (plugboard self) (reflector self) (rotors self) (reflectors self)
     (starting_positions self) (r3_combinations self) pc (reflector_combinations self).

Definition set_missing_information (data : Data) : list missing :=
  let none {A : Type} (k : string) (v : option A) : list missing :=
    match v with None => [MKey k] | Some _ => [] end in
  none "rotors" (d_rotors data) ++
  none "reflector" (d_reflector data) ++
  none "ring_settings" (d_ring_settings data) ++
  none "starting_positions" (d_starting_positions data) ++
  match d_plugboard data with
  | None => [MKey "plugboard"]
  | Some plugs =>
      flat_map (fun plug =>
                  if Z.of_nat (String.length plug) <? 2
                  then [MPlug plug; MKey "plugboard"]
                  else [])
               plugs
  end.

(** ['k' in self.missing_information] *)
Definition is_missing (k : string) (missing_info : list missing) : bool :=
  existsb (fun m => match m with MKey k' => String.eqb k k' | MPlug _ => false end)
          missing_info.

(** A value of the dict that the code takes to be a list. *)
Definition the_list {A : Type} (v : option (list A)) : res (list A) :=
  match v with
  | Some l => Ok l
  | None => Raise TypeError
  end.

Definition setup_rotors (rotor_info : Data) : res (list Rotor.t) :=
  names <- the_list (d_rotors rotor_info) ;;
  fold_left
    (fun acc i =>
       rotors <- acc ;;
       names <- the_list (d_rotors rotor_info) ;;
       ty <- getitem names i ;;
       positions <- the_list (d_starting_positions rotor_info) ;;
       p <- getitem positions i ;;
       rings <- the_list (d_ring_settings rotor_info) ;;
       rs <- getitem rings i ;;
       r <- int rs ;;
       rotor <- Rotor.new ty p r ;;
       Ok (rotors ++ [rotor]))
    (rev (range (Z.of_nat (List.length names))))
    (Ok []).

Definition setup_plugboard (missing_info : list missing) (data : Data) : res Plugboard.t :=
  if negb (is_missing "plugboard" missing_info)
  then
    plugs <- the_list (d_plugboard data) ;;
    fold_left
      (fun acc plug =>
         pb <- acc ;;
         match Plugboard.add pb (PlugLead.new plug) with
         | (pb', Ok _) => Ok pb'
         | (_, Raise e) => Raise e
         end)
      plugs (Ok Plugboard.new)
  else Ok Plugboard.new.

Definition setup_reflector (missing_info : list missing) (data : Data) : res Reflector.t :=
  if negb (is_missing "reflector" missing_info)
  then match d_reflector data with
       | Some ty => Reflector.new ty None
       | None => Raise AttributeError
       end
  else Reflector.new "b" None.

Definition change_reflector (self : t) (new_reflector : Reflector.t) : t :=
  with_reflector self new_reflector.

(** [setup_enigma]: a new engine takes the place of the old one, then gets
    the plugboard, freshly built rotors, and the reflector. *)
Definition setup_enigma : M t unit :=
  (m_modify (fun self => with_enigma self Enigma.new) ;;;
   m_modify (fun self =>
               with_enigma self (Enigma.set_plugboard (enigma self) (plugboard self))) ;;;
   new_rotors <~ m_read (fun self => setup_rotors (data self)) ;;
   m_iter (fun rotor self =>
             let (e, r) := Enigma.add_rotor (enigma self) rotor in (with_enigma self e, r))
          new_rotors ;;;
   m_modify (fun self =>
               with_enigma self (Enigma.set_reflector (enigma self) (reflector self))))%m.

Definition setup_starting_position (missing_info : list missing) (data : Data) : Data :=
  if is_missing "starting_positions" missing_info
  then mkData (d_code data) (d_crib data) (d_rotors data) (d_reflector data)
              (d_ring_settings data) (Some (list_ascii_of_string "AAA")) (d_plugboard data)
  else data.

Definition setup_ring_setting (missing_info : list missing) (data : Data) : Data :=
  if is_missing "ring_settings" missing_info
  then mkData (d_code data) (d_crib data) (d_rotors data) (d_reflector data)
              (Some ["01"; "01"; "01"]) (d_starting_positions data) (d_plugboard data)
  else data.

Definition setup_starting_rotors (missing_info : list missing) (data : Data) : Data :=
  if is_missing "rotors" missing_info
  then mkData (d_code data) (d_crib data) (Some ["I"; "II"; "III"]) (d_reflector data)
              (d_ring_settings data) (d_starting_positions data) (d_plugboard data)
  else data.

Definition change_starting_position (self : t) (new_position : list ascii) : t :=
  let d := data self in
  with_data self (mkData (d_code d) (d_crib d) (d_rotors d) (d_reflector d)
                         (d_ring_settings d) (Some new_position) (d_plugboard d)).

Definition change_rotors (self : t) (new_setup : list string) : t :=
  let d := data self in
  with_data self (mkData (d_code d) (d_crib d) (Some new_setup) (d_reflector d)
                         (d_ring_settings d) (d_starting_positions d) (d_plugboard d)).

Definition change_ring_setting (self : t) (new_settings : list string) : t :=
  let d := data self in
  with_data self (mkData (d_code d) (d_crib d) (d_rotors d) (d_reflector d)
                         (Some new_settings) (d_starting_positions d) (d_plugboard d)).

Definition get_possible_starting_positions : list (list ascii) := product3 alphabet.

Definition get_r3_combination (reflectors : list string)
  : list (list string * list string * string) :=
  let ring_settings := ["02"; "04"; "06"; "08"; "20"; "22"; "24"; "26"] in
  let possible_ring_settings_list := product3 ring_settings in
  let possible_rotors_list := product3 ["II"; "IV"; "Beta"; "Gamma"] in
  flat_map (fun rs =>
    flat_map (fun ro =>
      map (fun rf => (rs, ro, rf)) reflectors) possible_rotors_list)
    possible_ring_settings_list.

(** [list(a.symmetric_difference(letters))]; Python leaves the order of the
    list open, here the letters of the alphabet come last and in order. *)
Definition not_used_letters (all_plugs : list ascii) : list ascii :=
  nodup ascii_dec (filter (fun c => negb (char_in c alphabet)) all_plugs) ++
  filter (fun c => negb (char_in c all_plugs)) alphabet.

(** The text [partial_plugs['k']] that [get_plugs_combinations] builds for
    a key and hands to [eval].  The keys are the plugs of fewer than two
    characters that [set_missing_information] records, so a key is empty or
    one character [k]: the text is an expression, with the key as its value,
    unless [k] is a quote, a backslash or a line break (['\n'], ['\r']), when
    [eval] raises [SyntaxError], or the character of code 0, which [eval]
    refuses with [ValueError] before it parses (CPython 3.11). *)
Definition breaks_literal (key : string) : bool :=
  existsb (fun c => existsb (Nat.eqb (nat_of_ascii c)) [39; 92; 10; 13]%nat)
          (list_ascii_of_string key).

Definition has_nul (key : string) : bool :=
  existsb (fun c => Nat.eqb (nat_of_ascii c) 0) (list_ascii_of_string key).

(** With no key at all the text handed to [eval] is a lone bracket, which is
    a [SyntaxError] as well. *)
Definition get_plugs_combinations (missing_info : list missing) (data : Data)
  : res (list (list string)) :=
  plugs <- the_list (d_plugboard data) ;;
  let all_plugs := flat_map list_ascii_of_string plugs in
  let unused := not_used_letters all_plugs in
  let partial_plugs_keys :=
    dict_keys
      (flat_map (fun m => match m with MPlug plug => [plug] | MKey _ => [] end)
                missing_info) in
  let partial_plugs :=
    map (fun key =>
           flat_map (fun u => map (fun k => String u (String k EmptyString))
                                  (list_ascii_of_string key)) unused)
        partial_plugs_keys in
  match partial_plugs_keys with
  | [] => Raise SyntaxError
  | _ =>
      if existsb has_nul partial_plugs_keys then Raise ValueError
      else if existsb breaks_literal partial_plugs_keys then Raise SyntaxError
      else Ok (product partial_plugs)
  end.

Definition change_plugboard (new_plugs : list string) : M t unit :=
  fun self =>
    match the_list (d_plugboard (data self)) with
    | Raise e => (self, Raise e)
    | Ok plugs =>
        let current_plugs :=
          filter (fun plug => 1 <? Z.of_nat (String.length plug)) plugs ++ new_plugs in
        match fold_left
                (fun acc plug =>
                   pb <- acc ;;
                   match Plugboard.add pb (PlugLead.new plug) with
                   | (pb', Ok _) => Ok pb'
                   | (_, Raise e) => Raise e
                   end)
                current_plugs (Ok Plugboard.new)
        with
        | Ok new_plugboard => (with_plugboard self new_plugboard, Ok tt)
        | Raise e => (self, Raise e)
        end
    end.

(** [self.plugboard.get_plugs_settings()]: the text of a lead takes its
    first two letters, [IndexError] when it has fewer. *)
Definition get_plugs_settings (pb : Plugboard.t) : res (list (set ascii)) :=
  fold_left
    (fun acc connection =>
       connections <- acc ;;
       match PlugLead.lead_mapping connection with
       | a :: b :: _ => Ok (connections ++ [[a; b]])
       | _ => Raise IndexError
       end)
    (Plugboard.plug_leads pb) (Ok []).

(** [CodeBreaker(data)] *)
Definition new (data : Data) : res t :=
  let missing_info := set_missing_information data in
  let data := setup_starting_rotors missing_info data in
  let data := setup_starting_position missing_info data in
  let data := setup_ring_setting missing_info data in
  plugboard <- setup_plugboard missing_info data ;;
  reflector <- setup_reflector missing_info data ;;
  rotors <- setup_rotors data ;;
  let reflectors := ["a"; "b"; "c"] in
  let self := mk missing_info (d_code data) (d_crib data) Enigma.new data plugboard
                 reflector rotors reflectors get_possible_starting_positions
                 (get_r3_combination reflectors) None [] in
  match setup_enigma self with
  | (_, Raise e) => Raise e
  | (self, Ok _) =>
      if is_missing "plugboard" missing_info
      then pc <- get_plugs_combinations missing_info data ;;
           Ok (with_plug_combinations self (Some pc))
      else Ok self
  end.

(** [cypher = self.enigma.encode_sequence(self.code)] *)
Definition run_enigma : M t (list ascii) :=
  fun self =>
    let (e, r) := Enigma.encode_sequence (enigma self) (code self) in
    (with_enigma self e, r).

(** The [else] branch of the loop of [encode]: the next candidate is set up;
    [false] is returned when the loop is left by [break]. *)
Definition encode_next (i : Z) (sp : option (list ascii))
  : M t (bool * option (list ascii)) :=
  fun self =>
    if is_missing "reflector" (missing_information self) then
      if 2 <? i then (self, Ok (false, sp))
      else
        (ty <~ m_read (fun self => getitem (reflectors self) i) ;;
         rf <~ m_lift (Reflector.new ty None) ;;
         m_modify (fun self => change_reflector self rf) ;;;
         setup_enigma ;;;
         m_ret (true, sp))%m self
    else if is_missing "starting_positions" (missing_information self) then
      (new_position <~ m_read (fun self => getitem (starting_positions self) i) ;;
       m_modify (fun self => change_starting_position self new_position) ;;;
       setup_enigma ;;;
       m_ret (true, Some new_position))%m self
    else if is_missing "plugboard" (missing_information self) then
      match plug_combinations self with
      | None => (self, Raise AttributeError)
      | Some [] => (self, Ok (false, sp))
      | Some (c :: cs) =>
          let plug := last (c :: cs) c in
          (m_modify (fun self =>
                       with_plug_combinations self (Some (removelast (c :: cs)))) ;;;
           p0 <~ m_lift (getitem plug 0) ;;
           p1 <~ m_lift (getitem plug 1) ;;
           change_plugboard [p0; p1] ;;;
           setup_enigma ;;;
           m_ret (true, sp))%m self
      end
    else (self, Ok (true, sp)).

(** The loop of [encode]; [None] when [fuel] rounds were not enough. *)
Fixpoint encode_loop (fuel : nat) (i : Z) (sp : option (list ascii))
  : t -> option (t * res result) :=
  fun self =>
    match fuel with
    | O => None
    | S fuel' =>
        match run_enigma self with
        | (self, Raise e) => Some (self, Raise e)
        | (self, Ok cypher) =>
            if str_contains cypher (crib self) then
              match get_plugs_settings (plugboard self) with
              | Ok plugs =>
                  Some (self, Ok (Found cypher (Reflector.r_type (reflector self)) sp plugs))
              | Raise e => Some (self, Raise e)
              end
            else
              match encode_next i sp self with
              | (self, Raise e) => Some (self, Raise e)
              | (self, Ok (false, _)) => Some (self, Ok EmptyResult)
              | (self, Ok (true, sp)) => encode_loop fuel' (i + 1) sp self
              end
        end
    end.

Definition encode (fuel : nat) (self : t) : option (t * res result) :=
  encode_loop fuel 0 (d_starting_positions (data self)) self.

(** The [else] branch of the loop of [encode_part3]. *)
Definition encode_part3_next (i : Z) : M t unit :=
  (c <~ m_read (fun self => getitem (r3_combinations self) i) ;;
   m_modify (fun self => change_rotors self (snd (fst c))) ;;;
   c <~ m_read (fun self => getitem (r3_combinations self) i) ;;
   m_modify (fun self => change_ring_setting self (fst (fst c))) ;;;
   c <~ m_read (fun self => getitem (r3_combinations self) i) ;;
   rf <~ m_lift (Reflector.new (snd c) None) ;;
   m_modify (fun self => change_reflector self rf) ;;;
   setup_enigma)%m.

(** The loop of [encode_part3]; [None] when [fuel] rounds were not enough. *)
Fixpoint encode_part3_loop (fuel : nat) (i : Z) : t -> option (t * res result) :=
  fun self =>
    match fuel with
    | O => None
    | S fuel' =>
        match run_enigma self with
        | (self, Raise e) => Some (self, Raise e)
        | (self, Ok cypher) =>
            if str_contains cypher (crib self) then
              match (c <- getitem (r3_combinations self) (i - 1) ;;
                     plugs <- get_plugs_settings (plugboard self) ;;
                     Ok (Found3 cypher (Reflector.r_type (reflector self))
                                (snd (fst c)) (fst (fst c)) plugs))
              with
              | Ok found =>
                  if Z.of_nat (List.length (r3_combinations self)) <? i + 1
                  then Some (self, Ok CribNotFound)
                  else Some (self, Ok found)
              | Raise e => Some (self, Raise e)
              end
            else
              match encode_part3_next i self with
              | (self, Raise e) => Some (self, Raise e)
              | (self, Ok _) =>
                  if Z.of_nat (List.length (r3_combinations self)) <? i + 1
                  then Some (self, Ok CribNotFound)
                  else encode_part3_loop fuel' (i + 1) self
              end
        end
    end.

Definition encode_part3 (fuel : nat) (self : t) : option (t * res result) :=
  encode_part3_loop fuel 0 self.

End CodeBreaker.

(** * Specification predicates *)

(** A sequence is a wiring of the machine when it is a rearrangement of the
    alphabet. *)
Definition is_wiring (l : list ascii) : Prop := Permutation l alphabet.

Module Leads.

Import PlugLead.

(** The shapes a constructed lead can have: no letter, one letter (the two
    characters were the same letter), or two different letters. *)
Definition valid (l : t) : Prop :=
  match lead_mapping l with
  | [] => True
  | [a] => In a alphabet
  | [a; b] => a <> b /\ In a alphabet /\ In b alphabet
  | _ => False
  end.

(** The leads of a board or of a reflector share no letter. *)
Fixpoint disjoint (leads : list t) : Prop :=
  match leads with
  | [] => True
  | l :: ls =>
      (forall c l', In c (lead_mapping l) -> In l' ls -> ~ In c (lead_mapping l'))
      /\ disjoint ls
  end.

Definition letters (leads : list t) : list ascii := flat_map get_mapping leads.

(** The first lead that holds [c]. *)
Fixpoint find_lead (c : ascii) (leads : list t) : option t :=
  match leads with
  | [] => None
  | l :: ls => if set_mem ascii_dec c (get_mapping l) then Some l else find_lead c ls
  end.

End Leads.

(** ** States reached through the methods *)

(** A plugboard built from [Plugboard()] by calls of [add] on constructed
    leads. *)
Inductive plugboard_reachable : Plugboard.t -> Prop :=
| pb_reach_new : plugboard_reachable Plugboard.new
| pb_reach_add pb mapping :
    plugboard_reachable pb ->
    plugboard_reachable (fst (Plugboard.add pb (PlugLead.new mapping))).

(** The letter [c] appears in a lead stored on the board. *)
Definition plug_stored (pb : Plugboard.t) (c : ascii) : Prop :=
  exists l, In l (Plugboard.plug_leads pb) /\ In c (PlugLead.lead_mapping l).

(** The label and wiring sequences of a rotor are both rearrangements of the
    alphabet. *)
Definition rotor_wf (r : Rotor.t) : Prop :=
  is_wiring (Rotor.label r) /\ is_wiring (Rotor.rotor_wiring r).

(** The three fields the constructor records are never written again. *)
Definition same_config (a b : Rotor.t) : Prop :=
  Rotor.rotor_type a = Rotor.rotor_type b /\
  Rotor.initial_position a = Rotor.initial_position b /\
  Rotor.ring_setting a = Rotor.ring_setting b.

(** A rotor as its constructor leaves it. *)
Definition rotor_fresh (r : Rotor.t) : Prop :=
  Rotor.new (Rotor.rotor_type r) (Rotor.initial_position r) (Rotor.ring_setting r) = Ok r.

(** A rotor built by the constructor and then driven through its methods. *)
Inductive rotor_reachable : Rotor.t -> Prop :=
| rot_reach_new ty p r self :
    Rotor.new ty p r = Ok self -> rotor_reachable self
| rot_reach_rotate self direction :
    rotor_reachable self -> rotor_reachable (Rotor.rotate_rotor self direction)
| rot_reach_offset self direction :
    rotor_reachable self -> rotor_reachable (Rotor.set_rotor_offset self direction)
| rot_reach_notch self :
    rotor_reachable self -> rotor_reachable (Rotor.adjust_notch_position self)
| rot_reach_initial self p self' :
    rotor_reachable self -> Rotor.set_rotor_to_initial_position self p = Ok self' ->
    rotor_reachable self'
| rot_reach_ring self r :
    rotor_reachable self -> rotor_reachable (Rotor.set_rotor_ring_setting self r)
| rot_reach_reset self :
    rotor_reachable self -> rotor_reachable (fst (Rotor.reset_deque self)).

(** An engine built from [Enigma()] through its methods. *)
Inductive enigma_reachable : Enigma.t -> Prop :=
| en_reach_new : enigma_reachable Enigma.new
| en_reach_add_rotor e r :
    enigma_reachable e -> enigma_reachable (fst (Enigma.add_rotor e r))
| en_reach_set_reflector e rf :
    enigma_reachable e -> enigma_reachable (Enigma.set_reflector e rf)
| en_reach_set_plugboard e pb :
    enigma_reachable e -> enigma_reachable (Enigma.set_plugboard e pb)
| en_reach_encode e a_string :
    enigma_reachable e -> enigma_reachable (fst (Enigma.encode_sequence e a_string)).

(** A freshly set-up engine: a reachable plugboard, constructed rotors, a
    constructed reflector. *)
Definition enigma_configured (e : Enigma.t) : Prop :=
  (exists pb, Enigma.plugboard e = Some pb /\ plugboard_reachable pb) /\
  Forall rotor_fresh (Enigma.drum e) /\
  (exists ty w rf, Enigma.reflector e = Some rf /\ Reflector.new ty w = Ok rf) /\
  Enigma.wiring e = alphabet.

(** ** Observing the rotors during a run *)

(** The drum as it stands after the letters of [a_string] have been encoded,
    before [encode_sequence] resets the rotors. *)
Definition drum_after (self : Enigma.t) (a_string : list ascii) : list Rotor.t :=
  fst (Enigma.encode_loop self a_string (Enigma.drum self)).

(** The label sequence of the rotor in slot [i] after [n] letters of
    [a_string]; its first letter is the position of the rotor. *)
Definition position_after (self : Enigma.t) (a_string : list ascii) (i n : nat) : string :=
  match nth_error (drum_after self (firstn n a_string)) i with
  | Some r => string_of_list_ascii (Rotor.label r)
  | None => EmptyString
  end.

(** The rotor in slot [i] turns while the [n]-th letter (counted from 1) of
    [a_string] is encoded. *)
Definition advances_on (self : Enigma.t) (a_string : list ascii) (i n : nat) : bool :=
  negb (String.eqb (position_after self a_string i n)
                   (position_after self a_string i (n - 1))).

(** The rotor in slot 0 has its notch at the stepping contact when the
    [n]-th letter is encoded. *)
Definition notch_fires_on (self : Enigma.t) (a_string : list ascii) (n : nat) : bool :=
  match nth_error (drum_after self (firstn n a_string)) 0 with
  | Some r0 =>
      match Enigma.on_notch (Enigma.wiring self) r0 with
      | Ok b => b
      | Raise _ => false
      end
  | None => false
  end.

(** ** Exceptions a computation can end with *)

(** A result that is not the exception [MissingRotors]. *)
Definition not_missing_rotors {A : Type} (r : res A) : Prop := r <> Raise MissingRotors.

Definition never_missing_rotors {S A : Type} (c : M S A) : Prop :=
  forall s, not_missing_rotors (snd (c s)).

(** ** What the stepping of a drum keeps *)

(** [b] is [a] after some turns: the recorded arguments are the same, and
    [b] is well formed if [a] was. *)
Definition rotor_kept (a b : Rotor.t) : Prop :=
  same_config a b /\ (rotor_wf a -> rotor_wf b).

Definition drum_kept (d d' : list Rotor.t) : Prop := Forall2 rotor_kept d d'.

(** A computation on the drum that only turns rotors. *)
Definition keeps {A : Type} (c : M (list Rotor.t) A) : Prop :=
  forall d, drum_kept d (fst (c d)).

(** What the calls of [Reflector.add] keep true of a reflector. *)
Record reflector_inv (rf : Reflector.t) : Prop := {
  rf_inv_valid : Forall Leads.valid (Reflector.wiring rf);
  rf_inv_connected : Reflector.connected_wires rf = Leads.letters (Reflector.wiring rf);
  rf_inv_disjoint : Leads.disjoint (Reflector.wiring rf);
  rf_inv_label : Reflector.label rf = alphabet
}.

(** The drum on which the single letter is encoded: it does not depend on
    the letter. *)
Definition stepped (self : Enigma.t) : M (list Rotor.t) bool :=
  (r2 <~ Enigma.drum_get 2 ;;
   flag <~ m_lift (Enigma.third_notch_init (Enigma.wiring self) r2) ;;
   Enigma.step_rotors (Enigma.wiring self) flag)%m.

(** ** What a search keeps of the code breaker *)

(** The fields a search never writes: the texts, the candidate lists and the
    list of missing settings. *)
Definition cb_kept (a b : CodeBreaker.t) : Prop :=
  CodeBreaker.code b = CodeBreaker.code a /\
  CodeBreaker.crib b = CodeBreaker.crib a /\
  CodeBreaker.missing_information b = CodeBreaker.missing_information a /\
  CodeBreaker.reflectors b = CodeBreaker.reflectors a /\
  CodeBreaker.starting_positions b = CodeBreaker.starting_positions a /\
  CodeBreaker.r3_combinations b = CodeBreaker.r3_combinations a.

Definition cb_keeps {A : Type} (c : M CodeBreaker.t A) : Prop :=
  forall s, cb_kept s (fst (c s)).

(** ** Engines that answer on every letter *)

(** No lead of the board holds a single letter. *)
Definition plugboard_proper (pb : Plugboard.t) : Prop :=
  Forall (fun l => List.length (PlugLead.lead_mapping l) <> 1%nat) (Plugboard.plug_leads pb).

(** Every letter of the alphabet is wired in the reflector. *)
Definition reflector_complete (rf : Reflector.t) : Prop :=
  forall c, In c alphabet -> exists i, Reflector.encode rf c = Ok (Reflector.CInt i).

(** A drum of at least three well-formed rotors. *)
Definition drum_ok (d : list Rotor.t) : Prop :=
  (3 <= List.length d)%nat /\ Forall rotor_wf d.

(** A computation on the drum that returns normally from every such drum,
    with a value that satisfies [Q]. *)
Definition succeeds {A : Type} (Q : A -> Prop) (c : M (list Rotor.t) A) : Prop :=
  forall d, drum_ok d -> exists d' a, c d = (d', Ok a) /\ drum_ok d' /\ Q a.

(** The rotor in slot 0 keeps its label sequence through a computation. *)
Definition keeps_slot0 {A : Type} (c : M (list Rotor.t) A) : Prop :=
  forall d, option_map Rotor.label (nth_error (fst (c d)) 0)
            = option_map Rotor.label (nth_error d 0).

(** ** Sample machines *)

(** The rotor the constructor builds, for arguments it accepts. *)
Definition build_rotor (ty : string) (p : ascii) (r : Z) : Rotor.t :=
  match Rotor.new ty p r with
  | Ok self => self
  | Raise _ => Rotor.mk NFalse ty 1 [] [] p r
  end.

Definition build_plugboard (plugs : list string) : Plugboard.t :=
  fold_left (fun pb plug => fst (Plugboard.add pb (PlugLead.new plug))) plugs Plugboard.new.

(** An engine set up as the [__main__] blocks do: plugboard, rotors from
    slot 0 on, reflector. *)
Definition build_enigma (rotors : list (string * ascii * Z)) (reflector : string)
    (plugs : list string) : Enigma.t :=
  let e := Enigma.set_plugboard Enigma.new (build_plugboard plugs) in
  let e := fold_left (fun e '(ty, p, r) => fst (Enigma.add_rotor e (build_rotor ty p r)))
                     rotors e in
  match Reflector.new reflector None with
  | Ok rf => Enigma.set_reflector e rf
  | Raise _ => e
  end.

(** The machine of the first sample of [code_breaker.py]: rotors Beta, Gamma
    and V (slot 0 is the last of them), reflector C, three plugs. *)
Definition sample_engine : Enigma.t :=
  build_enigma [("V", "M"%char, 14); ("Gamma", "J"%char, 2); ("Beta", "M"%char, 4)]
               "c" ["KI"; "XN"; "FL"].

Definition sample_code : list ascii :=
  list_ascii_of_string "DMEXBMKYCVPNQBEDHXVPZGKMTFFBJRPJTLHLCHOTKOYXGGHZ".

Definition sample_message : list ascii :=
  list_ascii_of_string "NICEWORKYOUVEMANAGEDTODECODETHEFIRSTSECRETSTRING".

(** Rotor III in the middle slot at position [p] with ring setting [r],
    rotor I in slot 0 one step before the letter Q, so that its notch is at
    the stepping contact when the second letter is encoded. *)
Definition double_step_engine (p : ascii) (r : Z) : Enigma.t :=
  build_enigma [("I", "P"%char, 1); ("III", p, r); ("II", "A"%char, 1)] "B" [].

Definition double_step_text : list ascii := list_ascii_of_string "AAA".

(** The middle rotor turns on the second and on the third letter. *)
Definition double_steps (p : ascii) (r : Z) : bool :=
  advances_on (double_step_engine p r) double_step_text 1 2 &&
  advances_on (double_step_engine p r) double_step_text 1 3.

(** ** Sample searches *)

(** The code breaker [CodeBreaker(data)] builds, for data it accepts. *)
Definition build_code_breaker (data : CodeBreaker.Data) : CodeBreaker.t :=
  match CodeBreaker.new data with
  | Ok self => self
  | Raise _ =>
      CodeBreaker.mk [] (CodeBreaker.d_code data) (CodeBreaker.d_crib data) Enigma.new data
        Plugboard.new (Reflector.mk [] [] EmptyString [] []) [] [] [] [] None []
  end.

(** The third sample of [code_breaker.py] (rotors, reflector and ring
    settings unknown) with a code shorter than its crib. *)
Definition joint_search_data : CodeBreaker.Data :=
  CodeBreaker.mkData (list_ascii_of_string "HELLO") (list_ascii_of_string "THOUSAND")
    None None None (Some (list_ascii_of_string "EMY"))
    (Some ["FH"; "TS"; "UQ"; "BE"; "KD"; "AL"]).

(** The second sample of [code_breaker.py] (starting positions unknown) with
    a code shorter than its crib. *)
Definition position_search_data : CodeBreaker.Data :=
  CodeBreaker.mkData (list_ascii_of_string "HELLO") (list_ascii_of_string "UNIVERSITY")
    (Some ["Beta"; "I"; "III"]) (Some "B") (Some ["23"; "02"; "10"]) None
    (Some ["VH"; "PT"; "ZG"; "BJ"; "EY"; "FS"]).

(** The first sample of [code_breaker.py] (every setting known) with a crib
    that its message does not hold. *)
Definition known_settings_data : CodeBreaker.Data :=
  CodeBreaker.mkData sample_code (list_ascii_of_string "ENIGMA")
    (Some ["Beta"; "Gamma"; "V"]) (Some "c") (Some ["04"; "02"; "14"])
    (Some (list_ascii_of_string "MJM")) (Some ["KI"; "XN"; "FL"]).

(** The engine of a code breaker is as [setup_enigma] leaves it: the
    plugboard and reflector of the code breaker, and the rotors its data
    describe, three or four of them. *)
Definition engine_set_up (self : CodeBreaker.t) : Prop :=
  exists rs,
    CodeBreaker.setup_rotors (CodeBreaker.data self) = Ok rs /\
    (3 <= List.length rs <= 4)%nat /\
    CodeBreaker.enigma self
    = Enigma.mk (Some (CodeBreaker.plugboard self)) rs
                (Some (CodeBreaker.reflector self)) alphabet.

(** The second sample of [code_breaker.py] with the reflector unknown
    instead of the starting positions, and a crib that no reflector brings
    out of the code. *)
Definition reflector_search_data : CodeBreaker.Data :=
  CodeBreaker.mkData
    (list_ascii_of_string "CMFSUPKNCBMUYEQVVDYKLRQZTPUFHSWWAKTUGXMPAMYAFITXIJKMH")
    (list_ascii_of_string "ENIGMA")
    (Some ["Beta"; "I"; "III"]) None (Some ["23"; "02"; "10"])
    (Some (list_ascii_of_string "IMG")) (Some ["VH"; "PT"; "ZG"; "BJ"; "EY"; "FS"]).

(** The text a trial of the search gives when the reflector [rf] is
    installed: the engine that [setup_enigma] builds from the plugboard and
    the data of the code breaker, run on its code. *)
Definition trial (self : CodeBreaker.t) (rf : Reflector.t) : res (list ascii) :=
  rs <- CodeBreaker.setup_rotors (CodeBreaker.data self) ;;
  snd (Enigma.encode_sequence
         (Enigma.mk (Some (CodeBreaker.plugboard self)) rs (Some rf) alphabet)
         (CodeBreaker.code self)).

(** The trial with [rf] gives no text that holds the crib. *)
Definition misses (self : CodeBreaker.t) (rf : Reflector.t) : Prop :=
  forall out, trial self rf = Ok out -> str_contains out (CodeBreaker.crib self) = false.

(** A code breaker ready for a reflector search without a hit: the reflector
    is the unknown, the engine is set up, the plugboard has no one-letter
    lead, the code is made of upper-case letters, and neither the reflector
    the search starts with nor a candidate of the list gives a text that
    holds the crib. *)
Definition reflector_search_ready (self : CodeBreaker.t) : Prop :=
  CodeBreaker.is_missing "reflector" (CodeBreaker.missing_information self) = true /\
  CodeBreaker.reflectors self = ["a"; "b"; "c"] /\
  engine_set_up self /\
  plugboard_reachable (CodeBreaker.plugboard self) /\
  plugboard_proper (CodeBreaker.plugboard self) /\
  (exists ty w, Reflector.new ty w = Ok (CodeBreaker.reflector self)) /\
  reflector_complete (CodeBreaker.reflector self) /\
  Forall (fun c => In c alphabet) (CodeBreaker.code self) /\
  misses self (CodeBreaker.reflector self) /\
  (forall ty rf, In ty (CodeBreaker.reflectors self) -> Reflector.new ty None = Ok rf ->
                 misses self rf).

(** The rotors from slot 3 on are left as they are by a computation. *)
Definition keeps_upper {A : Type} (c : M (list Rotor.t) A) : Prop :=
  forall d i, (3 <= i)%nat -> nth_error (fst (c d)) i = nth_error d i.

(** A machine with four rotors, the fourth one in slot 3. *)
Definition four_rotor_engine : Enigma.t :=
  build_enigma [("I", "Q"%char, 1); ("II", "E"%char, 1); ("III", "V"%char, 1);
                ("Beta", "K"%char, 7)] "b" [].

(** The third sample of [code_breaker.py] with a code that the settings the
    joint search starts from (rotors I, II, III, ring settings 01, reflector
    b) already decode to a text that holds the crib. *)
Definition first_hit_data : CodeBreaker.Data :=
  CodeBreaker.mkData (list_ascii_of_string "LMDRMEMLN") (list_ascii_of_string "THOUSAND")
    None None None (Some (list_ascii_of_string "EMY"))
    (Some ["FH"; "TS"; "UQ"; "BE"; "KD"; "AL"]).

(** The partly known plugs recorded in [missing_information], in the order
    of their entries. *)
Definition partial_plugs (mi : list CodeBreaker.missing) : list string :=
  flat_map (fun m => match m with CodeBreaker.MPlug p => [p] | CodeBreaker.MKey _ => [] end) mi.

(** The keys of the dict [partial_plugs] of [get_plugs_combinations] for a
    board with the plugs [plugs]: the plugs of fewer than two characters,
    each once, in the order in which they come first. *)
Definition partial_keys (plugs : list string) : list string :=
  dict_keys (filter (fun plug => Z.of_nat (String.length plug) <? 2) plugs).

(** [plug] completes the partly known plug [key] of a board with the plugs
    [plugs]: a character of the symmetric difference of the characters of
    the plugs and the alphabet, followed by a character of [key]. *)
Definition completes (plugs : list string) (key plug : string) : Prop :=
  exists u k,
    plug = String u (String k EmptyString) /\
    (let all := flat_map list_ascii_of_string plugs in
     (In u alphabet /\ ~ In u all) \/ (In u all /\ ~ In u alphabet)) /\
    In k (list_ascii_of_string key).

(** The fourth sample of [code_breaker.py] (plugs partly known) with a
    single partly known plug and a code shorter than its crib. *)
Definition one_plug_data : CodeBreaker.Data :=
  CodeBreaker.mkData (list_ascii_of_string "HELLO") (list_ascii_of_string "DURINGTHE")
    (Some ["V"; "III"; "IV"]) (Some "a") (Some ["24"; "12"; "10"])
    (Some (list_ascii_of_string "SWU"))
    (Some ["WP"; "RJ"; "VF"; "HN"; "CG"; "BS"; "A"]).

(** The rotations of the ring setting.  For every rotor type and every ring
    setting [r] in 1..26, the constructor applies exactly [r - 1] ring
    rotations to the rotor aligned to its initial position; each rotation
    turns wiring and label together by one step and lowers the notch index by
    one, 1 wrapping to 26 (a rotor without notch stays without); so the wiring
    and label end turned by [r - 1] steps and a notch [n] ends at
    [n - (r - 1)] wrapped into 1..26. *)
Definition ring_rotations (ty : string) (p : ascii) (r : Z) (self : Rotor.t) : Prop :=
  exists n0 w0 base,
    dict_getitem RotorData.notch (str_lower ty) = Ok n0 /\
    dict_getitem RotorData.sequence (str_lower ty) = Ok w0 /\
    Rotor.set_rotor_to_initial_position (Rotor.mk n0 ty 1 w0 alphabet p r) p = Ok base /\
    self = Nat.iter (Z.to_nat (r - 1)) Rotor.ring_setting_step base /\
    (forall s,
       Rotor.rotor_wiring (Rotor.ring_setting_step s) = deque_rotate 1 (Rotor.rotor_wiring s) /\
       Rotor.label (Rotor.ring_setting_step s) = deque_rotate 1 (Rotor.label s) /\
       Rotor.notch (Rotor.ring_setting_step s) =
         match Rotor.notch s with
         | NInt n => NInt (if n <=? 1 then 26 else n - 1)
         | NFalse => NFalse
         end) /\
    Rotor.rotor_wiring self = deque_rotate (r - 1) (Rotor.rotor_wiring base) /\
    Rotor.label self = deque_rotate (r - 1) (Rotor.label base) /\
    Rotor.notch self =
      match n0 with
      | NInt n => NInt ((n - r) mod 26 + 1)
      | NFalse => NFalse
      end.

(** The steps at which a rotor with the notch number [n], started at the
    letter of index [ip], is due to step its neighbour when notch and label
    are turned together: after [k] steps with [ip + k = n] modulo 26,
    whatever the ring setting. *)
Definition turnover_due (n ip : Z) (k : nat) : bool :=
  (ip + Z.of_nat k - n) mod 26 =? 0.

(** The rotor after [k] steps of the drum. *)
Definition steps (k : nat) (self : Rotor.t) : Rotor.t :=
  Nat.iter k (fun s => Rotor.rotate_rotor s (-1)) self.

(** ** Deciding the reflector property on one letter *)

(** [reflector_swaps ty x]: the catalog reflector [ty] sends [x] to the index
    of another letter, and sends that letter back to the index of [x]. *)
Definition reflector_swaps (ty : string) (x : ascii) : bool :=
  match Reflector.new ty None with
  | Ok rf =>
      match Reflector.encode rf x with
      | Ok (Reflector.CInt i) =>
          match getitem alphabet i with
          | Ok y =>
              negb (Ascii.eqb y x) &&
              match Reflector.encode rf y with
              | Ok (Reflector.CInt j) =>
                  match getitem alphabet j with
                  | Ok x' => Ascii.eqb x' x
                  | Raise _ => false
                  end
              | _ => false
              end
          | Raise _ => false
          end
      | _ => false
      end
  | Raise _ => false
  end.

(** * Properties *)

(** ** Lists, indices and rotations *)

Section ListFacts.

Lemma index_bounds x l i :
  index x l = Ok i -> 0 <= i < Z.of_nat (List.length l).
Proof.
  revert i; induction l as [|y l IH]; intros i; simpl; [discriminate|].
  destruct (Ascii.eqb x y).
  - intros [= <-]. lia.
  - destruct (index x l) as [j|e]; simpl; [|discriminate].
    intros [= <-]. specialize (IH j eq_refl). lia.
Qed.

Lemma index_nth_error x l i :
  index x l = Ok i -> nth_error l (Z.to_nat i) = Some x.
Proof.
  revert i; induction l as [|y l IH]; intros i; simpl; [discriminate|].
  destruct (Ascii.eqb x y) eqn:E.
  - intros [= <-]. apply Ascii.eqb_eq in E. now subst.
  - destruct (index x l) as [j|e] eqn:Ej; simpl; [|discriminate].
    intros [= <-]. pose proof (index_bounds _ _ _ Ej).
    replace (Z.to_nat (j + 1)) with (S (Z.to_nat j)) by lia.
    simpl. now apply IH.
Qed.

Lemma getitem_nth_error {A} (l : list A) i a :
  0 <= i -> nth_error l (Z.to_nat i) = Some a -> getitem l i = Ok a.
Proof.
  intros Hi Hn. unfold getitem.
  assert (Hlt : (Z.to_nat i < List.length l)%nat)
    by (apply nth_error_Some; congruence).
  destruct (i <? 0) eqn:E1; [lia|].
  rewrite E1. simpl.
  destruct (Z.of_nat (List.length l) <=? i) eqn:E2; [lia|].
  now rewrite Hn.
Qed.

Lemma getitem_inv {A} (l : list A) i a :
  0 <= i -> getitem l i = Ok a ->
  i < Z.of_nat (List.length l) /\ nth_error l (Z.to_nat i) = Some a.
Proof.
  intros Hi. unfold getitem.
  destruct (i <? 0) eqn:E1; [lia|].
  rewrite E1; simpl.
  destruct (Z.of_nat (List.length l) <=? i) eqn:E2; [discriminate|].
  destruct (nth_error l (Z.to_nat i)) eqn:E3; [|discriminate].
  intros [= <-]. split; [lia|reflexivity].
Qed.

Lemma index_getitem x l i :
  index x l = Ok i -> getitem l i = Ok x.
Proof.
  intros H. apply getitem_nth_error.
  - apply index_bounds in H; lia.
  - now apply index_nth_error.
Qed.

Lemma index_In x l : In x l -> exists i, index x l = Ok i.
Proof.
  induction l as [|y l IH]; simpl; [tauto|].
  intros H. destruct (Ascii.eqb x y) eqn:E; [now eexists|].
  destruct H as [->|H]; [now rewrite Ascii.eqb_refl in E|].
  destruct (IH H) as [i ->]. now eexists.
Qed.

Lemma index_In_inv x l i : index x l = Ok i -> In x l.
Proof.
  intros H. apply index_nth_error in H. eapply nth_error_In; eauto.
Qed.

Lemma index_of_nth x l (n : nat) :
  NoDup l -> nth_error l n = Some x -> index x l = Ok (Z.of_nat n).
Proof.
  revert n; induction l as [|y l IH]; intros n Hnd Hn.
  - now destruct n.
  - inversion Hnd as [|? ? Hy Hnd']; subst. destruct n as [|n]; simpl in *.
    + injection Hn as ->. now rewrite Ascii.eqb_refl.
    + destruct (Ascii.eqb x y) eqn:E.
      * apply Ascii.eqb_eq in E; subst. apply nth_error_In in Hn. contradiction.
      * rewrite (IH n Hnd' Hn). simpl. f_equal. lia.
Qed.

Lemma getitem_index x l i :
  NoDup l -> 0 <= i -> getitem l i = Ok x -> index x l = Ok i.
Proof.
  intros Hnd Hi Hg. apply getitem_inv in Hg as [_ Hn]; [|assumption].
  rewrite (index_of_nth _ _ _ Hnd Hn). f_equal. lia.
Qed.

Lemma getitem_In {A} (l : list A) i a : 0 <= i -> getitem l i = Ok a -> In a l.
Proof.
  intros Hi Hg. apply getitem_inv in Hg as [_ Hn]; [|assumption].
  eapply nth_error_In; eauto.
Qed.

Lemma getitem_defined {A} (l : list A) i :
  0 <= i < Z.of_nat (List.length l) -> exists a, getitem l i = Ok a.
Proof.
  intros Hi. destruct (nth_error l (Z.to_nat i)) as [a|] eqn:E.
  - exists a. apply getitem_nth_error; [lia|assumption].
  - apply nth_error_None in E. lia.
Qed.

Lemma char_in_In c l : char_in c l = true <-> In c l.
Proof.
  unfold char_in. rewrite existsb_exists. split.
  - intros [x [Hx E]]. apply Ascii.eqb_eq in E. now subst.
  - intros H. exists c. split; [assumption|apply Ascii.eqb_refl].
Qed.

Lemma rotate_left1_perm {A} (l : list A) : Permutation (rotate_left1 l) l.
Proof.
  destruct l as [|a l]; simpl; [constructor|].
  symmetry. apply Permutation_cons_append.
Qed.

Lemma rotate_right1_perm {A} (l : list A) : Permutation (rotate_right1 l) l.
Proof.
  destruct l as [|a l]; [constructor|].
  unfold rotate_right1.
  rewrite (app_removelast_last a (l := a :: l)) at 3 by discriminate.
  apply Permutation_cons_append.
Qed.

Lemma deque_rotate_perm {A} n (l : list A) : Permutation (deque_rotate n l) l.
Proof.
  unfold deque_rotate. destruct (0 <=? n).
  - induction (Z.to_nat n) as [|k IH]; simpl; [reflexivity|].
    etransitivity; [apply rotate_right1_perm|exact IH].
  - induction (Z.to_nat (- n)) as [|k IH]; simpl; [reflexivity|].
    etransitivity; [apply rotate_left1_perm|exact IH].
Qed.

Lemma deque_rotate_right n {A} (l : list A) :
  0 <= n -> deque_rotate n l = Nat.iter (Z.to_nat n) rotate_right1 l.
Proof.
  intros H. unfold deque_rotate. destruct (0 <=? n) eqn:E; [reflexivity|lia].
Qed.

End ListFacts.

Lemma alphabet_NoDup : NoDup alphabet.
Proof.
  unfold alphabet; simpl.
  repeat (constructor; [simpl; intuition discriminate|]). constructor.
Qed.

Lemma alphabet_length : List.length alphabet = 26%nat.
Proof. reflexivity. Qed.

Lemma is_wiring_check l :
  forallb (fun c => char_in c l) alphabet = true ->
  List.length l = 26%nat ->
  is_wiring l.
Proof.
  intros Hall Hlen.
  assert (Hincl : incl alphabet l).
  { intros c Hc. rewrite forallb_forall in Hall. now apply char_in_In, Hall. }
  assert (Hnd : NoDup l).
  { apply (@NoDup_incl_NoDup _ alphabet l alphabet_NoDup);
      [rewrite Hlen; simpl; lia|exact Hincl]. }
  apply NoDup_Permutation_bis; [exact Hnd| |].
  - rewrite Hlen. simpl. lia.
  - apply (@NoDup_length_incl _ alphabet l alphabet_NoDup);
      [rewrite Hlen; simpl; lia|exact Hincl].
Qed.

Lemma is_wiring_NoDup l : is_wiring l -> NoDup l.
Proof. intros H. eapply Permutation_NoDup; [symmetry; exact H|apply alphabet_NoDup]. Qed.

Lemma is_wiring_length l : is_wiring l -> List.length l = 26%nat.
Proof. intros H. now rewrite (Permutation_length H). Qed.

Lemma is_wiring_In l c : is_wiring l -> (In c l <-> In c alphabet).
Proof.
  intros H; split; intros Hc.
  - eapply Permutation_in; eauto.
  - eapply Permutation_in; [symmetry; exact H|assumption].
Qed.

Lemma is_wiring_rotate n l : is_wiring l -> is_wiring (deque_rotate n l).
Proof. intros H. unfold is_wiring. now rewrite deque_rotate_perm. Qed.

(** ** Leads *)

Lemma isalpha_upper_alphabet a : isalpha a = true -> In (upper a) alphabet.
Proof.
  intros H. apply char_in_In. revert H.
  destruct a as [b0 b1 b2 b3 b4 b5 b6 b7].
  destruct b0, b1, b2, b3, b4, b5, b6, b7; vm_compute; congruence.
Qed.

Module LeadFacts.

Import PlugLead Leads.

Lemma new_valid s : valid (new s).
Proof.
  unfold new, valid.
  destruct (list_ascii_of_string s) as [|a [|b [|c r]]]; simpl; trivial.
  destruct (isalpha a) eqn:Ha; simpl; trivial.
  destruct (isalpha b) eqn:Hb; simpl; trivial.
  apply isalpha_upper_alphabet in Ha, Hb.
  destruct (ascii_dec (upper b) (upper a)); simpl; auto.
Qed.

Lemma set_mem_In c m : set_mem ascii_dec c m = true <-> In c m.
Proof.
  split; [apply set_mem_correct1|apply set_mem_correct2].
Qed.

Lemma set_mem_not_In c m : set_mem ascii_dec c m = false <-> ~ In c m.
Proof.
  split; [apply set_mem_complete1|apply set_mem_complete2].
Qed.

(** A lead swaps its two letters, and is the identity elsewhere. *)
Ltac dec_cases :=
  repeat match goal with
    | H : context [ascii_dec ?a ?b] |- _ =>
        destruct (ascii_dec a b); simpl in H; try congruence
    | |- context [ascii_dec ?a ?b] =>
        destruct (ascii_dec a b); simpl; try congruence
    end.

Lemma encode_spec l x y :
  valid l -> encode l x = Ok y ->
  (~ In x (lead_mapping l) /\ y = x) \/
  (In x (lead_mapping l) /\ In y (lead_mapping l) /\ x <> y /\ encode l y = Ok x).
Proof.
  unfold valid, encode. destruct l as [m]; simpl.
  destruct m as [|a [|b [|c r]]]; simpl; try tauto.
  - intros _ [= <-]. left. tauto.
  - intros _ H. dec_cases. injection H as <-. left. intuition congruence.
  - intros (Hab & _ & _) H. dec_cases; injection H as <-;
      solve [ left; intuition congruence
            | right; repeat split; auto; dec_cases; congruence ].
Qed.

Lemma encode_outside l x : ~ In x (lead_mapping l) -> encode l x = Ok x.
Proof.
  intros H. unfold encode. apply set_mem_not_In in H. now rewrite H.
Qed.

Lemma valid_In_alphabet l c : valid l -> In c (lead_mapping l) -> In c alphabet.
Proof.
  unfold valid. destruct (lead_mapping l) as [|a [|b [|d r]]]; simpl; try tauto.
  - intros H [<-|[]]; assumption.
  - intros (_ & Ha & Hb) [<-|[<-|[]]]; assumption.
Qed.

Lemma letters_In c leads :
  In c (letters leads) <-> exists l, In l leads /\ In c (lead_mapping l).
Proof. unfold letters. rewrite in_flat_map. reflexivity. Qed.

Lemma letters_app ls l : letters (ls ++ [l]) = letters ls ++ lead_mapping l.
Proof. unfold letters. rewrite flat_map_app. simpl. now rewrite app_nil_r. Qed.

Lemma disjoint_snoc ls l :
  disjoint ls ->
  (forall c, In c (lead_mapping l) -> ~ In c (letters ls)) ->
  disjoint (ls ++ [l]).
Proof.
  induction ls as [|h ls IH]; simpl; intros Hd Hl.
  - split; [intros ? ? _ []|exact I].
  - destruct Hd as [Hh Hd]. split.
    + intros c l' Hc Hl'. apply in_app_or in Hl' as [Hl'|[<-|[]]].
      * now apply Hh.
      * intros Hcl. apply (Hl c Hcl). unfold letters; simpl.
        apply in_or_app. now left.
    + apply IH; [exact Hd|]. intros c Hc Hin. apply (Hl c Hc).
      unfold letters; simpl. apply in_or_app. now right.
Qed.

Lemma find_lead_In c leads l : find_lead c leads = Some l -> In l leads /\ In c (lead_mapping l).
Proof.
  induction leads as [|h ls IH]; simpl; [discriminate|].
  destruct (set_mem ascii_dec c (get_mapping h)) eqn:E.
  - intros [= <-]. split; [now left|now apply set_mem_In].
  - intros H. destruct (IH H). split; [now right|assumption].
Qed.

Lemma find_lead_None c leads : find_lead c leads = None -> ~ In c (letters leads).
Proof.
  induction leads as [|h ls IH]; simpl; [tauto|].
  destruct (set_mem ascii_dec c (get_mapping h)) eqn:E; [discriminate|].
  intros H Hin. unfold letters in Hin; simpl in Hin.
  apply in_app_or in Hin as [Hin|Hin].
  - apply set_mem_not_In in E. contradiction.
  - now apply IH.
Qed.

(** With disjoint leads, the partner of a letter is held by the same
    first lead. *)
Lemma find_lead_partner leads x y l :
  disjoint leads -> find_lead x leads = Some l -> In y (lead_mapping l) ->
  find_lead y leads = Some l.
Proof.
  induction leads as [|h ls IH]; simpl; [discriminate|].
  intros [Hh Hd].
  destruct (set_mem ascii_dec x (get_mapping h)) eqn:Ex.
  - intros [= <-] Hy. apply set_mem_In in Hy. unfold get_mapping. now rewrite Hy.
  - intros Hf Hy. destruct (find_lead_In _ _ _ Hf) as [Hl _].
    destruct (set_mem ascii_dec y (get_mapping h)) eqn:Ey.
    + apply set_mem_In in Ey. exfalso. exact (Hh y l Ey Hl Hy).
    + now apply IH.
Qed.

Lemma find_lead_not_In c leads :
  ~ In c (letters leads) -> find_lead c leads = None.
Proof.
  intros H. destruct (find_lead c leads) as [l|] eqn:E; [|reflexivity].
  apply find_lead_In in E as [Hl Hc]. exfalso. apply H.
  apply letters_In. eauto.
Qed.

End LeadFacts.

(** ** Plugboard *)

Module PlugboardFacts.

Import PlugLead Leads LeadFacts.

(** What the calls of [add] keep true of a board. *)
Record pb_inv (pb : Plugboard.t) : Prop := {
  pb_inv_valid : Forall valid (Plugboard.plug_leads pb);
  pb_inv_in_use : Plugboard.plugs_in_use pb = letters (Plugboard.plug_leads pb);
  pb_inv_disjoint : disjoint (Plugboard.plug_leads pb)
}.

Lemma any_in_use_false in_use l :
  Plugboard.any_in_use in_use l = false <->
  (forall c, In c (lead_mapping l) -> ~ In c in_use).
Proof.
  unfold Plugboard.any_in_use, get_mapping. split.
  - intros H c Hc Hin.
    assert (E : existsb (fun plug => char_in plug in_use) (lead_mapping l) = true).
    { apply existsb_exists. exists c. split; [assumption|now apply char_in_In]. }
    congruence.
  - intros H. destruct (existsb _ _) eqn:E; [|reflexivity].
    apply existsb_exists in E as [c [Hc Hin]]. apply char_in_In in Hin.
    now elim (H c Hc).
Qed.

Lemma pb_inv_append pb l :
  pb_inv pb -> valid l ->
  (forall c, In c (lead_mapping l) -> ~ In c (Plugboard.plugs_in_use pb)) ->
  pb_inv (Plugboard.append pb l).
Proof.
  intros [Hv Hu Hd] Hl Hfree. split; simpl.
  - apply Forall_app. split; [assumption|now constructor].
  - rewrite letters_app. unfold get_mapping. now rewrite Hu.
  - apply disjoint_snoc; [assumption|]. now rewrite <- Hu.
Qed.

Lemma pb_inv_add pb l : pb_inv pb -> valid l -> pb_inv (fst (Plugboard.add pb l)).
Proof.
  intros Hinv Hl. unfold Plugboard.add, Plugboard.plugs_connected.
  destruct (Z.of_nat (List.length (Plugboard.plug_leads pb)) =? 0) eqn:E0; simpl.
  - apply pb_inv_append; trivial.
    apply Z.eqb_eq in E0.
    destruct (Plugboard.plug_leads pb) eqn:El; [|simpl in E0; lia].
    rewrite (pb_inv_in_use _ Hinv), El. simpl. tauto.
  - destruct (_ <? 10); [|assumption].
    destruct (Plugboard.any_in_use _ l) eqn:Eany; simpl; [assumption|].
    apply pb_inv_append; trivial. now apply any_in_use_false.
Qed.

Lemma reachable_pb_inv pb : plugboard_reachable pb -> pb_inv pb.
Proof.
  induction 1 as [|pb mapping _ IH].
  - split; simpl; [constructor|reflexivity|exact I].
  - apply pb_inv_add; [assumption|apply new_valid].
Qed.

Lemma plug_encode_find leads c :
  Plugboard.encode_leads leads c =
  match find_lead c leads with
  | Some l => PlugLead.encode l c
  | None => Ok c
  end.
Proof.
  induction leads as [|h ls IH]; simpl; [reflexivity|].
  destruct (set_mem ascii_dec c (get_mapping h)); [reflexivity|exact IH].
Qed.

(** The plugboard is its own inverse wherever it answers. *)
Lemma plug_encode_involutive pb x y :
  pb_inv pb -> Plugboard.encode pb x = Ok y -> Plugboard.encode pb y = Ok x.
Proof.
  intros [Hv _ Hd]. unfold Plugboard.encode. rewrite !plug_encode_find.
  destruct (find_lead x (Plugboard.plug_leads pb)) as [l|] eqn:Ex.
  - intros He. destruct (find_lead_In _ _ _ Ex) as [Hl Hx].
    assert (Hvl : valid l) by (rewrite Forall_forall in Hv; auto).
    destruct (encode_spec l x y Hvl He) as [[Hnx _]|(_ & Hy & _ & Hback)];
      [contradiction|].
    now rewrite (find_lead_partner _ x y l Hd Ex Hy).
  - intros [= <-]. now rewrite Ex.
Qed.

Lemma plug_stored_in_use pb c :
  pb_inv pb -> (plug_stored pb c <-> In c (Plugboard.plugs_in_use pb)).
Proof.
  intros Hinv. rewrite (pb_inv_in_use _ Hinv), letters_In. reflexivity.
Qed.

End PlugboardFacts.

(** C6 as the specification words it does not hold: with one lead stored,
    adding a lead that reuses one of its letters returns normally and leaves
    the board as it was; no exception is raised. *)
Lemma plugboard_add_conflict_is_silent :
  let pb := fst (Plugboard.add Plugboard.new (PlugLead.new "AB")) in
  plugboard_reachable pb /\
  plug_stored pb "A"%char /\
  In "A"%char (PlugLead.lead_mapping (PlugLead.new "AC")) /\
  Plugboard.plugs_connected pb < 10 /\
  Plugboard.add pb (PlugLead.new "AC") = (pb, Ok tt).
Proof.
  simpl. repeat split.
  - apply (pb_reach_add Plugboard.new "AB"). constructor.
  - eexists. split; [left; reflexivity|]. vm_compute. auto.
  - vm_compute. auto.
Qed.

(** C6, amended: [add] stores the lead exactly when fewer than 10 leads are
    stored and none of its letters appears in a stored lead; it raises
    [NoPlugsAvailableException] exactly when 10 leads or more are stored; and
    when fewer than 10 are stored and a letter is in use it returns normally
    with the board unchanged. *)
Theorem plugboard_add_semantics (pb : Plugboard.t) (lead : PlugLead.t)
    (Hpb : plugboard_reachable pb) :
  let free := forall c, In c (PlugLead.lead_mapping lead) -> ~ plug_stored pb c in
  let room := Plugboard.plugs_connected pb < 10 in
  (fst (Plugboard.add pb lead) = Plugboard.append pb lead <-> room /\ free) /\
  (snd (Plugboard.add pb lead) = Raise NoPlugsAvailableException <-> ~ room) /\
  (room -> ~ free -> Plugboard.add pb lead = (pb, Ok tt)) /\
  (~ room -> fst (Plugboard.add pb lead) = pb).
Proof.
  intros free room. subst free room.
  pose proof (PlugboardFacts.reachable_pb_inv pb Hpb) as Hinv.
  assert (Hfree : Plugboard.any_in_use (Plugboard.plugs_in_use pb) lead = false <->
                  (forall c, In c (PlugLead.lead_mapping lead) -> ~ plug_stored pb c)).
  { rewrite PlugboardFacts.any_in_use_false. split; intros H c Hc.
    - rewrite (PlugboardFacts.plug_stored_in_use pb c Hinv). auto.
    - rewrite <- (PlugboardFacts.plug_stored_in_use pb c Hinv). auto. }
  assert (Hneq : Plugboard.append pb lead <> pb).
  { intros E. apply (f_equal (fun b => List.length (Plugboard.plug_leads b))) in E.
    simpl in E. rewrite length_app in E. simpl in E. lia. }
  assert (Hempty : Plugboard.plugs_connected pb = 0 ->
                   Plugboard.any_in_use (Plugboard.plugs_in_use pb) lead = false).
  { intros E0. apply PlugboardFacts.any_in_use_false. intros c _.
    rewrite (PlugboardFacts.pb_inv_in_use _ Hinv).
    unfold Plugboard.plugs_connected in E0.
    destruct (Plugboard.plug_leads pb); [simpl; tauto|simpl in E0; lia]. }
  unfold Plugboard.add.
  destruct (Plugboard.plugs_connected pb =? 0) eqn:E0.
  - apply Z.eqb_eq in E0. specialize (Hempty E0). simpl.
    pose proof (proj1 Hfree Hempty) as Hf.
    repeat split; intros; try lia; try tauto; try discriminate; eauto.
  - destruct (Plugboard.plugs_connected pb <? 10) eqn:E10.
    + apply Z.ltb_lt in E10.
      destruct (Plugboard.any_in_use _ lead) eqn:Eany; simpl.
      * assert (Hn : ~ (forall c, In c (PlugLead.lead_mapping lead) -> ~ plug_stored pb c))
          by (intros Hf; apply (proj2 Hfree) in Hf; discriminate).
        repeat split; intros; try lia; try tauto; try discriminate; try congruence; eauto.
      * pose proof (proj1 Hfree eq_refl) as Hf.
        repeat split; intros; try lia; try tauto; try discriminate; eauto.
    + apply Z.ltb_ge in E10. simpl.
      repeat split; intros; try lia; try tauto; try congruence; eauto.
Qed.

Lemma plugboard_add_semantics_witness :
  let pb := fst (Plugboard.add Plugboard.new (PlugLead.new "AB")) in
  plugboard_reachable pb /\
  (Plugboard.plugs_connected pb < 10 ->
   ~ (forall c, In c (PlugLead.lead_mapping (PlugLead.new "AC")) -> ~ plug_stored pb c) ->
   Plugboard.add pb (PlugLead.new "AC") = (pb, Ok tt)).
Proof.
  assert (H : plugboard_reachable (fst (Plugboard.add Plugboard.new (PlugLead.new "AB"))))
    by (apply (pb_reach_add Plugboard.new "AB"); constructor).
  split; [exact H|].
  exact (proj1 (proj2 (proj2 (plugboard_add_semantics _ (PlugLead.new "AC") H)))).
Defined.

(** ** Malformed leads *)

(** A lead string of the wrong length, or with a character that is not a
    letter, gives the empty lead, which encodes every character as itself. *)
Lemma plug_lead_malformed_noop (mapping : string) :
  (String.length mapping <> 2%nat \/
   exists c, In c (list_ascii_of_string mapping) /\ isalpha c = false) ->
  PlugLead.lead_mapping (PlugLead.new mapping) = [] /\
  forall c, PlugLead.encode (PlugLead.new mapping) c = Ok c.
Proof.
  intros H.
  assert (E : PlugLead.lead_mapping (PlugLead.new mapping) = []).
  { unfold PlugLead.new.
    destruct mapping as [|a [|b [|c m]]]; simpl in *; try reflexivity.
    destruct H as [H|[c [[<-|[<-|[]]] Hc]]]; [congruence| |].
    - now rewrite Hc.
    - rewrite Hc. now rewrite andb_false_r. }
  split; [exact E|]. intros c. unfold PlugLead.encode. now rewrite E.
Qed.

(** C8 on the code: a lead string that repeats one letter is kept as a lead
    of that single letter, and encoding the letter through it raises
    [KeyError] instead of returning the letter. *)
Theorem plug_lead_identical_letters_raise (a : ascii) (Ha : isalpha a = true) :
  let lead := PlugLead.new (String a (String a EmptyString)) in
  PlugLead.lead_mapping lead = [upper a] /\
  PlugLead.encode lead (upper a) = Raise KeyError.
Proof.
  unfold PlugLead.new, PlugLead.encode. simpl. rewrite Ha. simpl.
  destruct (ascii_dec (upper a) (upper a)) as [_|N]; [|congruence]. simpl.
  destruct (ascii_dec (upper a) (upper a)) as [_|N]; [|congruence]. simpl.
  destruct (ascii_dec (upper a) (upper a)) as [_|N]; [|congruence]. simpl.
  split; reflexivity.
Qed.

Lemma plug_lead_identical_letters_raise_witness :
  PlugLead.lead_mapping (PlugLead.new "AA") = ["A"%char] /\
  PlugLead.encode (PlugLead.new "AA") "A"%char = Raise KeyError.
Proof.
  exact (plug_lead_identical_letters_raise "A"%char eq_refl).
Defined.

(** ** Rotor *)

Module RotorFacts.

Import Rotor.

Lemma dict_getitem_In {V} (d : list (string * V)) k v :
  dict_getitem d k = Ok v -> In (k, v) d.
Proof.
  induction d as [|[k' v'] d IH]; simpl; [discriminate|].
  destruct (String.eqb k k') eqn:E.
  - intros [= <-]. apply String.eqb_eq in E. subst. now left.
  - intros H. right. now apply IH.
Qed.

Lemma alphabet_is_wiring : is_wiring alphabet.
Proof. unfold is_wiring. reflexivity. Qed.

(** Every catalog rotor has a wiring that is a rearrangement of the
    alphabet, and the catalog notches lie in 1..26. *)
Lemma catalog_rotor k n :
  dict_getitem RotorData.notch k = Ok n ->
  (exists w, dict_getitem RotorData.sequence k = Ok w /\ is_wiring w) /\
  match n with NInt z => 1 <= z <= 26 | NFalse => True end.
Proof.
  intros H. apply dict_getitem_In in H. simpl in H.
  repeat (destruct H as [H|H];
          [injection H as <- <-; split; [|simpl; try lia; exact I];
           eexists; split; [reflexivity|];
           apply is_wiring_check; vm_compute; reflexivity|]).
  destruct H.
Qed.

Lemma alpha_sequence : dict_getitem RotorData.sequence "alpha" = Ok alphabet.
Proof. reflexivity. Qed.

Lemma same_config_refl a : same_config a a.
Proof. repeat split. Qed.

Lemma same_config_trans a b c : same_config a b -> same_config b c -> same_config a c.
Proof. unfold same_config. intuition congruence. Qed.

Lemma rotate_config self n : same_config self (rotate self n).
Proof. repeat split. Qed.

Lemma set_rotor_offset_config self d : same_config self (set_rotor_offset self d).
Proof. repeat split. Qed.

Lemma adjust_notch_config self : same_config self (adjust_notch_position self).
Proof. unfold adjust_notch_position. destruct (notch self); repeat split. Qed.

Lemma rotate_wf self n : rotor_wf self -> rotor_wf (rotate self n).
Proof. intros [Hl Hw]. split; simpl; now apply is_wiring_rotate. Qed.

Lemma set_rotor_offset_wf self d : rotor_wf self -> rotor_wf (set_rotor_offset self d).
Proof. intros H. exact H. Qed.

Lemma adjust_notch_wf self : rotor_wf self -> rotor_wf (adjust_notch_position self).
Proof. intros H. unfold adjust_notch_position. destruct (notch self); exact H. Qed.

Lemma iter_invariant {A} (P : A -> Prop) (f : A -> A) n a :
  (forall x, P x -> P (f x)) -> P a -> P (Nat.iter n f a).
Proof. intros Hf Ha. induction n; simpl; auto. Qed.

Lemma initial_position_wf self p self' :
  rotor_wf self -> set_rotor_to_initial_position self p = Ok self' -> rotor_wf self'.
Proof.
  unfold set_rotor_to_initial_position. intros Hwf.
  destruct (index p (label self)); simpl; [|discriminate]. intros [= <-].
  apply (iter_invariant rotor_wf); [|assumption].
  intros x Hx. apply set_rotor_offset_wf, rotate_wf, Hx.
Qed.

Lemma initial_position_config self p self' :
  set_rotor_to_initial_position self p = Ok self' -> same_config self self'.
Proof.
  unfold set_rotor_to_initial_position.
  destruct (index p (label self)); simpl; [|discriminate]. intros [= <-].
  apply (iter_invariant (same_config self)); [|apply same_config_refl].
  intros x Hx. eapply same_config_trans; [exact Hx|]. repeat split.
Qed.

Lemma ring_setting_step_wf self : rotor_wf self -> rotor_wf (ring_setting_step self).
Proof.
  intros H. apply adjust_notch_wf, set_rotor_offset_wf, rotate_wf, H.
Qed.

Lemma ring_setting_step_config self : same_config self (ring_setting_step self).
Proof.
  unfold ring_setting_step.
  eapply same_config_trans; [|apply adjust_notch_config]. repeat split.
Qed.

Lemma ring_setting_wf self r : rotor_wf self -> rotor_wf (set_rotor_ring_setting self r).
Proof.
  intros H. apply (iter_invariant rotor_wf); [apply ring_setting_step_wf|exact H].
Qed.

Lemma ring_setting_config self r : same_config self (set_rotor_ring_setting self r).
Proof.
  apply (iter_invariant (same_config self)); [|apply same_config_refl].
  intros x Hx. eapply same_config_trans; [exact Hx|apply ring_setting_step_config].
Qed.

(** The constructor records its three arguments and leaves a well-formed
    rotor. *)
Lemma new_spec ty p r self :
  new ty p r = Ok self ->
  rotor_wf self /\ rotor_type self = ty /\ initial_position self = p /\ ring_setting self = r.
Proof.
  unfold new.
  destruct (dict_getitem RotorData.notch (str_lower ty)) as [n|] eqn:En;
    cbn [res_bind]; [|discriminate].
  destruct (catalog_rotor _ _ En) as [[w [Ew Hw]] _]. rewrite Ew, alpha_sequence.
  cbn [res_bind].
  destruct (set_rotor_to_initial_position _ p) as [s1|] eqn:E1;
    cbn [res_bind]; [|discriminate].
  intros [= <-].
  assert (Hwf0 : rotor_wf (mk n ty 1 w alphabet p r))
    by (split; [apply alphabet_is_wiring|exact Hw]).
  pose proof (initial_position_wf _ _ _ Hwf0 E1) as Hwf1.
  pose proof (initial_position_config _ _ _ E1) as Hc1.
  pose proof (ring_setting_config s1 r) as Hc2.
  split; [now apply ring_setting_wf|].
  destruct Hc1 as (? & ? & ?), Hc2 as (? & ? & ?). simpl in *.
  repeat split; congruence.
Qed.

Lemma new_fresh ty p r self : new ty p r = Ok self -> rotor_fresh self.
Proof.
  intros H. unfold rotor_fresh.
  destruct (new_spec _ _ _ _ H) as (_ & -> & -> & ->). exact H.
Qed.

(** [reset_deque] runs the constructor again on the recorded arguments. *)
Lemma reset_deque_new self self' :
  new (rotor_type self) (initial_position self) (ring_setting self) = Ok self' ->
  reset_deque self = (self', Ok tt).
Proof.
  unfold new, reset_deque, m_bind, m_read, m_modify, m_lift.
  destruct self as [n ty o w l p r];
    cbn [rotor_type initial_position ring_setting].
  destruct (dict_getitem RotorData.notch (str_lower ty)) as [n'|];
    cbn [res_bind]; [|discriminate].
  unfold with_notch, with_rotor_offset, with_rotor_wiring, with_label;
    cbn [rotor_type initial_position ring_setting notch rotor_offset rotor_wiring label].
  destruct (dict_getitem RotorData.sequence (str_lower ty)) as [w'|];
    cbn [res_bind]; [|discriminate].
  rewrite alpha_sequence.
  cbn [res_bind rotor_type initial_position ring_setting notch rotor_offset rotor_wiring label].
  destruct (set_rotor_to_initial_position _ p) as [s1|] eqn:E1;
    cbn [res_bind]; [|discriminate].
  intros [= <-].
  destruct (initial_position_config _ _ _ E1) as (_ & _ & E). simpl in E.
  now rewrite <- E.
Qed.

End RotorFacts.

Module RotorReach.

Import Rotor RotorFacts.

(** A rotor that can be reset: its recorded arguments are accepted by the
    constructor. *)
Lemma reachable_inv self :
  rotor_reachable self ->
  rotor_wf self /\
  exists s0, new (rotor_type self) (initial_position self) (ring_setting self) = Ok s0.
Proof.
  assert (Hkeep : forall a b, same_config a b ->
            (exists s0, new (rotor_type a) (initial_position a) (ring_setting a) = Ok s0) ->
            exists s0, new (rotor_type b) (initial_position b) (ring_setting b) = Ok s0).
  { intros a b (E1 & E2 & E3). now rewrite E1, E2, E3. }
  induction 1 as [ty p r self Hnew|self d _ [Hwf Hc]|self d _ [Hwf Hc]|self _ [Hwf Hc]
                  |self p self' _ [Hwf Hc] Hset|self r _ [Hwf Hc]|self _ [Hwf Hc]].
  - split; [apply (new_spec _ _ _ _ Hnew)|]. exists self. now apply new_fresh in Hnew.
  - split; [now apply rotate_wf|]. apply (Hkeep self); [apply rotate_config|exact Hc].
  - split; [exact Hwf|]. apply (Hkeep self); [apply set_rotor_offset_config|exact Hc].
  - split; [now apply adjust_notch_wf|].
    apply (Hkeep self); [apply adjust_notch_config|exact Hc].
  - split; [eapply initial_position_wf; eauto|].
    apply (Hkeep self); [eapply initial_position_config; eauto|exact Hc].
  - split; [now apply ring_setting_wf|].
    apply (Hkeep self); [apply ring_setting_config|exact Hc].
  - destruct Hc as [s0 Hs0]. rewrite (reset_deque_new _ _ Hs0). simpl.
    split; [apply (new_spec _ _ _ _ Hs0)|]. exists s0. now apply new_fresh in Hs0.
Qed.

(** Through a well-formed rotor the two passes undo each other. *)
Lemma wf_right_then_left self c :
  rotor_wf self -> In c alphabet ->
  exists m, encode_right_to_left self c = Ok m /\ encode_left_to_right self m = Ok c.
Proof.
  intros [Hl Hw] Hc. unfold encode_right_to_left, encode_left_to_right.
  destruct (index_In c (label self)) as [i Hi]; [now apply (is_wiring_In _ _ Hl)|].
  rewrite Hi. cbn [res_bind].
  pose proof (index_bounds _ _ _ Hi) as Hb. rewrite (is_wiring_length _ Hl) in Hb.
  destruct (getitem_defined (rotor_wiring self) i) as [m Hm];
    [now rewrite (is_wiring_length _ Hw)|].
  exists m. split; [exact Hm|].
  rewrite (getitem_index m _ i (is_wiring_NoDup _ Hw)); [|lia|exact Hm].
  cbn [res_bind]. now apply index_getitem.
Qed.

Lemma wf_left_then_right self c :
  rotor_wf self -> In c alphabet ->
  exists m, encode_left_to_right self c = Ok m /\ encode_right_to_left self m = Ok c.
Proof.
  intros [Hl Hw] Hc. unfold encode_right_to_left, encode_left_to_right.
  destruct (index_In c (rotor_wiring self)) as [i Hi]; [now apply (is_wiring_In _ _ Hw)|].
  rewrite Hi. cbn [res_bind].
  pose proof (index_bounds _ _ _ Hi) as Hb. rewrite (is_wiring_length _ Hw) in Hb.
  destruct (getitem_defined (label self) i) as [m Hm];
    [now rewrite (is_wiring_length _ Hl)|].
  exists m. split; [exact Hm|].
  rewrite (getitem_index m _ i (is_wiring_NoDup _ Hl)); [|lia|exact Hm].
  cbn [res_bind]. now apply index_getitem.
Qed.

End RotorReach.

(** C10: at any state a rotor can reach, and for every letter of the
    alphabet, the right-to-left pass followed by the left-to-right pass gives
    the letter back, and so does the left-to-right pass followed by the
    right-to-left pass; both passes return normally. *)
Theorem rotor_passes_are_inverse (self : Rotor.t) (c : ascii)
    (Hreach : rotor_reachable self) (Hc : In c alphabet) :
  (exists m, Rotor.encode_right_to_left self c = Ok m /\
             Rotor.encode_left_to_right self m = Ok c) /\
  (exists m, Rotor.encode_left_to_right self c = Ok m /\
             Rotor.encode_right_to_left self m = Ok c).
Proof.
  destruct (RotorReach.reachable_inv self Hreach) as [Hwf _].
  split;
    [now apply RotorReach.wf_right_then_left|now apply RotorReach.wf_left_then_right].
Qed.

Lemma rotor_passes_are_inverse_witness :
  exists self,
    Rotor.new "III" "V"%char 15 = Ok self /\
    (exists m, Rotor.encode_right_to_left (Rotor.rotate_rotor self (-1)) "Q"%char = Ok m /\
               Rotor.encode_left_to_right (Rotor.rotate_rotor self (-1)) m = Ok "Q"%char).
Proof.
  destruct (Rotor.new "III" "V"%char 15) as [self|e] eqn:E; [|vm_compute in E; discriminate].
  exists self. split; [reflexivity|].
  refine (proj1 (rotor_passes_are_inverse (Rotor.rotate_rotor self (-1)) "Q"%char _ _)).
  - apply rot_reach_rotate. exact (rot_reach_new _ _ _ _ E).
  - apply char_in_In. reflexivity.
Defined.

(** ** Ring setting *)

Module RingFacts.

Import Rotor RotorFacts.

Lemma deque_rotate_one {A} (l : list A) : deque_rotate 1 l = rotate_right1 l.
Proof. reflexivity. Qed.

Lemma ring_setting_step_wiring self :
  rotor_wiring (ring_setting_step self) = rotate_right1 (rotor_wiring self) /\
  label (ring_setting_step self) = rotate_right1 (label self).
Proof.
  unfold ring_setting_step, adjust_notch_position.
  destruct (notch (set_rotor_offset (rotate self 1) (-1))); split; reflexivity.
Qed.

Lemma ring_setting_step_notch self :
  notch (ring_setting_step self) =
  match notch self with
  | NInt n => NInt (if n - 1 <? 1 then 26 else n - 1)
  | NFalse => NFalse
  end.
Proof.
  unfold ring_setting_step, adjust_notch_position. cbn [set_rotor_offset rotate].
  unfold set_rotor_offset, rotate, with_rotor_offset, with_label, with_rotor_wiring.
  cbn [notch]. destruct self as [n ty o w l p r]. cbn [notch].
  destruct n; reflexivity.
Qed.

Lemma ring_steps_wiring k self :
  rotor_wiring (Nat.iter k ring_setting_step self) = Nat.iter k rotate_right1 (rotor_wiring self) /\
  label (Nat.iter k ring_setting_step self) = Nat.iter k rotate_right1 (label self).
Proof.
  induction k as [|k [IHw IHl]]; [split; reflexivity|].
  rewrite !Nat.iter_succ.
  destruct (ring_setting_step_wiring (Nat.iter k ring_setting_step self)) as [-> ->].
  now rewrite IHw, IHl.
Qed.

Lemma wrap_step q :
  0 <= q < 26 -> (if q + 1 - 1 <? 1 then 26 else q + 1 - 1) = (q - 1) mod 26 + 1.
Proof.
  intros Hq. destruct (q + 1 - 1 <? 1) eqn:E.
  - assert (q = 0) by lia. subst. reflexivity.
  - rewrite Z.mod_small by lia. lia.
Qed.

Lemma ring_steps_notch k self n :
  notch self = NInt n -> 1 <= n <= 26 ->
  notch (Nat.iter k ring_setting_step self) = NInt ((n - 1 - Z.of_nat k) mod 26 + 1).
Proof.
  intros Hn Hb. induction k as [|k IH].
  - cbn. rewrite Hn. f_equal. rewrite Z.mod_small by lia. lia.
  - rewrite Nat.iter_succ, ring_setting_step_notch, IH. f_equal.
    rewrite wrap_step by (apply Z.mod_pos_bound; lia).
    rewrite Zminus_mod_idemp_l. f_equal. f_equal. lia.
Qed.

Lemma ring_steps_no_notch k self :
  notch self = NFalse -> notch (Nat.iter k ring_setting_step self) = NFalse.
Proof.
  intros Hn. induction k as [|k IH]; [exact Hn|].
  now rewrite Nat.iter_succ, ring_setting_step_notch, IH.
Qed.

Lemma initial_position_notch self p self' :
  set_rotor_to_initial_position self p = Ok self' -> notch self' = notch self.
Proof.
  unfold set_rotor_to_initial_position.
  destruct (index p (label self)); cbn [res_bind]; [|discriminate]. intros [= <-].
  apply (iter_invariant (fun s => notch s = notch self)); [|reflexivity].
  intros x Hx. exact Hx.
Qed.

End RingFacts.

Lemma ring_rotations_hold (ty : string) (p : ascii) (r : Z) (self : Rotor.t)
    (Hr : 1 <= r <= 26) (Hnew : Rotor.new ty p r = Ok self) :
  ring_rotations ty p r self.
Proof.
  unfold ring_rotations.
  revert Hnew. unfold Rotor.new.
  destruct (dict_getitem RotorData.notch (str_lower ty)) as [n0|] eqn:En;
    cbn [res_bind]; [|discriminate].
  destruct (RotorFacts.catalog_rotor _ _ En) as [[w0 [Ew Hw]] Hn0].
  rewrite Ew, RotorFacts.alpha_sequence. cbn [res_bind].
  destruct (Rotor.set_rotor_to_initial_position _ p) as [base|] eqn:Eb;
    cbn [res_bind]; [|discriminate].
  intros [= <-]. exists n0, w0, base.
  pose proof (RingFacts.initial_position_notch _ _ _ Eb) as Hnb. cbn [Rotor.notch] in Hnb.
  unfold Rotor.set_rotor_ring_setting.
  destruct (RingFacts.ring_steps_wiring (Z.to_nat (r - 1)) base) as [Ew' El'].
  repeat split; trivial.
  - apply RingFacts.ring_setting_step_wiring.
  - apply RingFacts.ring_setting_step_wiring.
  - rewrite RingFacts.ring_setting_step_notch. destruct (Rotor.notch s) as [n|]; [|reflexivity].
    f_equal. destruct (n - 1 <? 1) eqn:E1, (n <=? 1) eqn:E2; lia.
  - rewrite Ew'. now rewrite deque_rotate_right by lia.
  - rewrite El'. now rewrite deque_rotate_right by lia.
  - destruct n0 as [n|].
    + rewrite (RingFacts.ring_steps_notch _ base n Hnb Hn0). f_equal. f_equal. f_equal. lia.
    + now apply RingFacts.ring_steps_no_notch.
Qed.

(** ** Reflector *)

Lemma reflector_swaps_sound ty x :
  reflector_swaps ty x = true ->
  exists rf i y j,
    Reflector.new ty None = Ok rf /\
    Reflector.encode rf x = Ok (Reflector.CInt i) /\
    getitem alphabet i = Ok y /\
    y <> x /\
    Reflector.encode rf y = Ok (Reflector.CInt j) /\
    getitem alphabet j = Ok x.
Proof.
  unfold reflector_swaps.
  destruct (Reflector.new ty None) as [rf|] eqn:E1; [|discriminate].
  destruct (Reflector.encode rf x) as [[i|]|] eqn:E2; try discriminate.
  destruct (getitem alphabet i) as [y|] eqn:E3; [|discriminate].
  destruct (Ascii.eqb y x) eqn:Eyx; [discriminate|]. cbn [negb andb].
  destruct (Reflector.encode rf y) as [[j|]|] eqn:E4; try discriminate.
  destruct (getitem alphabet j) as [x'|] eqn:E5; [|discriminate].
  intros E. apply Ascii.eqb_eq in E. subst x'.
  exists rf, i, y, j. repeat split; trivial.
  intros ->. now rewrite Ascii.eqb_refl in Eyx.
Qed.

Lemma reflector_swaps_catalog :
  forallb (fun ty => forallb (reflector_swaps ty) alphabet)
    ["A"; "B"; "C"; "a"; "b"; "c"] = true.
Proof. vm_compute. reflexivity. Qed.

(** C2: for each catalog reflector (A, B or C) and each letter [x], encoding
    [x] gives the index of a letter [y] other than [x], and encoding [y]
    gives the index of [x]. *)
Theorem reflector_involution (ty : string) (x : ascii)
    (Hty : In ty ["A"; "B"; "C"; "a"; "b"; "c"]) (Hx : In x alphabet) :
  exists rf i y j,
    Reflector.new ty None = Ok rf /\
    Reflector.encode rf x = Ok (Reflector.CInt i) /\
    getitem alphabet i = Ok y /\
    y <> x /\
    Reflector.encode rf y = Ok (Reflector.CInt j) /\
    getitem alphabet j = Ok x.
Proof.
  apply reflector_swaps_sound.
  pose proof reflector_swaps_catalog as H.
  rewrite forallb_forall in H. specialize (H ty Hty).
  rewrite forallb_forall in H. exact (H x Hx).
Qed.

Lemma reflector_involution_witness :
  exists rf i y j,
    Reflector.new "B" None = Ok rf /\
    Reflector.encode rf "A"%char = Ok (Reflector.CInt i) /\
    getitem alphabet i = Ok y /\
    y <> "A"%char /\
    Reflector.encode rf y = Ok (Reflector.CInt j) /\
    getitem alphabet j = Ok "A"%char.
Proof.
  apply (reflector_involution "B" "A"%char).
  - simpl. tauto.
  - simpl. tauto.
Defined.

(** Every constructed reflector, from the catalog or from a given wiring,
    has disjoint wires over the alphabet. *)
Module ReflectorFacts.

Import PlugLead Leads LeadFacts.

Lemma rf_inv_add rf l : reflector_inv rf -> valid l -> reflector_inv (Reflector.add rf l).
Proof.
  intros [Hv Hc Hd Hl] Hvl. unfold Reflector.add.
  assert (Happ : (forall c, In c (lead_mapping l) -> ~ In c (Reflector.connected_wires rf)) ->
                 reflector_inv (Reflector.append rf l)).
  { intros Hfree. split; simpl.
    - apply Forall_app. split; [assumption|now constructor].
    - rewrite letters_app. unfold get_mapping. now rewrite Hc.
    - apply disjoint_snoc; [assumption|]. now rewrite <- Hc.
    - assumption. }
  destruct (Z.of_nat (List.length (Reflector.wiring rf)) =? 0) eqn:E0.
  - apply Happ. apply Z.eqb_eq in E0.
    destruct (Reflector.wiring rf) eqn:Ew; [|simpl in E0; lia].
    rewrite Hc. simpl. tauto.
  - destruct (existsb _ _) eqn:Eany; simpl; [now split|].
    apply Happ. intros c Hc' Hin.
    assert (E : existsb (fun plug => char_in plug (Reflector.connected_wires rf))
                        (get_mapping l) = true); [|congruence].
    apply existsb_exists. exists c. split; [exact Hc'|now apply char_in_In].
Qed.

Lemma rf_inv_wire rf wiring : reflector_inv rf -> reflector_inv (Reflector.wire_reflector rf wiring).
Proof.
  unfold Reflector.wire_reflector. revert rf.
  induction wiring as [|w ws IH]; intros rf Hinv; simpl; [exact Hinv|].
  apply IH. apply rf_inv_add; [exact Hinv|apply new_valid].
Qed.

Lemma rf_inv_new ty w rf : Reflector.new ty w = Ok rf -> reflector_inv rf.
Proof.
  unfold Reflector.new.
  destruct (dict_getitem RotorData.sequence (str_lower ty)) as [s|];
    cbn [res_bind]; [|discriminate].
  rewrite RotorFacts.alpha_sequence. cbn [res_bind].
  assert (H0 : reflector_inv (Reflector.mk s alphabet ty [] [])).
  { split; simpl; [constructor|reflexivity|exact I|reflexivity]. }
  destruct w as [w|].
  - intros [= <-]. now apply rf_inv_wire.
  - destruct (Reflector.get_wiring_pairs _) as [w|]; cbn [res_bind]; [|discriminate].
    intros [= <-]. now apply rf_inv_wire.
Qed.

Lemma refl_encode_find lbl leads c :
  Reflector.encode_leads lbl leads c =
  match find_lead c leads with
  | Some l => c' <- PlugLead.encode l c ;; i <- index c' lbl ;; Ok (Reflector.CInt i)
  | None => Ok (Reflector.CStr c)
  end.
Proof.
  induction leads as [|h ls IH]; simpl; [reflexivity|].
  destruct (set_mem ascii_dec c (get_mapping h)); [reflexivity|exact IH].
Qed.

(** A reflector sends a letter to the index of its partner, and the partner
    back to the index of the letter. *)
Lemma refl_encode_involutive rf x ix i :
  reflector_inv rf -> index x alphabet = Ok ix ->
  Reflector.encode rf x = Ok (Reflector.CInt i) ->
  0 <= i /\
  exists y, getitem alphabet i = Ok y /\ Reflector.encode rf y = Ok (Reflector.CInt ix).
Proof.
  intros [Hv _ Hd Hl] Hix. unfold Reflector.encode. rewrite Hl, !refl_encode_find.
  destruct (find_lead x (Reflector.wiring rf)) as [l|] eqn:Ex; [|discriminate].
  destruct (PlugLead.encode l x) as [y|] eqn:Ey; cbn [res_bind]; [|discriminate].
  destruct (index y alphabet) as [iy|] eqn:Eiy; cbn [res_bind]; [|discriminate].
  intros [= <-]. split; [apply index_bounds in Eiy; lia|].
  exists y. split; [now apply index_getitem|].
  destruct (find_lead_In _ _ _ Ex) as [Hlin Hx].
  assert (Hvl : valid l) by (rewrite Forall_forall in Hv; auto).
  destruct (encode_spec l x y Hvl Ey) as [[Hnx _]|(_ & Hy & _ & Hback)]; [contradiction|].
  rewrite refl_encode_find, (find_lead_partner _ x y l Hd Ex Hy), Hback.
  cbn [res_bind]. now rewrite Hix.
Qed.

End ReflectorFacts.

(** ** The drum during a run *)

Module DrumFacts.

Import RotorFacts.

Lemma rotor_kept_refl a : rotor_kept a a.
Proof. split; [apply same_config_refl|auto]. Qed.

Lemma rotor_kept_trans a b c : rotor_kept a b -> rotor_kept b c -> rotor_kept a c.
Proof.
  intros [H1 H2] [H3 H4]. split; [eapply same_config_trans; eauto|auto].
Qed.

Lemma drum_kept_refl d : drum_kept d d.
Proof. induction d; constructor; [apply rotor_kept_refl|assumption]. Qed.

Lemma drum_kept_trans d1 d2 d3 : drum_kept d1 d2 -> drum_kept d2 d3 -> drum_kept d1 d3.
Proof.
  intros H. revert d3. induction H as [|a b d1 d2 Hab _ IH]; intros d3 H'.
  - inversion H'. constructor.
  - inversion H' as [|? c ? d3' Hbc Hrest]; subst. constructor.
    + eapply rotor_kept_trans; eauto.
    + now apply IH.
Qed.

Lemma drum_kept_length d d' : drum_kept d d' -> List.length d' = List.length d.
Proof. intros H. symmetry. eapply Forall2_length; eauto. Qed.

Lemma drum_kept_wf d d' : drum_kept d d' -> Forall rotor_wf d -> Forall rotor_wf d'.
Proof.
  induction 1 as [|a b d d' [_ Hab] _ IH]; intros Hwf; [constructor|].
  inversion Hwf; subst. constructor; auto.
Qed.

Lemma list_set_kept d i r r' :
  nth_error d i = Some r -> rotor_kept r r' -> drum_kept d (list_set d i r').
Proof.
  revert i. induction d as [|a d IH]; intros [|i]; simpl; try discriminate.
  - intros [= ->] H. constructor; [exact H|apply drum_kept_refl].
  - intros Hn H. constructor; [apply rotor_kept_refl|now apply IH].
Qed.

Lemma keeps_ret {A} (a : A) : keeps (m_ret a).
Proof. intros d. apply drum_kept_refl. Qed.

Lemma keeps_lift {A} (r : res A) : keeps (m_lift r).
Proof. intros d. apply drum_kept_refl. Qed.

Lemma keeps_read {A} (f : list Rotor.t -> res A) : keeps (m_read f).
Proof. intros d. apply drum_kept_refl. Qed.

Lemma keeps_bind {A B} (c : M (list Rotor.t) A) (k : A -> M (list Rotor.t) B) :
  keeps c -> (forall a, keeps (k a)) -> keeps (m_bind c k).
Proof.
  intros Hc Hk d. unfold m_bind. specialize (Hc d).
  destruct (c d) as [d' [a|e]]; simpl in *; [|exact Hc].
  eapply drum_kept_trans; [exact Hc|apply Hk].
Qed.

Lemma keeps_drum_get i : keeps (Enigma.drum_get i).
Proof.
  intros d. unfold Enigma.drum_get. destruct (nth_error d i); apply drum_kept_refl.
Qed.

Lemma keeps_drum_call i f :
  (forall r, rotor_kept r (f r)) -> keeps (Enigma.drum_call i f).
Proof.
  intros Hf d. unfold Enigma.drum_call.
  destruct (nth_error d i) as [r|] eqn:E; simpl; [|apply drum_kept_refl].
  eapply list_set_kept; eauto.
Qed.

Lemma rotate_rotor_kept n r : rotor_kept r (Rotor.rotate_rotor r n).
Proof. split; [apply rotate_config|apply rotate_wf]. Qed.

Lemma set_rotor_offset_kept n r : rotor_kept r (Rotor.set_rotor_offset r n).
Proof. split; [apply set_rotor_offset_config|apply set_rotor_offset_wf]. Qed.

Lemma keeps_rotate_and_offset i : keeps (Enigma.rotate_and_offset i).
Proof.
  unfold Enigma.rotate_and_offset.
  apply keeps_bind; [apply keeps_drum_call, rotate_rotor_kept|intros _].
  apply keeps_drum_call, set_rotor_offset_kept.
Qed.

Ltac keeps_tac :=
  repeat first
    [ apply keeps_ret | apply keeps_lift | apply keeps_read | apply keeps_drum_get
    | apply keeps_rotate_and_offset
    | apply keeps_drum_call; first [apply rotate_rotor_kept|apply set_rotor_offset_kept]
    | apply keeps_bind; [|intros ?]
    | match goal with |- keeps (if ?b then _ else _) => destruct b end ].

Lemma keeps_step_rotors wiring flag : keeps (Enigma.step_rotors wiring flag).
Proof. unfold Enigma.step_rotors. keeps_tac. Qed.

Lemma keeps_encode_letters self a_string flag encoded :
  keeps (Enigma.encode_letters self a_string flag encoded).
Proof.
  revert flag encoded. induction a_string as [|c s IH]; intros flag encoded; simpl.
  - apply keeps_ret.
  - apply keeps_bind; [apply keeps_step_rotors|intros flag'].
    apply keeps_bind; [apply keeps_read|intros c'].
    apply keeps_bind; [apply keeps_drum_call, set_rotor_offset_kept|intros _].
    apply IH.
Qed.

(** The two directions through one rotor, as the loops of [forward] and
    [backward] take them. *)
Lemma forward_cons r d c :
  Enigma.forward (r :: d) c =
  (c' <- (w <- getitem (Rotor.rotor_wiring r) c ;; index w (Rotor.label r)) ;;
   Enigma.forward d c').
Proof.
  unfold Enigma.forward. simpl.
  destruct (w <- getitem (Rotor.rotor_wiring r) c;; index w (Rotor.label r)) as [c'|e];
    cbn [res_bind]; [reflexivity|].
  induction d as [|r' d IH]; simpl; [reflexivity|exact IH].
Qed.

Lemma backward_cons r d c :
  Enigma.backward (r :: d) c =
  (c' <- Enigma.backward d c ;;
   w <- getitem (Rotor.label r) c' ;; index w (Rotor.rotor_wiring r)).
Proof.
  unfold Enigma.backward. simpl. rewrite fold_left_app. simpl. reflexivity.
Qed.

Lemma through_rotor r c c' :
  rotor_wf r -> 0 <= c ->
  (w <- getitem (Rotor.rotor_wiring r) c ;; index w (Rotor.label r)) = Ok c' ->
  0 <= c' /\ (w <- getitem (Rotor.label r) c' ;; index w (Rotor.rotor_wiring r)) = Ok c.
Proof.
  intros [Hl Hw] Hc.
  destruct (getitem (Rotor.rotor_wiring r) c) as [w|] eqn:Ew; cbn [res_bind]; [|discriminate].
  intros Hi. split; [apply index_bounds in Hi; lia|].
  rewrite (index_getitem _ _ _ Hi). cbn [res_bind].
  apply getitem_index; [now apply is_wiring_NoDup|assumption|assumption].
Qed.

Lemma back_through_rotor r c c' :
  rotor_wf r -> 0 <= c ->
  (w <- getitem (Rotor.label r) c ;; index w (Rotor.rotor_wiring r)) = Ok c' ->
  0 <= c' /\ (w <- getitem (Rotor.rotor_wiring r) c' ;; index w (Rotor.label r)) = Ok c.
Proof.
  intros [Hl Hw] Hc.
  destruct (getitem (Rotor.label r) c) as [w|] eqn:Ew; cbn [res_bind]; [|discriminate].
  intros Hi. split; [apply index_bounds in Hi; lia|].
  rewrite (index_getitem _ _ _ Hi). cbn [res_bind].
  apply getitem_index; [now apply is_wiring_NoDup|assumption|assumption].
Qed.

Lemma forward_backward d c c' :
  Forall rotor_wf d -> 0 <= c -> Enigma.forward d c = Ok c' ->
  0 <= c' /\ Enigma.backward d c' = Ok c.
Proof.
  intros Hwf. revert c. induction Hwf as [|r d Hr _ IH]; intros c Hc.
  - intros [= <-]. split; [assumption|reflexivity].
  - rewrite forward_cons, backward_cons.
    destruct (w <- getitem (Rotor.rotor_wiring r) c;; index w (Rotor.label r)) as [c1|] eqn:E1;
      cbn [res_bind]; [|discriminate].
    intros Hf. destruct (through_rotor r c c1 Hr Hc E1) as [Hc1 Hb1].
    destruct (IH c1 Hc1 Hf) as [Hc' Hb]. split; [assumption|].
    rewrite Hb. cbn [res_bind]. exact Hb1.
Qed.

Lemma backward_forward d c c' :
  Forall rotor_wf d -> 0 <= c -> Enigma.backward d c = Ok c' ->
  0 <= c' /\ Enigma.forward d c' = Ok c.
Proof.
  intros Hwf. revert c c'. induction Hwf as [|r d Hr _ IH]; intros c c' Hc.
  - intros [= <-]. split; [assumption|reflexivity].
  - rewrite forward_cons, backward_cons.
    destruct (Enigma.backward d c) as [c1|] eqn:E1; cbn [res_bind]; [|discriminate].
    intros Hb. destruct (IH c c1 Hc E1) as [Hc1 Hf1].
    destruct (back_through_rotor r c1 c' Hr Hc1 Hb) as [Hc' Hf]. split; [assumption|].
    rewrite Hf. cbn [res_bind]. exact Hf1.
Qed.

End DrumFacts.

(** ** One letter through the machine *)

Module EngineFacts.

Import RotorFacts DrumFacts.

(** With the rotors standing still, the path of a letter is its own
    inverse. *)
Lemma encode_letter_reciprocal self d pb rf x y :
  Enigma.plugboard self = Some pb -> PlugboardFacts.pb_inv pb ->
  Enigma.reflector self = Some rf -> reflector_inv rf ->
  Enigma.wiring self = alphabet -> Forall rotor_wf d ->
  Enigma.encode_letter self d x = Ok y -> Enigma.encode_letter self d y = Ok x.
Proof.
  intros Hpb Hpbi Hrf Hrfi Hw Hwf.
  unfold Enigma.encode_letter, Enigma.get_plugboard, Enigma.get_reflector.
  rewrite Hpb, Hrf, Hw. cbn [res_bind].
  destruct (Plugboard.encode pb x) as [p|] eqn:Ep; cbn [res_bind]; [|discriminate].
  destruct (index p alphabet) as [c0|] eqn:Ec0; cbn [res_bind]; [|discriminate].
  destruct (Enigma.forward d c0) as [cn|] eqn:Ecn; cbn [res_bind]; [|discriminate].
  destruct (getitem alphabet cn) as [l|] eqn:El; cbn [res_bind]; [|discriminate].
  destruct (Reflector.encode rf l) as [[i|]|] eqn:Ei; cbn [res_bind]; try discriminate.
  destruct (Enigma.backward d i) as [b|] eqn:Eb; cbn [res_bind]; [|discriminate].
  destruct (getitem alphabet b) as [l2|] eqn:El2; cbn [res_bind]; [|discriminate].
  intros Ey.
  pose proof (index_bounds _ _ _ Ec0) as Hc0.
  destruct (forward_backward d c0 cn Hwf (proj1 Hc0) Ecn) as [Hcn Hback].
  pose proof (getitem_index l alphabet cn alphabet_NoDup Hcn El) as Eil.
  destruct (ReflectorFacts.refl_encode_involutive rf l cn i Hrfi Eil Ei)
    as (Hi & y' & Ey' & Erf).
  destruct (backward_forward d i b Hwf Hi Eb) as [Hb Hfwd].
  rewrite (PlugboardFacts.plug_encode_involutive pb l2 y Hpbi Ey). cbn [res_bind].
  rewrite (getitem_index l2 alphabet b alphabet_NoDup Hb El2). cbn [res_bind].
  rewrite Hfwd. cbn [res_bind]. rewrite Ey'. cbn [res_bind].
  rewrite Erf. cbn [res_bind]. rewrite Hback. cbn [res_bind].
  rewrite (index_getitem _ _ _ Ec0). cbn [res_bind].
  exact (PlugboardFacts.plug_encode_involutive pb x p Hpbi Ep).
Qed.

(** Resetting a drum runs the constructor again on every rotor. *)
Lemma reset_deque_raise self e :
  Rotor.new (Rotor.rotor_type self) (Rotor.initial_position self) (Rotor.ring_setting self)
    = Raise e ->
  snd (Rotor.reset_deque self) = Raise e.
Proof.
  unfold Rotor.new, Rotor.reset_deque, m_bind, m_read, m_modify, m_lift.
  destruct self as [n ty o w l p r];
    cbn [Rotor.rotor_type Rotor.initial_position Rotor.ring_setting].
  destruct (dict_getitem RotorData.notch (str_lower ty)) as [n'|];
    cbn [res_bind snd]; [|congruence].
  unfold Rotor.with_notch, Rotor.with_rotor_offset, Rotor.with_rotor_wiring, Rotor.with_label;
    cbn [Rotor.rotor_type Rotor.initial_position Rotor.ring_setting Rotor.notch
         Rotor.rotor_offset Rotor.rotor_wiring Rotor.label].
  destruct (dict_getitem RotorData.sequence (str_lower ty)) as [w'|];
    cbn [res_bind snd]; [|congruence].
  rewrite alpha_sequence.
  cbn [res_bind Rotor.rotor_type Rotor.initial_position Rotor.ring_setting Rotor.notch
       Rotor.rotor_offset Rotor.rotor_wiring Rotor.label].
  destruct (Rotor.set_rotor_to_initial_position _ p) as [s1|];
    cbn [res_bind snd]; [discriminate|congruence].
Qed.

Lemma reset_deque_ok self self' :
  Rotor.reset_deque self = (self', Ok tt) ->
  Rotor.new (Rotor.rotor_type self) (Rotor.initial_position self) (Rotor.ring_setting self)
    = Ok self'.
Proof.
  intros H.
  destruct (Rotor.new (Rotor.rotor_type self) (Rotor.initial_position self)
              (Rotor.ring_setting self)) as [s|e] eqn:E.
  - rewrite (reset_deque_new _ _ E) in H. congruence.
  - apply reset_deque_raise in E. rewrite H in E. discriminate.
Qed.

Lemma reset_drum_ok d d' :
  Enigma.reset_drum d = (d', Ok tt) ->
  Forall2 (fun r r' =>
             Rotor.new (Rotor.rotor_type r) (Rotor.initial_position r) (Rotor.ring_setting r)
             = Ok r') d d'.
Proof.
  revert d'. induction d as [|r d IH]; intros d'; simpl.
  - intros [= <-]. constructor.
  - destruct (Rotor.reset_deque r) as [r' [[]|e]] eqn:Er; [|discriminate].
    destruct (Enigma.reset_drum d) as [d'' x] eqn:Ed. intros [= <- ->].
    constructor; [now apply reset_deque_ok|now apply IH].
Qed.

Lemma reset_drum_fresh d0 d :
  Forall rotor_fresh d0 -> Forall2 same_config d0 d ->
  Enigma.reset_drum d = (d0, Ok tt).
Proof.
  intros Hf H. induction H as [|a b d0 d (E1 & E2 & E3) _ IH]; [reflexivity|].
  inversion Hf as [|? ? Ha Hf']; subst. simpl.
  unfold rotor_fresh in Ha. rewrite E1, E2, E3 in Ha.
  rewrite (reset_deque_new _ _ Ha). now rewrite (IH Hf').
Qed.

Lemma drum_kept_config d d' : drum_kept d d' -> Forall2 same_config d d'.
Proof. induction 1 as [|a b d d' [H _] _ IH]; constructor; auto. Qed.

Lemma fresh_wf d : Forall rotor_fresh d -> Forall rotor_wf d.
Proof.
  intros H. eapply Forall_impl; [|exact H].
  intros r Hr. apply (new_spec _ _ _ _ Hr).
Qed.

End EngineFacts.

Module RunFacts.

Import RotorFacts DrumFacts EngineFacts.

Lemma keeps_encode_loop self a_string : keeps (Enigma.encode_loop self a_string).
Proof.
  unfold Enigma.encode_loop.
  apply keeps_bind; [apply keeps_drum_get|intros r2].
  apply keeps_bind; [apply keeps_lift|intros flag].
  apply keeps_encode_letters.
Qed.

(** A call of [encode_sequence] that returns: the loop ran to its end on
    some drum [d1], and the reset of [d1] succeeded. *)
Lemma encode_sequence_ok e e' s out :
  Enigma.encode_sequence e s = (e', Ok out) ->
  exists d1,
    Enigma.encode_loop e s (Enigma.drum e) = (d1, Ok out) /\
    Enigma.reset_drum d1 = (Enigma.drum e', Ok tt) /\
    e' = Enigma.with_drum e (Enigma.drum e').
Proof.
  unfold Enigma.encode_sequence.
  destruct (Z.of_nat (List.length (Enigma.drum e)) <? 3); [discriminate|].
  unfold m_bind at 1.
  destruct (Enigma.encode_loop e s (Enigma.drum e)) as [d1 [enc|err]] eqn:E1; [|discriminate].
  unfold m_bind, m_ret.
  destruct (Enigma.reset_drum d1) as [d2 [[]|err]] eqn:E2; [|discriminate].
  intros [= <- <-]. exists d1. repeat split. exact E2.
Qed.

Lemma with_drum_same e : Enigma.with_drum e (Enigma.drum e) = e.
Proof. now destruct e. Qed.

End RunFacts.

(** C9: when [encode_sequence] returns, every rotor of the drum is what the
    constructor builds from that rotor's type, initial position and ring
    setting, and nothing else of the engine has changed; so on an engine
    whose rotors are fresh the call leaves the engine as it found it, and a
    second call on it returns the same output. *)
Theorem reset_and_determinism (e e' : Enigma.t) (s out : list ascii)
    (Hrun : Enigma.encode_sequence e s = (e', Ok out)) :
  Forall2 (fun r r' =>
             Rotor.new (Rotor.rotor_type r) (Rotor.initial_position r) (Rotor.ring_setting r)
             = Ok r')
          (Enigma.drum e) (Enigma.drum e') /\
  Enigma.plugboard e' = Enigma.plugboard e /\
  Enigma.reflector e' = Enigma.reflector e /\
  Enigma.wiring e' = Enigma.wiring e /\
  (Forall rotor_fresh (Enigma.drum e) ->
   e' = e /\ Enigma.encode_sequence e' s = (e', Ok out)).
Proof.
  destruct (RunFacts.encode_sequence_ok _ _ _ _ Hrun) as (d1 & Hloop & Hreset & He').
  pose proof (RunFacts.keeps_encode_loop e s (Enigma.drum e)) as Hkept.
  rewrite Hloop in Hkept. cbn [fst] in Hkept.
  apply EngineFacts.drum_kept_config in Hkept.
  split; [|split; [|split; [|split]]].
  - apply EngineFacts.reset_drum_ok in Hreset.
    revert Hreset. generalize (Enigma.drum e'). clear -Hkept.
    induction Hkept as [|a b d d1 (E1 & E2 & E3) _ IH]; intros d' H; inversion H; subst.
    + constructor.
    + constructor; [now rewrite E1, E2, E3|now apply IH].
  - now rewrite He'.
  - now rewrite He'.
  - now rewrite He'.
  - intros Hfresh.
    rewrite (EngineFacts.reset_drum_fresh _ _ Hfresh Hkept) in Hreset.
    injection Hreset as Hd. rewrite <- Hd, RunFacts.with_drum_same in He'. subst e'.
    split; [reflexivity|exact Hrun].
Qed.

(** The first sample of [code_breaker.py] decodes to its message, which holds
    the crib SECRETS. *)
Lemma sample_engine_decodes :
  Enigma.encode_sequence sample_engine sample_code = (sample_engine, Ok sample_message) /\
  str_contains sample_message (list_ascii_of_string "SECRETS") = true.
Proof. split; vm_compute; reflexivity. Qed.

Lemma reset_and_determinism_witness :
  Enigma.encode_sequence sample_engine sample_code = (sample_engine, Ok sample_message) /\
  Forall2 (fun r r' =>
             Rotor.new (Rotor.rotor_type r) (Rotor.initial_position r) (Rotor.ring_setting r)
             = Ok r')
          (Enigma.drum sample_engine) (Enigma.drum sample_engine).
Proof.
  assert (H : Enigma.encode_sequence sample_engine sample_code
              = (sample_engine, Ok sample_message)) by (vm_compute; reflexivity).
  split; [exact H|].
  exact (proj1 (reset_and_determinism _ _ _ _ H)).
Defined.

(** ** Self-reciprocity *)

Module ReciprocityFacts.

Import RotorFacts DrumFacts EngineFacts RunFacts.

(** One letter through [encode_loop]: the rotors step, the letter takes its
    path, the offset of rotor 0 is adjusted. *)
Lemma encode_loop_single self x d :
  Enigma.encode_loop self [x] d =
  (r2 <~ Enigma.drum_get 2 ;;
   flag <~ m_lift (Enigma.third_notch_init (Enigma.wiring self) r2) ;;
   flag' <~ Enigma.step_rotors (Enigma.wiring self) flag ;;
   c <~ m_read (fun d => Enigma.encode_letter self d x) ;;
   Enigma.drum_call 0 (fun r => Rotor.set_rotor_offset r 1) ;;;
   m_ret [c])%m d.
Proof. reflexivity. Qed.

Lemma encode_loop_stepped self x d :
  Enigma.encode_loop self [x] d =
  match stepped self d with
  | (d1, Ok _) =>
      match Enigma.encode_letter self d1 x with
      | Ok c =>
          match Enigma.drum_call 0 (fun r => Rotor.set_rotor_offset r 1) d1 with
          | (d2, Ok _) => (d2, Ok [c])
          | (d2, Raise e) => (d2, Raise e)
          end
      | Raise e => (d1, Raise e)
      end
  | (d1, Raise e) => (d1, Raise e)
  end.
Proof.
  rewrite encode_loop_single. unfold stepped, m_bind, m_lift, m_read, m_ret.
  destruct (Enigma.drum_get 2 d) as [d0 [r2|e]]; [|reflexivity].
  destruct (Enigma.third_notch_init (Enigma.wiring self) r2) as [flag|e]; [|reflexivity].
  destruct (Enigma.step_rotors (Enigma.wiring self) flag d0) as [d1 [flag'|e]]; [|reflexivity].
  destruct (Enigma.encode_letter self d1 x) as [c|e]; [|reflexivity].
  destruct (Enigma.drum_call 0 _ d1) as [d2 [[]|e]]; reflexivity.
Qed.

Lemma keeps_stepped self : keeps (stepped self).
Proof.
  unfold stepped.
  apply keeps_bind; [apply keeps_drum_get|intros r2].
  apply keeps_bind; [apply keeps_lift|intros flag].
  apply keeps_step_rotors.
Qed.

End ReciprocityFacts.

(** C1: on an engine freshly set up (a plugboard built by [add], constructed
    rotors, a constructed reflector), if encoding the one-letter string [x]
    returns the one-letter string [y], then the engine is back in its
    starting configuration and encoding [y] on it returns [x]. *)
Theorem enigma_self_reciprocal (e e' : Enigma.t) (x y : ascii)
    (Hconf : enigma_configured e)
    (Hrun : Enigma.encode_sequence e [x] = (e', Ok [y])) :
  e' = e /\ Enigma.encode_sequence e' [y] = (e', Ok [x]).
Proof.
  destruct Hconf as ((pb & Hpb & Hpbr) & Hfresh & (ty & w & rf & Hrf & Hnew) & Hw).
  destruct (reset_and_determinism e e' [x] [y] Hrun) as (_ & _ & _ & _ & Hsame).
  destruct (Hsame Hfresh) as [-> _]. split; [reflexivity|].
  revert Hrun. unfold Enigma.encode_sequence.
  destruct (Z.of_nat (List.length (Enigma.drum e)) <? 3); [discriminate|].
  unfold m_bind at 1 3. rewrite !ReciprocityFacts.encode_loop_stepped.
  pose proof (ReciprocityFacts.keeps_stepped e (Enigma.drum e)) as Hkept.
  destruct (stepped e (Enigma.drum e)) as [d1 [flag|err]];
    [|discriminate].
  cbn [fst] in Hkept.
  assert (Hwf : Forall rotor_wf d1).
  { eapply DrumFacts.drum_kept_wf; [exact Hkept|now apply EngineFacts.fresh_wf]. }
  destruct (Enigma.encode_letter e d1 x) as [c|err] eqn:Ex; [|discriminate].
  intros Hrun.
  assert (Hc : c = y).
  { revert Hrun. clear.
    destruct (Enigma.drum_call 0 _ d1) as [d2 [[]|err]]; [|discriminate].
    unfold m_bind, m_ret. destruct (Enigma.reset_drum d2) as [d3 [[]|err]]; [|discriminate].
    intros [= _ ->]. reflexivity. }
  subst c. revert Hrun.
  rewrite (EngineFacts.encode_letter_reciprocal e d1 pb rf x y Hpb
             (PlugboardFacts.reachable_pb_inv pb Hpbr) Hrf
             (ReflectorFacts.rf_inv_new ty w rf Hnew) Hw Hwf Ex).
  destruct (Enigma.drum_call 0 _ d1) as [d2 [[]|err]]; [|discriminate].
  unfold m_bind, m_ret. destruct (Enigma.reset_drum d2) as [d3 [[]|err]]; [|discriminate].
  intros [= ->]. reflexivity.
Qed.

Lemma build_plugboard_reachable plugs : plugboard_reachable (build_plugboard plugs).
Proof.
  unfold build_plugboard. generalize pb_reach_new. generalize Plugboard.new.
  induction plugs as [|plug plugs IH]; intros pb H; simpl; [exact H|].
  apply IH. now apply pb_reach_add.
Qed.

Lemma build_rotor_fresh ty p r :
  is_ok (Rotor.new ty p r) = true -> rotor_fresh (build_rotor ty p r).
Proof.
  unfold build_rotor. destruct (Rotor.new ty p r) as [self|e] eqn:E; [|discriminate].
  intros _. exact (RotorFacts.new_fresh _ _ _ _ E).
Qed.

Lemma sample_engine_configured : enigma_configured sample_engine.
Proof.
  unfold enigma_configured.
  split; [|split; [|split; [|vm_compute; reflexivity]]].
  - exists (build_plugboard ["KI"; "XN"; "FL"]).
    split; [vm_compute; reflexivity|].
    apply build_plugboard_reachable.
  - assert (E : Enigma.drum sample_engine
                = [build_rotor "V" "M"%char 14; build_rotor "Gamma" "J"%char 2;
                   build_rotor "Beta" "M"%char 4]) by (vm_compute; reflexivity).
    rewrite E.
    apply Forall_cons; [apply build_rotor_fresh; vm_compute; reflexivity|].
    apply Forall_cons; [apply build_rotor_fresh; vm_compute; reflexivity|].
    apply Forall_cons; [apply build_rotor_fresh; vm_compute; reflexivity|].
    apply Forall_nil.
  - destruct (Reflector.new "c" None) as [rf|] eqn:E; [|vm_compute in E; discriminate].
    exists "c", None, rf. split; [|exact E].
    unfold sample_engine, build_enigma. rewrite E. vm_compute. reflexivity.
Qed.

Lemma enigma_self_reciprocal_witness :
  Enigma.encode_sequence sample_engine ["D"%char] = (sample_engine, Ok ["N"%char]) /\
  Enigma.encode_sequence sample_engine ["N"%char] = (sample_engine, Ok ["D"%char]).
Proof.
  assert (H : Enigma.encode_sequence sample_engine ["D"%char]
              = (sample_engine, Ok ["N"%char])) by (vm_compute; reflexivity).
  split; [exact H|].
  exact (proj2 (enigma_self_reciprocal _ _ _ _ sample_engine_configured H)).
Defined.

(** ** The double step *)

(** C3 on the code: with rotor I in slot 0 set so that its notch is at the
    stepping contact on the second letter (and on no other of the three), and
    rotor III in the middle slot at U, the middle rotor stands at U after the
    first letter, at W after the second and still at W after the third: it
    turns twice while the second letter is encoded and not at all on the
    third.  And whatever the position and ring setting of rotor III in the
    middle slot, it never turns on both the second and the third letter. *)
Theorem double_step_on_one_letter :
  map (notch_fires_on (double_step_engine "U"%char 1) double_step_text) [1; 2; 3]%nat
    = [false; true; false] /\
  map (fun n => String.get 0 (position_after (double_step_engine "U"%char 1)
                                double_step_text 1 n)) [0; 1; 2; 3]%nat
    = [Some "U"%char; Some "U"%char; Some "W"%char; Some "W"%char] /\
  advances_on (double_step_engine "U"%char 1) double_step_text 1 2 = true /\
  advances_on (double_step_engine "U"%char 1) double_step_text 1 3 = false /\
  forallb (fun p => forallb (fun r => negb (double_steps p (r + 1))) (range 26)) alphabet
    = true.
Proof.
  split; [vm_compute; reflexivity|].
  split; [vm_compute; reflexivity|].
  split; [vm_compute; reflexivity|].
  split; vm_compute; reflexivity.
Qed.

(** ** Which calls raise [MissingRotors] *)

Module MissingFacts.

Lemma nm_ok {A} (a : A) : not_missing_rotors (Ok a).
Proof. discriminate. Qed.

Lemma nm_cast {A B} (e : exn) :
  not_missing_rotors (@Raise A e) -> not_missing_rotors (@Raise B e).
Proof. unfold not_missing_rotors. intros H [= ->]. now apply H. Qed.

Lemma nm_bind {A B} (c : res A) (k : A -> res B) :
  not_missing_rotors c -> (forall a, not_missing_rotors (k a)) ->
  not_missing_rotors (res_bind c k).
Proof. intros Hc Hk. destruct c as [a|e]; simpl; [apply Hk|exact (nm_cast e Hc)]. Qed.

Lemma nm_index x l : not_missing_rotors (index x l).
Proof.
  induction l as [|y l IH]; simpl; [discriminate|].
  destruct (Ascii.eqb x y); [discriminate|].
  apply nm_bind; [exact IH|discriminate].
Qed.

Lemma nm_getitem {A} (l : list A) i : not_missing_rotors (getitem l i).
Proof.
  unfold getitem. destruct (_ || _); [discriminate|].
  destruct (nth_error _ _); discriminate.
Qed.

Lemma nm_dict_getitem {V} (d : list (string * V)) k : not_missing_rotors (dict_getitem d k).
Proof.
  induction d as [|[k' v] d IH]; simpl; [discriminate|].
  destruct (String.eqb k k'); [discriminate|exact IH].
Qed.

Lemma nm_lead_encode l c : not_missing_rotors (PlugLead.encode l c).
Proof.
  unfold PlugLead.encode. destruct (set_mem _ _ _); [|discriminate].
  destruct (set_diff _ _ _); discriminate.
Qed.

Lemma nm_plug_encode pb c : not_missing_rotors (Plugboard.encode pb c).
Proof.
  unfold Plugboard.encode. induction (Plugboard.plug_leads pb) as [|l ls IH]; simpl.
  - discriminate.
  - destruct (set_mem _ _ _); [apply nm_lead_encode|exact IH].
Qed.

Lemma nm_refl_encode rf c : not_missing_rotors (Reflector.encode rf c).
Proof.
  unfold Reflector.encode. induction (Reflector.wiring rf) as [|l ls IH]; simpl.
  - discriminate.
  - destruct (set_mem _ _ _); [|exact IH].
    apply nm_bind; [apply nm_lead_encode|intros c'].
    apply nm_bind; [apply nm_index|discriminate].
Qed.

Lemma nm_fold {A B} (f : res A -> B -> res A) (l : list B) (acc : res A) :
  (forall a b, not_missing_rotors a -> not_missing_rotors (f a b)) ->
  not_missing_rotors acc -> not_missing_rotors (fold_left f l acc).
Proof.
  intros Hf. revert acc. induction l as [|b l IH]; intros acc Hacc; simpl; auto.
Qed.

Lemma nm_forward d c : not_missing_rotors (Enigma.forward d c).
Proof.
  unfold Enigma.forward. apply nm_fold; [|discriminate].
  intros a r Ha. apply nm_bind; [exact Ha|intros c0].
  apply nm_bind; [apply nm_getitem|intros w; apply nm_index].
Qed.

Lemma nm_backward d c : not_missing_rotors (Enigma.backward d c).
Proof.
  unfold Enigma.backward. apply nm_fold; [|discriminate].
  intros a r Ha. apply nm_bind; [exact Ha|intros c0].
  apply nm_bind; [apply nm_getitem|intros w; apply nm_index].
Qed.

Lemma nm_get_plugboard self : not_missing_rotors (Enigma.get_plugboard self).
Proof. unfold Enigma.get_plugboard. destruct (Enigma.plugboard self); discriminate. Qed.

Lemma nm_get_reflector self : not_missing_rotors (Enigma.get_reflector self).
Proof. unfold Enigma.get_reflector. destruct (Enigma.reflector self); discriminate. Qed.

Lemma nm_encode_letter self d c : not_missing_rotors (Enigma.encode_letter self d c).
Proof.
  unfold Enigma.encode_letter.
  apply nm_bind; [apply nm_get_plugboard|intros pb].
  apply nm_bind; [apply nm_plug_encode|intros p].
  apply nm_bind; [apply nm_index|intros c0].
  apply nm_bind; [apply nm_forward|intros c1].
  apply nm_bind; [apply nm_get_reflector|intros rf].
  apply nm_bind; [apply nm_getitem|intros l].
  apply nm_bind; [apply nm_refl_encode|intros [i|s]]; [|discriminate].
  apply nm_bind; [apply nm_backward|intros b].
  apply nm_bind; [apply nm_get_plugboard|intros pb'].
  apply nm_bind; [apply nm_getitem|intros l']. apply nm_plug_encode.
Qed.

Lemma nm_notch_test (n : notch_t) (l w : list ascii) (i : Z) (f : Z -> bool) :
  not_missing_rotors
    (if is_int n then c <- getitem l i ;; j <- index c w ;; Ok (f j) else Ok false).
Proof.
  destruct (is_int n); [|discriminate].
  apply nm_bind; [apply nm_getitem|intros c].
  apply nm_bind; [apply nm_index|discriminate].
Qed.

Lemma nvm_ret {S A} (a : A) : never_missing_rotors (@m_ret S A a).
Proof. intros s. discriminate. Qed.

Lemma nvm_lift {S A} (r : res A) : not_missing_rotors r -> never_missing_rotors (@m_lift S A r).
Proof. intros H s. exact H. Qed.

Lemma nvm_read {S A} (f : S -> res A) :
  (forall s, not_missing_rotors (f s)) -> never_missing_rotors (m_read f).
Proof. intros H s. apply H. Qed.

Lemma nvm_modify {S} (f : S -> S) : never_missing_rotors (m_modify f).
Proof. intros s. discriminate. Qed.

Lemma nvm_bind {S A B} (c : M S A) (k : A -> M S B) :
  never_missing_rotors c -> (forall a, never_missing_rotors (k a)) ->
  never_missing_rotors (m_bind c k).
Proof.
  intros Hc Hk s. unfold m_bind. specialize (Hc s).
  destruct (c s) as [s' [a|e]]; simpl in *; [apply Hk|exact (nm_cast e Hc)].
Qed.

Lemma nvm_drum_get i : never_missing_rotors (Enigma.drum_get i).
Proof. intros d. unfold Enigma.drum_get. destruct (nth_error d i); discriminate. Qed.

Lemma nvm_drum_call i f : never_missing_rotors (Enigma.drum_call i f).
Proof. intros d. unfold Enigma.drum_call. destruct (nth_error d i); discriminate. Qed.

Ltac nvm_tac :=
  repeat first
    [ apply nvm_ret | apply nvm_drum_get | apply nvm_drum_call | apply nvm_modify
    | apply nvm_lift;
      repeat first [ apply nm_notch_test | apply nm_dict_getitem | apply nm_getitem
                   | apply nm_index | apply nm_ok | apply nm_bind; [|intros ?] ]
    | apply nvm_bind; [|intros ?]
    | match goal with |- never_missing_rotors (if ?b then _ else _) => destruct b end ].

Lemma nvm_step_rotors wiring flag : never_missing_rotors (Enigma.step_rotors wiring flag).
Proof.
  unfold Enigma.step_rotors, Enigma.rotate_and_offset, Enigma.on_notch, Enigma.before_notch.
  nvm_tac.
Qed.

Lemma nvm_encode_letters self a_string flag encoded :
  never_missing_rotors (Enigma.encode_letters self a_string flag encoded).
Proof.
  revert flag encoded. induction a_string as [|c s IH]; intros flag encoded; simpl.
  - apply nvm_ret.
  - apply nvm_bind; [apply nvm_step_rotors|intros flag'].
    apply nvm_bind; [apply nvm_read; intros d; apply nm_encode_letter|intros c'].
    apply nvm_bind; [apply nvm_drum_call|intros _]. apply IH.
Qed.

Lemma nvm_encode_loop self a_string : never_missing_rotors (Enigma.encode_loop self a_string).
Proof.
  unfold Enigma.encode_loop, Enigma.third_notch_init.
  apply nvm_bind; [apply nvm_drum_get|intros r2].
  apply nvm_bind; [apply nvm_lift, nm_notch_test|intros flag].
  apply nvm_encode_letters.
Qed.

Lemma nm_set_initial self p : not_missing_rotors (Rotor.set_rotor_to_initial_position self p).
Proof.
  unfold Rotor.set_rotor_to_initial_position.
  apply nm_bind; [apply nm_index|discriminate].
Qed.

Lemma nvm_reset_deque : never_missing_rotors Rotor.reset_deque.
Proof.
  unfold Rotor.reset_deque.
  apply nvm_bind; [apply nvm_read; intros s; apply nm_dict_getitem|intros n].
  apply nvm_bind; [apply nvm_modify|intros _].
  apply nvm_bind; [apply nvm_modify|intros _].
  apply nvm_bind; [apply nvm_modify|intros _].
  apply nvm_bind; [apply nvm_modify|intros _].
  apply nvm_bind; [apply nvm_read; intros s; apply nm_dict_getitem|intros w].
  apply nvm_bind; [apply nvm_modify|intros _].
  apply nvm_bind; [apply nvm_lift, nm_dict_getitem|intros l].
  apply nvm_bind; [apply nvm_modify|intros _].
  apply nvm_bind; [|intros _; apply nvm_modify].
  intros s. pose proof (nm_set_initial s (Rotor.initial_position s)) as H.
  destruct (Rotor.set_rotor_to_initial_position s (Rotor.initial_position s)) as [s'|e];
    [discriminate|exact (nm_cast e H)].
Qed.

Lemma nvm_reset_drum : never_missing_rotors Enigma.reset_drum.
Proof.
  intros d. induction d as [|r d IH]; simpl; [discriminate|].
  pose proof (nvm_reset_deque r) as Hr.
  destruct (Rotor.reset_deque r) as [r' [[]|e]]; simpl in *; [|exact Hr].
  destruct (Enigma.reset_drum d) as [d' x]. exact IH.
Qed.

(** The drum keeps its length through [reset_drum], whether the reset
    succeeds or stops at a rotor. *)
Lemma reset_drum_length d : List.length (fst (Enigma.reset_drum d)) = List.length d.
Proof.
  induction d as [|r d IH]; simpl; [reflexivity|].
  destruct (Rotor.reset_deque r) as [r' [[]|e]]; simpl; [|reflexivity].
  destruct (Enigma.reset_drum d) as [d' x]; simpl in *. now rewrite IH.
Qed.

Lemma encode_sequence_length e s :
  List.length (Enigma.drum (fst (Enigma.encode_sequence e s))) = List.length (Enigma.drum e).
Proof.
  unfold Enigma.encode_sequence.
  destruct (_ <? 3); [reflexivity|].
  unfold m_bind at 1.
  pose proof (RunFacts.keeps_encode_loop e s (Enigma.drum e)) as Hk.
  apply DrumFacts.drum_kept_length in Hk.
  destruct (Enigma.encode_loop e s (Enigma.drum e)) as [d1 [enc|err]]; simpl in *; [|exact Hk].
  unfold m_bind, m_ret. pose proof (reset_drum_length d1) as Hr.
  destruct (Enigma.reset_drum d1) as [d2 [[]|err]]; simpl in *; congruence.
Qed.

Lemma reachable_drum_length e : enigma_reachable e -> (List.length (Enigma.drum e) <= 4)%nat.
Proof.
  induction 1 as [|e r _ IH|e rf _ IH|e pb _ IH|e s _ IH]; simpl; try lia.
  - unfold Enigma.add_rotor. destruct (3 <? _) eqn:E; simpl; [exact IH|].
    apply Z.ltb_ge in E. rewrite length_app. simpl. lia.
  - now rewrite encode_sequence_length.
Qed.

End MissingFacts.

(** C7: [encode_sequence] raises [MissingRotors] exactly when the drum holds
    fewer than 3 rotors, and then leaves the engine as it was; [add_rotor]
    raises [EnigmaDrumFull] exactly when the drum already holds 4 rotors or
    more, leaving the drum as it was, and appends the rotor otherwise; so an
    engine built through its methods never holds more than 4 rotors, and on
    such an engine [add_rotor] raises exactly when a fifth rotor is added. *)
Theorem rotor_count_errors :
  (forall e s, snd (Enigma.encode_sequence e s) = Raise MissingRotors <->
               (List.length (Enigma.drum e) < 3)%nat) /\
  (forall e s, (List.length (Enigma.drum e) < 3)%nat ->
               fst (Enigma.encode_sequence e s) = e) /\
  (forall e r, snd (Enigma.add_rotor e r) = Raise EnigmaDrumFull <->
               (4 <= List.length (Enigma.drum e))%nat) /\
  (forall e r, (4 <= List.length (Enigma.drum e))%nat -> fst (Enigma.add_rotor e r) = e) /\
  (forall e r, (List.length (Enigma.drum e) < 4)%nat ->
               Enigma.add_rotor e r = (Enigma.with_drum e (Enigma.drum e ++ [r]), Ok tt)) /\
  (forall e, enigma_reachable e -> (List.length (Enigma.drum e) <= 4)%nat) /\
  (forall e r, enigma_reachable e ->
               (snd (Enigma.add_rotor e r) = Raise EnigmaDrumFull <->
                List.length (Enigma.drum e) = 4%nat)).
Proof.
  assert (Hadd : forall e r, snd (Enigma.add_rotor e r) = Raise EnigmaDrumFull <->
                             (4 <= List.length (Enigma.drum e))%nat).
  { intros e r. unfold Enigma.add_rotor.
    destruct (3 <? Z.of_nat (List.length (Enigma.drum e))) eqn:E; simpl.
    - apply Z.ltb_lt in E. split; [lia|reflexivity].
    - apply Z.ltb_ge in E. split; [discriminate|lia]. }
  split; [|split; [|split; [exact Hadd|split; [|split; [|split]]]]].
  - intros e s. unfold Enigma.encode_sequence.
    destruct (Z.of_nat (List.length (Enigma.drum e)) <? 3) eqn:E.
    + apply Z.ltb_lt in E. simpl. split; [lia|reflexivity].
    + apply Z.ltb_ge in E. split; [|lia]. intros H. exfalso. revert H.
      unfold m_bind at 1.
      pose proof (MissingFacts.nvm_encode_loop e s (Enigma.drum e)) as Hl.
      destruct (Enigma.encode_loop e s (Enigma.drum e)) as [d1 [enc|err]]; simpl in *;
        [|exact Hl].
      unfold m_bind, m_ret. pose proof (MissingFacts.nvm_reset_drum d1) as Hr.
      destruct (Enigma.reset_drum d1) as [d2 [[]|err]]; simpl in *;
        [discriminate|exact (MissingFacts.nm_cast err Hr)].
  - intros e s H. unfold Enigma.encode_sequence.
    destruct (Z.of_nat (List.length (Enigma.drum e)) <? 3) eqn:E; [reflexivity|].
    apply Z.ltb_ge in E. lia.
  - intros e r H. unfold Enigma.add_rotor.
    destruct (3 <? Z.of_nat (List.length (Enigma.drum e))) eqn:E; [reflexivity|].
    apply Z.ltb_ge in E. lia.
  - intros e r H. unfold Enigma.add_rotor.
    destruct (3 <? Z.of_nat (List.length (Enigma.drum e))) eqn:E; [|reflexivity].
    apply Z.ltb_lt in E. lia.
  - exact MissingFacts.reachable_drum_length.
  - intros e r Hr. rewrite Hadd.
    pose proof (MissingFacts.reachable_drum_length e Hr). lia.
Qed.

Lemma rotor_count_errors_witness :
  snd (Enigma.encode_sequence Enigma.new ["A"%char]) = Raise MissingRotors /\
  fst (Enigma.encode_sequence Enigma.new ["A"%char]) = Enigma.new /\
  (List.length (Enigma.drum sample_engine) <= 4)%nat.
Proof.
  destruct rotor_count_errors as (H1 & H2 & _ & _ & _ & H6 & _).
  split; [apply H1; simpl; lia|].
  split; [apply H2; simpl; lia|].
  vm_compute. lia.
Defined.

(** ** Searches that run out of candidates *)

Module SearchFacts.

Import CodeBreaker.

Lemma starts_with_length p s : starts_with p s = true -> (List.length p <= List.length s)%nat.
Proof.
  revert s. induction p as [|a p IH]; intros [|b s]; simpl; try lia; try discriminate.
  intros H. apply andb_prop in H as [_ H]. apply IH in H. lia.
Qed.

(** A text holds no crib longer than itself. *)
Lemma str_contains_length s p : str_contains s p = true -> (List.length p <= List.length s)%nat.
Proof.
  induction s as [|b s IH]; simpl.
  - rewrite orb_false_r. apply starts_with_length.
  - intros H. apply orb_prop in H as [H|H].
    + apply starts_with_length in H. simpl in H. exact H.
    + apply IH in H. lia.
Qed.

Lemma encode_letters_length self s flag enc d d' out :
  Enigma.encode_letters self s flag enc d = (d', Ok out) ->
  List.length out = (List.length enc + List.length s)%nat.
Proof.
  revert flag enc d. induction s as [|c s IH]; intros flag enc d; simpl.
  - intros [= _ <-]. lia.
  - unfold m_bind at 1.
    destruct (Enigma.step_rotors _ flag d) as [d1 [flag'|e]]; [|discriminate].
    unfold m_bind at 1, m_read.
    destruct (Enigma.encode_letter self d1 c) as [c'|e]; [|discriminate].
    unfold m_bind at 1.
    destruct (Enigma.drum_call 0 _ d1) as [d2 [[]|e]]; [|discriminate].
    intros H. apply IH in H. rewrite length_app in H. simpl in H. lia.
Qed.

(** The output of [encode_sequence] has one letter for each letter of the
    input. *)
Lemma encode_sequence_output_length e s e' out :
  Enigma.encode_sequence e s = (e', Ok out) -> List.length out = List.length s.
Proof.
  intros H. destruct (RunFacts.encode_sequence_ok _ _ _ _ H) as (d1 & Hloop & _).
  revert Hloop. unfold Enigma.encode_loop, m_bind, m_lift.
  destruct (Enigma.drum_get 2 (Enigma.drum e)) as [d0 [r2|err]]; [|discriminate].
  destruct (Enigma.third_notch_init _ r2) as [flag|err]; [|discriminate].
  intros Hl. apply encode_letters_length in Hl. simpl in Hl. exact Hl.
Qed.

Lemma cb_kept_refl a : cb_kept a a.
Proof. repeat split. Qed.

Lemma cb_kept_trans a b c : cb_kept a b -> cb_kept b c -> cb_kept a c.
Proof. unfold cb_kept. intuition congruence. Qed.

Lemma cb_keeps_ret {A} (a : A) : cb_keeps (m_ret a).
Proof. intros s. apply cb_kept_refl. Qed.

Lemma cb_keeps_lift {A} (r : res A) : cb_keeps (m_lift r).
Proof. intros s. apply cb_kept_refl. Qed.

Lemma cb_keeps_read {A} (f : t -> res A) : cb_keeps (m_read f).
Proof. intros s. apply cb_kept_refl. Qed.

Lemma cb_keeps_modify (f : t -> t) : (forall s, cb_kept s (f s)) -> cb_keeps (m_modify f).
Proof. intros H s. apply H. Qed.

Lemma cb_keeps_bind {A B} (c : M t A) (k : A -> M t B) :
  cb_keeps c -> (forall a, cb_keeps (k a)) -> cb_keeps (m_bind c k).
Proof.
  intros Hc Hk s. unfold m_bind. specialize (Hc s).
  destruct (c s) as [s' [a|e]]; simpl in *; [|exact Hc].
  eapply cb_kept_trans; [exact Hc|apply Hk].
Qed.

Lemma cb_keeps_iter {A} (f : A -> M t unit) l :
  (forall a, cb_keeps (f a)) -> cb_keeps (m_iter f l).
Proof.
  intros Hf. induction l as [|a l IH]; simpl; [apply cb_keeps_ret|].
  apply cb_keeps_bind; [apply Hf|intros _; exact IH].
Qed.

Lemma cb_keeps_setup_enigma : cb_keeps setup_enigma.
Proof.
  unfold setup_enigma.
  apply cb_keeps_bind; [apply cb_keeps_modify; intros s; repeat split|intros _].
  apply cb_keeps_bind; [apply cb_keeps_modify; intros s; repeat split|intros _].
  apply cb_keeps_bind; [apply cb_keeps_read|intros new_rotors].
  apply cb_keeps_bind; [|intros _; apply cb_keeps_modify; intros s; repeat split].
  apply cb_keeps_iter. intros rotor s.
  destruct (Enigma.add_rotor (enigma s) rotor) as [e r]. repeat split.
Qed.

Lemma cb_keeps_run_enigma : cb_keeps run_enigma.
Proof.
  intros s. unfold run_enigma.
  destruct (Enigma.encode_sequence (enigma s) (code s)) as [e r]. repeat split.
Qed.

Lemma cb_keeps_change_plugboard new_plugs : cb_keeps (change_plugboard new_plugs).
Proof.
  intros s. unfold change_plugboard.
  destruct (the_list _); [|apply cb_kept_refl].
  destruct (fold_left _ _ _); [repeat split|apply cb_kept_refl].
Qed.

Ltac kmod := apply cb_keeps_modify; intro; repeat split.

Lemma cb_keeps_part3_next i : cb_keeps (encode_part3_next i).
Proof.
  unfold encode_part3_next.
  apply cb_keeps_bind; [apply cb_keeps_read|intros c1].
  apply cb_keeps_bind; [kmod|intros _].
  apply cb_keeps_bind; [apply cb_keeps_read|intros c2].
  apply cb_keeps_bind; [kmod|intros _].
  apply cb_keeps_bind; [apply cb_keeps_read|intros c3].
  apply cb_keeps_bind; [apply cb_keeps_lift|intros rf].
  apply cb_keeps_bind; [kmod|intros _].
  apply cb_keeps_setup_enigma.
Qed.

Lemma cb_keeps_next i sp : cb_keeps (encode_next i sp).
Proof.
  intros s. unfold encode_next.
  destruct (is_missing "reflector" (missing_information s)).
  { destruct (2 <? i); [apply cb_kept_refl|].
    revert s.
    apply cb_keeps_bind; [apply cb_keeps_read|intros ty].
    apply cb_keeps_bind; [apply cb_keeps_lift|intros rf].
    apply cb_keeps_bind; [kmod|intros _].
    apply cb_keeps_bind; [apply cb_keeps_setup_enigma|intros _].
    apply cb_keeps_ret. }
  destruct (is_missing "starting_positions" (missing_information s)).
  { revert s.
    apply cb_keeps_bind; [apply cb_keeps_read|intros new_position].
    apply cb_keeps_bind; [kmod|intros _].
    apply cb_keeps_bind; [apply cb_keeps_setup_enigma|intros _].
    apply cb_keeps_ret. }
  destruct (is_missing "plugboard" (missing_information s)); [|apply cb_kept_refl].
  destruct (plug_combinations s) as [[|c cs]|]; try apply cb_kept_refl.
  revert s.
  apply cb_keeps_bind; [kmod|intros _].
  apply cb_keeps_bind; [apply cb_keeps_lift|intros p0].
  apply cb_keeps_bind; [apply cb_keeps_lift|intros p1].
  apply cb_keeps_bind; [apply cb_keeps_change_plugboard|intros _].
  apply cb_keeps_bind; [apply cb_keeps_setup_enigma|intros _].
  apply cb_keeps_ret.
Qed.

(** A trial on a crib longer than the code: the engine raises, or returns a
    text that does not hold the crib. *)
Lemma run_enigma_no_hit self self' cypher :
  (List.length (code self) < List.length (crib self))%nat ->
  run_enigma self = (self', Ok cypher) ->
  str_contains cypher (crib self') = false.
Proof.
  intros Hlen Hrun. pose proof (cb_keeps_run_enigma self) as (_ & Hcrib & _).
  rewrite Hrun in Hcrib. simpl in Hcrib. rewrite Hcrib.
  unfold run_enigma in Hrun.
  destruct (Enigma.encode_sequence (enigma self) (code self)) as [e [out|err]] eqn:E;
    [|discriminate].
  injection Hrun as _ <-. apply encode_sequence_output_length in E.
  destruct (str_contains out (crib self)) eqn:Hc; [|reflexivity].
  apply str_contains_length in Hc. lia.
Qed.

Lemma getitem_past_end {A} (l : list A) : getitem l (Z.of_nat (List.length l)) = Raise IndexError.
Proof.
  unfold getitem.
  destruct (Z.of_nat (List.length l) <? 0) eqn:E; [apply Z.ltb_lt in E; lia|].
  rewrite E, Z.leb_refl. reflexivity.
Qed.

(** [encode_part3] from round [i] on, with [k] candidates left. *)
Lemma part3_exhaustion k :
  forall fuel i self,
    (List.length (code self) < List.length (crib self))%nat ->
    Z.of_nat (List.length (r3_combinations self)) = i + Z.of_nat k ->
    (k < fuel)%nat ->
    exists self' e, encode_part3_loop fuel i self = Some (self', Raise e).
Proof.
  induction k as [|k IH]; intros fuel i self Hlen Hi Hfuel;
    (destruct fuel as [|fuel]; [lia|]); simpl.
  - pose proof (cb_keeps_run_enigma self) as Hk1.
    destruct (run_enigma self) as [s1 [cypher|e]] eqn:Hrun; [|eauto].
    rewrite (run_enigma_no_hit _ _ _ Hlen Hrun).
    destruct Hk1 as (_ & _ & _ & _ & _ & Hr3). simpl in Hr3.
    unfold encode_part3_next, m_bind at 1, m_read.
    replace i with (Z.of_nat (List.length (r3_combinations s1))) by (rewrite Hr3; lia).
    rewrite getitem_past_end. eauto.
  - pose proof (cb_keeps_run_enigma self) as Hk1.
    destruct (run_enigma self) as [s1 [cypher|e]] eqn:Hrun; [|eauto].
    rewrite (run_enigma_no_hit _ _ _ Hlen Hrun). simpl in Hk1.
    pose proof (cb_keeps_part3_next i s1) as Hk2.
    destruct (encode_part3_next i s1) as [s2 [[]|e]]; [|eauto]. simpl in Hk2.
    pose proof (cb_kept_trans _ _ _ Hk1 Hk2) as (Hc & Hcr & _ & _ & _ & Hr3).
    destruct (Z.of_nat (List.length (r3_combinations s2)) <? i + 1) eqn:E.
    + apply Z.ltb_lt in E. rewrite Hr3 in E. lia.
    + apply IH; [rewrite Hc, Hcr; exact Hlen|rewrite Hr3; lia|lia].
Qed.

(** [encode] in the starting-position mode from round [i] on, with [k]
    candidates left. *)
Lemma positions_exhaustion k :
  forall fuel i sp self,
    (List.length (code self) < List.length (crib self))%nat ->
    is_missing "reflector" (missing_information self) = false ->
    is_missing "starting_positions" (missing_information self) = true ->
    Z.of_nat (List.length (starting_positions self)) = i + Z.of_nat k ->
    (k < fuel)%nat ->
    exists self' e, encode_loop fuel i sp self = Some (self', Raise e).
Proof.
  induction k as [|k IH]; intros fuel i sp self Hlen Hrf Hsp Hi Hfuel;
    (destruct fuel as [|fuel]; [lia|]); simpl.
  - pose proof (cb_keeps_run_enigma self) as Hk1.
    destruct (run_enigma self) as [s1 [cypher|e]] eqn:Hrun; [|eauto].
    rewrite (run_enigma_no_hit _ _ _ Hlen Hrun).
    destruct Hk1 as (_ & _ & Hm & _ & Hpos & _). simpl in Hm, Hpos.
    unfold encode_next. rewrite Hm, Hrf, Hsp.
    unfold m_bind at 1, m_read.
    replace i with (Z.of_nat (List.length (starting_positions s1))) by (rewrite Hpos; lia).
    rewrite getitem_past_end. eauto.
  - pose proof (cb_keeps_run_enigma self) as Hk1.
    destruct (run_enigma self) as [s1 [cypher|e]] eqn:Hrun; [|eauto].
    rewrite (run_enigma_no_hit _ _ _ Hlen Hrun). simpl in Hk1.
    pose proof (cb_keeps_next i sp s1) as Hk2.
    assert (Hgo : forall s2 b sp', encode_next i sp s1 = (s2, Ok (b, sp')) -> b = true).
    { unfold encode_next. destruct Hk1 as (_ & _ & Hm & _). rewrite Hm, Hrf, Hsp.
      unfold m_bind, m_read, m_modify, m_ret. intros s2 b sp'.
      destruct (getitem (starting_positions s1) i); [|discriminate].
      destruct (setup_enigma _) as [s3 [[]|e]]; [|discriminate].
      now intros [= _ <- _]. }
    destruct (encode_next i sp s1) as [s2 [[b sp']|e]] eqn:Hnext; [|eauto].
    rewrite (Hgo s2 b sp' eq_refl). simpl in Hk2.
    pose proof (cb_kept_trans _ _ _ Hk1 Hk2) as (Hc & Hcr & Hm & _ & Hpos & _).
    apply IH; try lia; try (rewrite Hm; assumption).
    + rewrite Hc, Hcr. exact Hlen.
    + rewrite Hpos. lia.
Qed.

End SearchFacts.

(** C5 on the code: when no candidate can give a text that holds the crib
    (the crib is longer than the code), the joint search [encode_part3] and
    the starting-position search of [encode] do not return a "not found"
    result: once the candidates are used up the next round indexes the
    candidate list past its end, so each search ends with an exception. *)
Theorem search_exhaustion_raises (self : CodeBreaker.t)
    (Hcrib : (List.length (CodeBreaker.code self) < List.length (CodeBreaker.crib self))%nat) :
  (forall fuel,
     (List.length (CodeBreaker.r3_combinations self) < fuel)%nat ->
     exists self' e, CodeBreaker.encode_part3 fuel self = Some (self', Raise e)) /\
  (CodeBreaker.is_missing "reflector" (CodeBreaker.missing_information self) = false ->
   CodeBreaker.is_missing "starting_positions" (CodeBreaker.missing_information self) = true ->
   forall fuel,
     (List.length (CodeBreaker.starting_positions self) < fuel)%nat ->
     exists self' e, CodeBreaker.encode fuel self = Some (self', Raise e)).
Proof.
  split.
  - intros fuel Hfuel. unfold CodeBreaker.encode_part3.
    apply (SearchFacts.part3_exhaustion (List.length (CodeBreaker.r3_combinations self)));
      [exact Hcrib|lia|exact Hfuel].
  - intros Hrf Hsp fuel Hfuel. unfold CodeBreaker.encode.
    apply (SearchFacts.positions_exhaustion
             (List.length (CodeBreaker.starting_positions self)));
      [exact Hcrib|exact Hrf|exact Hsp|lia|exact Hfuel].
Qed.

Lemma search_exhaustion_raises_witness :
  (exists self' e,
     CodeBreaker.encode_part3
       (S (List.length (CodeBreaker.r3_combinations (build_code_breaker joint_search_data))))
       (build_code_breaker joint_search_data) = Some (self', Raise e)) /\
  (exists self' e,
     CodeBreaker.encode
       (S (List.length (CodeBreaker.starting_positions
                          (build_code_breaker position_search_data))))
       (build_code_breaker position_search_data) = Some (self', Raise e)).
Proof.
  split.
  - refine (proj1 (search_exhaustion_raises (build_code_breaker joint_search_data) _) _ _).
    + vm_compute. lia.
    + apply Nat.lt_succ_diag_r.
  - refine (proj2 (search_exhaustion_raises (build_code_breaker position_search_data) _)
              _ _ _ _).
    + vm_compute. lia.
    + vm_compute. reflexivity.
    + vm_compute. reflexivity.
    + apply Nat.lt_succ_diag_r.
Defined.

(** * Further properties of the cipher engine *)

(** ** Leads and plugboard *)

(** A lead built from two different letters, in either case, swaps their
    upper-case forms and leaves every other character as it is. *)
Theorem plug_lead_swaps (a b : ascii)
    (Ha : isalpha a = true) (Hb : isalpha b = true) (Hab : upper a <> upper b) :
  let lead := PlugLead.new (String a (String b EmptyString)) in
  PlugLead.encode lead (upper a) = Ok (upper b) /\
  PlugLead.encode lead (upper b) = Ok (upper a) /\
  (forall c, c <> upper a -> c <> upper b -> PlugLead.encode lead c = Ok c).
Proof.
  unfold PlugLead.new, PlugLead.encode. simpl. rewrite Ha, Hb. simpl.
  destruct (ascii_dec (upper b) (upper a)) as [E|_]; [congruence|]. simpl.
  repeat split.
  - LeadFacts.dec_cases.
  - LeadFacts.dec_cases.
  - intros c Hca Hcb. LeadFacts.dec_cases.
Qed.

Lemma plug_lead_swaps_witness :
  PlugLead.encode (PlugLead.new "kI") "K"%char = Ok "I"%char /\
  PlugLead.encode (PlugLead.new "kI") "I"%char = Ok "K"%char /\
  (forall c, c <> "K"%char -> c <> "I"%char -> PlugLead.encode (PlugLead.new "kI") c = Ok c).
Proof.
  apply (plug_lead_swaps "k"%char "I"%char); [reflexivity|reflexivity|].
  vm_compute. discriminate.
Defined.

Module BoardFacts.

Lemma reachable_capacity pb :
  plugboard_reachable pb -> Plugboard.plugs_connected pb <= 10.
Proof.
  induction 1 as [|pb mapping _ IH]; [vm_compute; discriminate|].
  unfold Plugboard.add.
  destruct (Plugboard.plugs_connected pb =? 0) eqn:E0.
  - apply Z.eqb_eq in E0. unfold Plugboard.plugs_connected in *. simpl.
    rewrite length_app. simpl. lia.
  - destruct (Plugboard.plugs_connected pb <? 10) eqn:E10; [|exact IH].
    apply Z.ltb_lt in E10.
    destruct (negb _); simpl; [|exact IH].
    unfold Plugboard.plugs_connected in *. simpl. rewrite length_app. simpl. lia.
Qed.

End BoardFacts.

(** A plugboard built by calls of [add] holds at most 10 leads, no letter in
    two of them, and is its own inverse: if it sends [x] to [y] it sends [y]
    to [x]. *)
Theorem plugboard_is_involution (pb : Plugboard.t) (Hpb : plugboard_reachable pb) :
  Plugboard.plugs_connected pb <= 10 /\
  Leads.disjoint (Plugboard.plug_leads pb) /\
  (forall x y, Plugboard.encode pb x = Ok y -> Plugboard.encode pb y = Ok x).
Proof.
  pose proof (PlugboardFacts.reachable_pb_inv pb Hpb) as Hinv.
  split; [now apply BoardFacts.reachable_capacity|].
  split; [apply (PlugboardFacts.pb_inv_disjoint _ Hinv)|].
  intros x y. now apply PlugboardFacts.plug_encode_involutive.
Qed.

Lemma plugboard_is_involution_witness :
  Plugboard.encode (build_plugboard ["KI"; "XN"; "FL"]) "I"%char = Ok "K"%char.
Proof.
  apply (proj2 (proj2 (plugboard_is_involution _
                         (build_plugboard_reachable ["KI"; "XN"; "FL"]))) "K"%char).
  vm_compute. reflexivity.
Defined.

(** ** Whole messages *)

Module MessageFacts.

Import RotorFacts DrumFacts EngineFacts RunFacts.

Lemma encode_sequence_ok_drum e e' s out :
  Enigma.encode_sequence e s = (e', Ok out) -> 3 <= Z.of_nat (List.length (Enigma.drum e)).
Proof.
  unfold Enigma.encode_sequence.
  destruct (Z.of_nat (List.length (Enigma.drum e)) <? 3) eqn:E; [discriminate|].
  intros _. now apply Z.ltb_ge in E.
Qed.

Lemma encode_sequence_intro e s d1 d2 out :
  3 <= Z.of_nat (List.length (Enigma.drum e)) ->
  Enigma.encode_loop e s (Enigma.drum e) = (d1, Ok out) ->
  Enigma.reset_drum d1 = (d2, Ok tt) ->
  Enigma.encode_sequence e s = (Enigma.with_drum e d2, Ok out).
Proof.
  intros Hlen Hloop Hreset. unfold Enigma.encode_sequence.
  destruct (Z.of_nat (List.length (Enigma.drum e)) <? 3) eqn:E;
    [apply Z.ltb_lt in E; lia|].
  unfold m_bind at 1. rewrite Hloop. unfold m_bind, m_ret. now rewrite Hreset.
Qed.

Lemma encode_loop_letters self s d d' out :
  Enigma.encode_loop self s d = (d', Ok out) ->
  exists r2 flag,
    nth_error d 2 = Some r2 /\
    Enigma.third_notch_init (Enigma.wiring self) r2 = Ok flag /\
    Enigma.encode_letters self s flag [] d = (d', Ok out).
Proof.
  unfold Enigma.encode_loop, m_bind, m_lift, Enigma.drum_get.
  destruct (nth_error d 2) as [r2|] eqn:E2; [|discriminate].
  destruct (Enigma.third_notch_init _ r2) as [flag|] eqn:Ef; [|discriminate].
  intros H. exists r2, flag. split; [reflexivity|]. split; [exact Ef|exact H].
Qed.

Lemma encode_loop_of_letters self s d d' out r2 flag :
  nth_error d 2 = Some r2 ->
  Enigma.third_notch_init (Enigma.wiring self) r2 = Ok flag ->
  Enigma.encode_letters self s flag [] d = (d', Ok out) ->
  Enigma.encode_loop self s d = (d', Ok out).
Proof.
  intros H2 Hf Hl. unfold Enigma.encode_loop, m_bind, m_lift, Enigma.drum_get.
  now rewrite H2, Hf.
Qed.

(** Letter by letter the machine that decodes goes through the same drum
    states as the machine that encoded. *)
Lemma encode_letters_reciprocal self pb rf :
  Enigma.plugboard self = Some pb -> PlugboardFacts.pb_inv pb ->
  Enigma.reflector self = Some rf -> reflector_inv rf ->
  Enigma.wiring self = alphabet ->
  forall s flag enc d d' out,
    Forall rotor_wf d ->
    Enigma.encode_letters self s flag enc d = (d', Ok out) ->
    exists out',
      out = enc ++ out' /\
      forall enc2, Enigma.encode_letters self out' flag enc2 d = (d', Ok (enc2 ++ s)).
Proof.
  intros Hpb Hpbi Hrf Hrfi Hw.
  induction s as [|c s IH]; intros flag enc d d' out Hwf; simpl.
  - intros [= <- <-]. exists []. split; [now rewrite app_nil_r|].
    intros enc2. simpl. now rewrite app_nil_r.
  - unfold m_bind at 1.
    pose proof (keeps_step_rotors (Enigma.wiring self) flag d) as Hk1.
    destruct (Enigma.step_rotors (Enigma.wiring self) flag d) as [d1 [flag'|e]] eqn:Hstep;
      [|discriminate].
    cbn [fst] in Hk1. pose proof (drum_kept_wf _ _ Hk1 Hwf) as Hwf1.
    unfold m_bind at 1, m_read.
    destruct (Enigma.encode_letter self d1 c) as [c'|e] eqn:Hc; [|discriminate].
    unfold m_bind at 1.
    pose proof (keeps_drum_call 0 (fun r => Rotor.set_rotor_offset r 1)
                  (set_rotor_offset_kept 1) d1) as Hk2.
    destruct (Enigma.drum_call 0 _ d1) as [d2 [[]|e]] eqn:Hcall; [|discriminate].
    cbn [fst] in Hk2. pose proof (drum_kept_wf _ _ Hk2 Hwf1) as Hwf2.
    intros Hrest. destruct (IH flag' (enc ++ [c']) d2 d' out Hwf2 Hrest) as (out'' & -> & Hback).
    exists (c' :: out''). split; [now rewrite <- app_assoc|].
    intros enc2. simpl. unfold m_bind at 1. rewrite Hstep.
    unfold m_bind at 1, m_read.
    rewrite (encode_letter_reciprocal self d1 pb rf c c' Hpb Hpbi Hrf Hrfi Hw Hwf1 Hc).
    unfold m_bind at 1. rewrite Hcall.
    rewrite (Hback (enc2 ++ [c])). now rewrite <- app_assoc.
Qed.

End MessageFacts.

(** Decoding is encoding: on a freshly set-up engine, if a message is encoded
    to [out], the engine is back in its starting configuration and encoding
    [out] on it gives the message back, whatever the length of the message. *)
Theorem message_reciprocity (e e' : Enigma.t) (s out : list ascii)
    (Hconf : enigma_configured e)
    (Hrun : Enigma.encode_sequence e s = (e', Ok out)) :
  e' = e /\ Enigma.encode_sequence e out = (e, Ok s).
Proof.
  destruct Hconf as ((pb & Hpb & Hpbr) & Hfresh & (ty & w & rf & Hrf & Hnew) & Hw).
  pose proof (MessageFacts.encode_sequence_ok_drum _ _ _ _ Hrun) as Hlen.
  destruct (RunFacts.encode_sequence_ok _ _ _ _ Hrun) as (d1 & Hloop & Hreset & He').
  pose proof (RunFacts.keeps_encode_loop e s (Enigma.drum e)) as Hkept.
  rewrite Hloop in Hkept. cbn [fst] in Hkept.
  apply EngineFacts.drum_kept_config in Hkept.
  pose proof (EngineFacts.reset_drum_fresh _ _ Hfresh Hkept) as Hreset'.
  assert (Ee : e' = e).
  { rewrite Hreset' in Hreset. injection Hreset as Hd.
    rewrite <- Hd, RunFacts.with_drum_same in He'. exact He'. }
  split; [exact Ee|].
  destruct (MessageFacts.encode_loop_letters _ _ _ _ _ Hloop) as (r2 & flag & H2 & Hflag & Hl).
  destruct (MessageFacts.encode_letters_reciprocal e pb rf Hpb
              (PlugboardFacts.reachable_pb_inv pb Hpbr) Hrf
              (ReflectorFacts.rf_inv_new ty w rf Hnew) Hw
              s flag [] (Enigma.drum e) d1 out (EngineFacts.fresh_wf _ Hfresh) Hl)
    as (out' & Eout & Hback).
  simpl in Eout. subst out'.
  assert (Hloop' : Enigma.encode_loop e out (Enigma.drum e) = (d1, Ok s)).
  { apply (MessageFacts.encode_loop_of_letters e out _ _ _ r2 flag H2 Hflag).
    exact (Hback []). }
  pose proof (MessageFacts.encode_sequence_intro e out d1 (Enigma.drum e) s Hlen
                Hloop' Hreset') as Hfinal.
  now rewrite RunFacts.with_drum_same in Hfinal.
Qed.

Lemma message_reciprocity_witness :
  Enigma.encode_sequence sample_engine sample_code = (sample_engine, Ok sample_message) /\
  Enigma.encode_sequence sample_engine sample_message = (sample_engine, Ok sample_code).
Proof.
  assert (H : Enigma.encode_sequence sample_engine sample_code
              = (sample_engine, Ok sample_message)) by (vm_compute; reflexivity).
  split; [exact H|].
  exact (proj2 (message_reciprocity _ _ _ _ sample_engine_configured H)).
Defined.

(** The output of [encode_sequence] has exactly one letter for each letter
    of the input, on any engine. *)
Theorem output_length (e e' : Enigma.t) (s out : list ascii)
    (Hrun : Enigma.encode_sequence e s = (e', Ok out)) :
  List.length out = List.length s.
Proof. exact (SearchFacts.encode_sequence_output_length e s e' out Hrun). Qed.

Lemma output_length_witness : List.length sample_message = List.length sample_code.
Proof.
  apply (output_length sample_engine sample_engine sample_code sample_message).
  vm_compute. reflexivity.
Defined.

Module FixpointFacts.

Import PlugLead Leads LeadFacts RotorFacts DrumFacts EngineFacts.

(** A reflector never sends a letter to its own index. *)
Lemma refl_encode_no_fixpoint rf x i :
  reflector_inv rf -> Reflector.encode rf x = Ok (Reflector.CInt i) ->
  index x alphabet <> Ok i.
Proof.
  intros [Hv _ Hd Hl]. unfold Reflector.encode.
  rewrite Hl, ReflectorFacts.refl_encode_find.
  destruct (find_lead x (Reflector.wiring rf)) as [l|] eqn:Ex; [|discriminate].
  destruct (PlugLead.encode l x) as [y|] eqn:Ey; cbn [res_bind]; [|discriminate].
  destruct (index y alphabet) as [iy|] eqn:Eiy; cbn [res_bind]; [|discriminate].
  intros [= <-] Hix.
  destruct (find_lead_In _ _ _ Ex) as [Hlin Hx].
  assert (Hvl : valid l) by (rewrite Forall_forall in Hv; auto).
  destruct (encode_spec l x y Hvl Ey) as [[Hnx _]|(_ & _ & Hxy & _)]; [contradiction|].
  apply index_nth_error in Hix, Eiy. congruence.
Qed.

(** With the rotors standing still, no letter comes out as itself. *)
Lemma encode_letter_no_fixpoint self d pb rf x y :
  Enigma.plugboard self = Some pb -> PlugboardFacts.pb_inv pb ->
  Enigma.reflector self = Some rf -> reflector_inv rf ->
  Enigma.wiring self = alphabet -> Forall rotor_wf d ->
  Enigma.encode_letter self d x = Ok y -> y <> x.
Proof.
  intros Hpb Hpbi Hrf Hrfi Hw Hwf.
  unfold Enigma.encode_letter, Enigma.get_plugboard, Enigma.get_reflector.
  rewrite Hpb, Hrf, Hw. cbn [res_bind].
  destruct (Plugboard.encode pb x) as [p|] eqn:Ep; cbn [res_bind]; [|discriminate].
  destruct (index p alphabet) as [c0|] eqn:Ec0; cbn [res_bind]; [|discriminate].
  destruct (Enigma.forward d c0) as [cn|] eqn:Ecn; cbn [res_bind]; [|discriminate].
  destruct (getitem alphabet cn) as [l|] eqn:El; cbn [res_bind]; [|discriminate].
  destruct (Reflector.encode rf l) as [[i|]|] eqn:Ei; cbn [res_bind]; try discriminate.
  destruct (Enigma.backward d i) as [b|] eqn:Eb; cbn [res_bind]; [|discriminate].
  destruct (getitem alphabet b) as [l2|] eqn:El2; cbn [res_bind]; [|discriminate].
  intros Ey Hyx. subst y.
  pose proof (index_bounds _ _ _ Ec0) as Hc0.
  destruct (forward_backward d c0 cn Hwf (proj1 Hc0) Ecn) as [Hcn _].
  pose proof (getitem_index l alphabet cn alphabet_NoDup Hcn El) as Eil.
  pose proof (refl_encode_no_fixpoint rf l i Hrfi Ei) as Hnf.
  assert (Hi : 0 <= i).
  { destruct (ReflectorFacts.refl_encode_involutive rf l cn i Hrfi Eil Ei) as [Hi _]. exact Hi. }
  destruct (backward_forward d i b Hwf Hi Eb) as [Hb Hfwd].
  pose proof (PlugboardFacts.plug_encode_involutive pb l2 x Hpbi Ey) as Ep'.
  assert (p = l2) by congruence. subst l2.
  pose proof (getitem_index p alphabet b alphabet_NoDup Hb El2) as Eb'.
  assert (b = c0) by congruence. subst b.
  assert (i = cn) by congruence. subst i. contradiction.
Qed.

Lemma encode_letters_no_fixpoint self pb rf :
  Enigma.plugboard self = Some pb -> PlugboardFacts.pb_inv pb ->
  Enigma.reflector self = Some rf -> reflector_inv rf ->
  Enigma.wiring self = alphabet ->
  forall s flag enc d d' out,
    Forall rotor_wf d ->
    Enigma.encode_letters self s flag enc d = (d', Ok out) ->
    exists out', out = enc ++ out' /\ Forall2 (fun a b => b <> a) s out'.
Proof.
  intros Hpb Hpbi Hrf Hrfi Hw.
  induction s as [|c s IH]; intros flag enc d d' out Hwf; simpl.
  - intros [= <- <-]. exists []. split; [now rewrite app_nil_r|constructor].
  - unfold m_bind at 1.
    pose proof (keeps_step_rotors (Enigma.wiring self) flag d) as Hk1.
    destruct (Enigma.step_rotors (Enigma.wiring self) flag d) as [d1 [flag'|e]];
      [|discriminate].
    cbn [fst] in Hk1. pose proof (drum_kept_wf _ _ Hk1 Hwf) as Hwf1.
    unfold m_bind at 1, m_read.
    destruct (Enigma.encode_letter self d1 c) as [c'|e] eqn:Hc; [|discriminate].
    unfold m_bind at 1.
    pose proof (keeps_drum_call 0 (fun r => Rotor.set_rotor_offset r 1)
                  (set_rotor_offset_kept 1) d1) as Hk2.
    destruct (Enigma.drum_call 0 _ d1) as [d2 [[]|e]]; [|discriminate].
    cbn [fst] in Hk2. pose proof (drum_kept_wf _ _ Hk2 Hwf1) as Hwf2.
    intros Hrest. destruct (IH flag' (enc ++ [c']) d2 d' out Hwf2 Hrest) as (out'' & -> & Hall).
    exists (c' :: out''). split; [now rewrite <- app_assoc|].
    constructor; [|exact Hall].
    exact (encode_letter_no_fixpoint self d1 pb rf c c' Hpb Hpbi Hrf Hrfi Hw Hwf1 Hc).
Qed.

End FixpointFacts.

(** No letter is ever encoded as itself: on a freshly set-up engine, every
    letter of the output differs from the letter of the input at the same
    place. *)
Theorem no_letter_encodes_to_itself (e e' : Enigma.t) (s out : list ascii)
    (Hconf : enigma_configured e)
    (Hrun : Enigma.encode_sequence e s = (e', Ok out)) :
  Forall2 (fun a b => b <> a) s out.
Proof.
  destruct Hconf as ((pb & Hpb & Hpbr) & Hfresh & (ty & w & rf & Hrf & Hnew) & Hw).
  destruct (RunFacts.encode_sequence_ok _ _ _ _ Hrun) as (d1 & Hloop & _).
  destruct (MessageFacts.encode_loop_letters _ _ _ _ _ Hloop) as (r2 & flag & _ & _ & Hl).
  destruct (FixpointFacts.encode_letters_no_fixpoint e pb rf Hpb
              (PlugboardFacts.reachable_pb_inv pb Hpbr) Hrf
              (ReflectorFacts.rf_inv_new ty w rf Hnew) Hw
              s flag [] (Enigma.drum e) d1 out (EngineFacts.fresh_wf _ Hfresh) Hl)
    as (out' & Eout & Hall).
  simpl in Eout. now subst out'.
Qed.

Lemma no_letter_encodes_to_itself_witness :
  Forall2 (fun a b => b <> a) sample_code sample_message.
Proof.
  apply (no_letter_encodes_to_itself sample_engine sample_engine sample_code sample_message
           sample_engine_configured).
  vm_compute. reflexivity.
Defined.

(** ** Messages of letters are always encoded *)

Module TotalFacts.

Import PlugLead Leads LeadFacts RotorFacts DrumFacts EngineFacts.

Lemma succeeds_ret {A} (Q : A -> Prop) a : Q a -> succeeds Q (m_ret a).
Proof. intros Ha d Hd. exists d, a. repeat split; [apply Hd|apply Hd|exact Ha]. Qed.

Lemma succeeds_lift {A} (Q : A -> Prop) r a : r = Ok a -> Q a -> succeeds Q (m_lift r).
Proof.
  intros -> Ha d Hd. exists d, a. repeat split; [apply Hd|apply Hd|exact Ha].
Qed.

Lemma succeeds_bind {A B} (Q : A -> Prop) (Q' : B -> Prop)
    (c : M (list Rotor.t) A) (k : A -> M (list Rotor.t) B) :
  succeeds Q c -> (forall a, Q a -> succeeds Q' (k a)) -> succeeds Q' (m_bind c k).
Proof.
  intros Hc Hk d Hd. destruct (Hc d Hd) as (d1 & a & E1 & Hd1 & Ha).
  destruct (Hk a Ha d1 Hd1) as (d2 & b & E2 & Hd2 & Hb).
  exists d2, b. unfold m_bind. rewrite E1. auto.
Qed.

Lemma succeeds_drum_get i : (i < 3)%nat -> succeeds rotor_wf (Enigma.drum_get i).
Proof.
  intros Hi d [Hlen Hwf]. unfold Enigma.drum_get.
  destruct (nth_error d i) as [r|] eqn:E.
  - exists d, r. split; [reflexivity|]. split; [split; assumption|].
    rewrite Forall_forall in Hwf. apply Hwf. eapply nth_error_In; eauto.
  - apply nth_error_None in E. lia.
Qed.

Lemma succeeds_drum_call i f :
  (i < 3)%nat -> (forall r, rotor_kept r (f r)) ->
  succeeds (fun _ => True) (Enigma.drum_call i f).
Proof.
  intros Hi Hf d [Hlen Hwf]. pose proof (keeps_drum_call i f Hf d) as Hk.
  unfold Enigma.drum_call in *.
  destruct (nth_error d i) as [r|] eqn:E.
  - exists (list_set d i (f r)), tt. cbn [fst] in Hk. repeat split.
    + rewrite (drum_kept_length _ _ Hk). exact Hlen.
    + exact (drum_kept_wf _ _ Hk Hwf).
  - apply nth_error_None in E. lia.
Qed.

Lemma succeeds_rotate_and_offset i :
  (i < 3)%nat -> succeeds (fun _ => True) (Enigma.rotate_and_offset i).
Proof.
  intros Hi. unfold Enigma.rotate_and_offset.
  apply (succeeds_bind (fun _ => True));
    [apply succeeds_drum_call; [exact Hi|apply rotate_rotor_kept]|intros _ _].
  apply succeeds_drum_call; [exact Hi|apply set_rotor_offset_kept].
Qed.

(** The letter at a place of the label of a well-formed rotor has an index
    in the alphabet. *)
Lemma label_letter_index r i :
  rotor_wf r -> 0 <= i < 26 ->
  exists c j, getitem (Rotor.label r) i = Ok c /\ index c alphabet = Ok j.
Proof.
  intros [Hl _] Hi.
  destruct (getitem_defined (Rotor.label r) i) as [c Hc];
    [now rewrite (is_wiring_length _ Hl)|].
  destruct (index_In c alphabet) as [j Hj].
  { apply (is_wiring_In _ c Hl). eapply getitem_In; [|exact Hc]. lia. }
  eauto.
Qed.

Lemma on_notch_total r : rotor_wf r -> exists b, Enigma.on_notch alphabet r = Ok b.
Proof.
  intros Hr. unfold Enigma.on_notch. destruct (is_int (Rotor.notch r)); [|eauto].
  destruct (label_letter_index r 0 Hr) as (c & j & -> & Hj); [lia|].
  cbn [res_bind]. rewrite Hj. cbn [res_bind]. eauto.
Qed.

Lemma before_notch_total r0 r1 :
  rotor_wf r1 -> exists b, Enigma.before_notch alphabet r0 r1 = Ok b.
Proof.
  intros Hr. unfold Enigma.before_notch. destruct (is_int (Rotor.notch r0)); [|eauto].
  destruct (label_letter_index r1 0 Hr) as (c & j & -> & Hj); [lia|].
  cbn [res_bind]. rewrite Hj. cbn [res_bind]. eauto.
Qed.

Lemma third_notch_init_total r : rotor_wf r -> exists b, Enigma.third_notch_init alphabet r = Ok b.
Proof.
  intros Hr. unfold Enigma.third_notch_init. destruct (is_int (Rotor.notch r)); [|eauto].
  destruct (label_letter_index r 2 Hr) as (c & j & -> & Hj); [lia|].
  cbn [res_bind]. rewrite Hj. cbn [res_bind]. eauto.
Qed.

Lemma succeeds_step_rotors flag :
  succeeds (fun _ => True) (Enigma.step_rotors alphabet flag).
Proof.
  unfold Enigma.step_rotors.
  apply (succeeds_bind (fun _ => True));
    [apply succeeds_drum_call; [lia|apply rotate_rotor_kept]|intros _ _].
  apply (succeeds_bind rotor_wf); [apply succeeds_drum_get; lia|intros r0 Hr0].
  destruct (on_notch_total r0 Hr0) as [c Hc].
  apply (succeeds_bind (fun _ => True)); [exact (succeeds_lift _ _ c Hc I)|intros c1 _].
  apply (succeeds_bind (fun _ => True)).
  { destruct c1.
    - apply (succeeds_bind (fun _ => True)); [apply succeeds_rotate_and_offset; lia|intros _ _].
      now apply succeeds_ret.
    - now apply succeeds_ret. }
  intros flag1 _.
  apply (succeeds_bind rotor_wf); [apply succeeds_drum_get; lia|intros r0' Hr0'].
  apply (succeeds_bind (fun _ => True)).
  { destruct (is_int (Rotor.notch r0')); [|now apply succeeds_ret].
    apply (succeeds_bind rotor_wf); [apply succeeds_drum_get; lia|intros r1 Hr1].
    destruct (before_notch_total r0' r1 Hr1) as [b Hb].
    exact (succeeds_lift _ _ b Hb I). }
  intros c2 _.
  apply (succeeds_bind (fun _ => True)).
  { destruct c2; [apply succeeds_rotate_and_offset; lia|now apply succeeds_ret]. }
  intros _ _.
  apply (succeeds_bind rotor_wf); [apply succeeds_drum_get; lia|intros r1 Hr1].
  destruct (on_notch_total r1 Hr1) as [c3 Hc3].
  apply (succeeds_bind (fun _ => True)); [exact (succeeds_lift _ _ c3 Hc3 I)|intros c4 _].
  destruct (c4 && flag1)%bool; [|now apply succeeds_ret].
  apply (succeeds_bind (fun _ => True));
    [apply succeeds_drum_call; [lia|apply rotate_rotor_kept]|intros _ _].
  now apply succeeds_ret.
Qed.

(** A contact in range goes through a well-formed rotor to a contact in
    range, in either direction. *)
Lemma through_rotor_total r c :
  rotor_wf r -> 0 <= c < 26 ->
  exists c', (w <- getitem (Rotor.rotor_wiring r) c ;; index w (Rotor.label r)) = Ok c' /\
             0 <= c' < 26.
Proof.
  intros [Hl Hw] Hc.
  destruct (getitem_defined (Rotor.rotor_wiring r) c) as [w Hwc];
    [now rewrite (is_wiring_length _ Hw)|].
  rewrite Hwc. cbn [res_bind].
  destruct (index_In w (Rotor.label r)) as [c' Hc'].
  { apply (is_wiring_In _ w Hl), (is_wiring_In _ w Hw). eapply getitem_In; [|exact Hwc]. lia. }
  exists c'. split; [exact Hc'|].
  apply index_bounds in Hc'. now rewrite (is_wiring_length _ Hl) in Hc'.
Qed.

Lemma back_through_rotor_total r c :
  rotor_wf r -> 0 <= c < 26 ->
  exists c', (w <- getitem (Rotor.label r) c ;; index w (Rotor.rotor_wiring r)) = Ok c' /\
             0 <= c' < 26.
Proof.
  intros [Hl Hw] Hc.
  destruct (getitem_defined (Rotor.label r) c) as [w Hwc];
    [now rewrite (is_wiring_length _ Hl)|].
  rewrite Hwc. cbn [res_bind].
  destruct (index_In w (Rotor.rotor_wiring r)) as [c' Hc'].
  { apply (is_wiring_In _ w Hw), (is_wiring_In _ w Hl). eapply getitem_In; [|exact Hwc]. lia. }
  exists c'. split; [exact Hc'|].
  apply index_bounds in Hc'. now rewrite (is_wiring_length _ Hw) in Hc'.
Qed.

Lemma forward_total d c :
  Forall rotor_wf d -> 0 <= c < 26 ->
  exists c', Enigma.forward d c = Ok c' /\ 0 <= c' < 26.
Proof.
  intros Hwf. revert c. induction Hwf as [|r d Hr _ IH]; intros c Hc.
  - exists c. split; [reflexivity|exact Hc].
  - rewrite forward_cons. destruct (through_rotor_total r c Hr Hc) as (c1 & -> & Hc1).
    cbn [res_bind]. apply IH, Hc1.
Qed.

Lemma backward_total d c :
  Forall rotor_wf d -> 0 <= c < 26 ->
  exists c', Enigma.backward d c = Ok c' /\ 0 <= c' < 26.
Proof.
  intros Hwf. revert c. induction Hwf as [|r d Hr _ IH]; intros c Hc.
  - exists c. split; [reflexivity|exact Hc].
  - rewrite backward_cons. destruct (IH c Hc) as (c1 & -> & Hc1).
    cbn [res_bind]. apply back_through_rotor_total; assumption.
Qed.

(** A proper board answers on every letter, with a letter. *)
Lemma plug_encode_total pb x :
  PlugboardFacts.pb_inv pb -> plugboard_proper pb -> In x alphabet ->
  exists y, Plugboard.encode pb x = Ok y /\ In y alphabet.
Proof.
  intros [Hv _ _] Hp Hx. unfold Plugboard.encode. rewrite PlugboardFacts.plug_encode_find.
  destruct (find_lead x (Plugboard.plug_leads pb)) as [l|] eqn:E; [|eauto].
  destruct (find_lead_In _ _ _ E) as [Hl Hxl].
  assert (Hvl : valid l) by (rewrite Forall_forall in Hv; auto).
  assert (Hpl : List.length (lead_mapping l) <> 1%nat)
    by (unfold plugboard_proper in Hp; rewrite Forall_forall in Hp; auto).
  revert Hvl Hpl Hxl. unfold valid, PlugLead.encode. destruct l as [m]. simpl.
  destruct m as [|a [|b [|c r]]]; simpl; try tauto; try lia.
  intros (Hab & Ha & Hb) _ [<-|[<-|[]]]; dec_cases; eauto.
Qed.

Lemma reflector_index_bounds rf x i :
  reflector_inv rf -> Reflector.encode rf x = Ok (Reflector.CInt i) -> 0 <= i < 26.
Proof.
  intros [_ _ _ Hl]. unfold Reflector.encode. rewrite Hl, ReflectorFacts.refl_encode_find.
  destruct (find_lead x (Reflector.wiring rf)) as [l|]; [|discriminate].
  destruct (PlugLead.encode l x) as [y|]; cbn [res_bind]; [|discriminate].
  destruct (index y alphabet) as [iy|] eqn:Eiy; cbn [res_bind]; [|discriminate].
  intros [= <-]. apply index_bounds in Eiy. exact Eiy.
Qed.

Lemma alphabet_getitem c : 0 <= c < 26 -> exists l, getitem alphabet c = Ok l /\ In l alphabet.
Proof.
  intros Hc. destruct (getitem_defined alphabet c) as [l Hl]; [exact Hc|].
  exists l. split; [exact Hl|]. eapply getitem_In; [|exact Hl]. lia.
Qed.

(** A letter goes through the whole path and comes out as a letter. *)
Lemma encode_letter_total self d pb rf x :
  Enigma.plugboard self = Some pb -> PlugboardFacts.pb_inv pb -> plugboard_proper pb ->
  Enigma.reflector self = Some rf -> reflector_inv rf -> reflector_complete rf ->
  Enigma.wiring self = alphabet -> Forall rotor_wf d -> In x alphabet ->
  exists y, Enigma.encode_letter self d x = Ok y /\ In y alphabet.
Proof.
  intros Hpb Hpbi Hpp Hrf Hrfi Hrc Hw Hwf Hx.
  unfold Enigma.encode_letter, Enigma.get_plugboard, Enigma.get_reflector.
  rewrite Hpb, Hrf, Hw. cbn [res_bind].
  destruct (plug_encode_total pb x Hpbi Hpp Hx) as (p & -> & Hp). cbn [res_bind].
  destruct (index_In p alphabet Hp) as [c0 Hc0]. rewrite Hc0. cbn [res_bind].
  pose proof (index_bounds _ _ _ Hc0) as Hb0.
  destruct (forward_total d c0 Hwf Hb0) as (cn & -> & Hcn). cbn [res_bind].
  destruct (alphabet_getitem cn Hcn) as (l & -> & Hl). cbn [res_bind].
  destruct (Hrc l Hl) as [i Hi]. rewrite Hi. cbn [res_bind].
  pose proof (reflector_index_bounds rf l i Hrfi Hi) as Hib.
  destruct (backward_total d i Hwf Hib) as (b & -> & Hb). cbn [res_bind].
  destruct (alphabet_getitem b Hb) as (l2 & -> & Hl2). cbn [res_bind].
  exact (plug_encode_total pb l2 Hpbi Hpp Hl2).
Qed.

Lemma encode_letters_total self pb rf :
  Enigma.plugboard self = Some pb -> PlugboardFacts.pb_inv pb -> plugboard_proper pb ->
  Enigma.reflector self = Some rf -> reflector_inv rf -> reflector_complete rf ->
  Enigma.wiring self = alphabet ->
  forall s flag enc d,
    drum_ok d -> Forall (fun c => In c alphabet) s ->
    exists d' out,
      Enigma.encode_letters self s flag enc d = (d', Ok (enc ++ out)) /\
      drum_kept d d' /\ Forall (fun c => In c alphabet) out.
Proof.
  intros Hpb Hpbi Hpp Hrf Hrfi Hrc Hw.
  induction s as [|c s IH]; intros flag enc d Hd Hs; simpl.
  - exists d, []. rewrite app_nil_r. repeat split; [apply drum_kept_refl|constructor].
  - inversion Hs as [|? ? Hc Hs']; subst. unfold m_bind at 1. rewrite Hw.
    pose proof (keeps_step_rotors alphabet flag d) as Hk1.
    destruct (succeeds_step_rotors flag d Hd) as (d1 & flag' & E1 & Hd1 & _).
    rewrite E1 in *. cbn [fst] in Hk1.
    unfold m_bind at 1, m_read.
    destruct (encode_letter_total self d1 pb rf c Hpb Hpbi Hpp Hrf Hrfi Hrc Hw (proj2 Hd1) Hc)
      as (c' & -> & Hc').
    unfold m_bind at 1.
    pose proof (keeps_drum_call 0 (fun r => Rotor.set_rotor_offset r 1)
                  (set_rotor_offset_kept 1) d1) as Hk2.
    destruct (succeeds_drum_call 0 (fun r => Rotor.set_rotor_offset r 1)
                ltac:(lia) (set_rotor_offset_kept 1) d1 Hd1) as (d2 & [] & E2 & Hd2 & _).
    rewrite E2 in *. cbn [fst] in Hk2.
    destruct (IH flag' (enc ++ [c']) d2 Hd2 Hs') as (d' & out & E3 & Hk3 & Hout).
    exists d', (c' :: out). rewrite E3, <- app_assoc. repeat split.
    + eapply drum_kept_trans; [exact Hk1|]. eapply drum_kept_trans; [exact Hk2|exact Hk3].
    + now constructor.
Qed.

End TotalFacts.

Lemma run_total (e : Enigma.t) (pb : Plugboard.t) (rf : Reflector.t)
    (s : list ascii)
    (Hconf : enigma_configured e)
    (Hdrum : (3 <= List.length (Enigma.drum e))%nat)
    (Hpb : Enigma.plugboard e = Some pb) (Hpp : plugboard_proper pb)
    (Hrf : Enigma.reflector e = Some rf) (Hrc : reflector_complete rf)
    (Hs : Forall (fun c => In c alphabet) s) :
  exists out,
    Enigma.encode_sequence e s = (e, Ok out) /\
    List.length out = List.length s /\
    Forall (fun c => In c alphabet) out.
Proof.
  destruct Hconf as ((pb' & Hpb' & Hpbr) & Hfresh & (ty & w & rf' & Hrf' & Hnew) & Hw).
  assert (pb' = pb) by congruence. assert (rf' = rf) by congruence. subst pb' rf'.
  pose proof (EngineFacts.fresh_wf _ Hfresh) as Hwf.
  assert (Hd : drum_ok (Enigma.drum e)) by (split; assumption).
  destruct (TotalFacts.succeeds_drum_get 2 ltac:(lia) _ Hd) as (d0 & r2 & E2 & _ & Hr2).
  unfold Enigma.drum_get in E2.
  destruct (nth_error (Enigma.drum e) 2) as [r2'|] eqn:En; [|discriminate].
  injection E2 as <- <-.
  destruct (TotalFacts.third_notch_init_total r2' Hr2) as [flag Hflag].
  destruct (TotalFacts.encode_letters_total e pb rf Hpb
              (PlugboardFacts.reachable_pb_inv pb Hpbr) Hpp Hrf
              (ReflectorFacts.rf_inv_new ty w rf Hnew) Hrc Hw
              s flag [] (Enigma.drum e) Hd Hs) as (d1 & out & El & Hk & Hout).
  simpl in El. exists out.
  rewrite <- Hw in Hflag.
  pose proof (MessageFacts.encode_loop_of_letters e s _ _ _ r2' flag En Hflag El) as Hloop.
  pose proof (EngineFacts.reset_drum_fresh _ _ Hfresh (EngineFacts.drum_kept_config _ _ Hk))
    as Hreset.
  assert (Hlen : 3 <= Z.of_nat (List.length (Enigma.drum e))) by lia.
  pose proof (MessageFacts.encode_sequence_intro e s d1 (Enigma.drum e) out Hlen Hloop Hreset)
    as Hrun.
  rewrite RunFacts.with_drum_same in Hrun.
  split; [exact Hrun|]. split; [|exact Hout].
  exact (SearchFacts.encode_sequence_output_length e s e out Hrun).
Qed.

(** On an engine freshly set up with at least three rotors, a plugboard
    without one-letter leads and a reflector that wires every letter, every
    message of upper-case letters is encoded: the call returns normally, the
    engine is back in its starting configuration, and the output is a
    message of upper-case letters of the same length. *)
Theorem encode_sequence_total (e : Enigma.t) (pb : Plugboard.t) (rf : Reflector.t)
    (s : list ascii)
    (Hconf : enigma_configured e)
    (Hdrum : (3 <= List.length (Enigma.drum e))%nat)
    (Hpb : Enigma.plugboard e = Some pb) (Hpp : plugboard_proper pb)
    (Hrf : Enigma.reflector e = Some rf) (Hrc : reflector_complete rf)
    (Hs : Forall (fun c => In c alphabet) s) :
  exists out,
    Enigma.encode_sequence e s = (e, Ok out) /\
    List.length out = List.length s /\
    Forall (fun c => In c alphabet) out.
Proof.
  exact (run_total e pb rf s Hconf Hdrum Hpb Hpp Hrf Hrc Hs).
Qed.

Lemma catalog_reflector_complete ty rf :
  In ty ["A"; "B"; "C"; "a"; "b"; "c"] -> Reflector.new ty None = Ok rf ->
  reflector_complete rf.
Proof.
  intros Hty Hnew c Hc.
  pose proof reflector_swaps_catalog as H.
  rewrite forallb_forall in H. specialize (H ty Hty).
  rewrite forallb_forall in H. specialize (H c Hc).
  destruct (reflector_swaps_sound ty c H) as (rf' & i & _ & _ & Hnew' & Hi & _).
  assert (rf' = rf) by congruence. subst rf'. eauto.
Qed.

Lemma sample_plugboard_proper : plugboard_proper (build_plugboard ["KI"; "XN"; "FL"]).
Proof.
  unfold plugboard_proper.
  assert (E : Plugboard.plug_leads (build_plugboard ["KI"; "XN"; "FL"])
              = [PlugLead.new "KI"; PlugLead.new "XN"; PlugLead.new "FL"])
    by (vm_compute; reflexivity).
  rewrite E.
  apply Forall_cons; [vm_compute; discriminate|].
  apply Forall_cons; [vm_compute; discriminate|].
  apply Forall_cons; [vm_compute; discriminate|].
  apply Forall_nil.
Qed.

Lemma sample_code_letters : Forall (fun c => In c alphabet) sample_code.
Proof.
  apply Forall_forall. intros c Hc. apply char_in_In.
  assert (H : forallb (fun c => char_in c alphabet) sample_code = true)
    by (vm_compute; reflexivity).
  rewrite forallb_forall in H. now apply H.
Qed.

Lemma encode_sequence_total_witness :
  exists out,
    Enigma.encode_sequence sample_engine sample_code = (sample_engine, Ok out) /\
    List.length out = List.length sample_code /\
    Forall (fun c => In c alphabet) out.
Proof.
  destruct (Reflector.new "c" None) as [rf|] eqn:E; [|vm_compute in E; discriminate].
  apply (encode_sequence_total sample_engine (build_plugboard ["KI"; "XN"; "FL"]) rf).
  - exact sample_engine_configured.
  - vm_compute. lia.
  - vm_compute. reflexivity.
  - exact sample_plugboard_proper.
  - unfold sample_engine, build_enigma. rewrite E. vm_compute. reflexivity.
  - apply (catalog_reflector_complete "c"); [simpl; tauto|exact E].
  - exact sample_code_letters.
Defined.

(** ** The rotor constructor *)

Module ConstructorFacts.

Import Rotor RotorFacts.

Lemma index_not_In x l : ~ In x l -> index x l = Raise ValueError.
Proof.
  induction l as [|y l IH]; simpl; [reflexivity|].
  intros H. destruct (Ascii.eqb x y) eqn:E.
  - apply Ascii.eqb_eq in E. subst. tauto.
  - rewrite IH by tauto. reflexivity.
Qed.

Lemma dict_getitem_missing {V} (d : list (string * V)) k :
  ~ In k (map fst d) -> dict_getitem d k = Raise KeyError.
Proof.
  induction d as [|[k' v] d IH]; simpl; [reflexivity|].
  intros H. destruct (String.eqb k k') eqn:E.
  - apply String.eqb_eq in E. subst. tauto.
  - apply IH. tauto.
Qed.

Lemma dict_getitem_present {V} (d : list (string * V)) k :
  In k (map fst d) -> exists v, dict_getitem d k = Ok v.
Proof.
  induction d as [|[k' v] d IH]; simpl; [tauto|].
  intros H. destruct (String.eqb k k') eqn:E; [eauto|].
  destruct H as [->|H]; [now rewrite String.eqb_refl in E|auto].
Qed.

(** The notch a constructed rotor ends with. *)
Lemma new_notch ty p r self n0 :
  new ty p r = Ok self -> 1 <= r ->
  dict_getitem RotorData.notch (str_lower ty) = Ok n0 ->
  notch self = match n0 with
               | NInt n => NInt ((n - r) mod 26 + 1)
               | NFalse => NFalse
               end.
Proof.
  unfold new. intros Hnew Hr En. rewrite En in Hnew. cbn [res_bind] in Hnew.
  destruct (catalog_rotor _ _ En) as [[w0 [Ew Hw]] Hn0].
  rewrite Ew, alpha_sequence in Hnew. cbn [res_bind] in Hnew.
  destruct (set_rotor_to_initial_position _ p) as [base|] eqn:Eb;
    cbn [res_bind] in Hnew; [|discriminate].
  injection Hnew as <-.
  pose proof (RingFacts.initial_position_notch _ _ _ Eb) as Hnb. cbn [notch] in Hnb.
  unfold set_rotor_ring_setting. destruct n0 as [n|].
  - rewrite (RingFacts.ring_steps_notch _ base n Hnb Hn0). f_equal. f_equal. f_equal. lia.
  - now apply RingFacts.ring_steps_no_notch.
Qed.

Lemma steps_keep self k :
  rotor_wf self ->
  rotor_wf (Nat.iter k (fun s => rotate_rotor s (-1)) self) /\
  notch (Nat.iter k (fun s => rotate_rotor s (-1)) self) = notch self.
Proof.
  intros Hwf. induction k as [|k [IH1 IH2]]; [split; [exact Hwf|reflexivity]|].
  rewrite Nat.iter_succ. split; [now apply rotate_wf|exact IH2].
Qed.

Lemma rotate_right_left {A} (l : list A) : rotate_right1 (rotate_left1 l) = l.
Proof.
  destruct l as [|a l]; [reflexivity|]. simpl. unfold rotate_right1.
  destruct (l ++ [a]) as [|b t] eqn:E; [now destruct l|].
  rewrite <- E, last_last, removelast_last. reflexivity.
Qed.

Lemma skipn_step {A} (l : list A) k a :
  nth_error l k = Some a ->
  skipn k l = a :: skipn (S k) l /\ firstn (S k) l = firstn k l ++ [a].
Proof.
  revert k. induction l as [|b l IH]; intros [|k]; simpl; try discriminate.
  - intros [= ->]. split; reflexivity.
  - intros H. destruct (IH k H) as [E1 E2]. split; [exact E1|].
    simpl in E2. now rewrite E2.
Qed.

Lemma iter_rotate_left {A} (l : list A) k :
  (k <= List.length l)%nat -> Nat.iter k rotate_left1 l = skipn k l ++ firstn k l.
Proof.
  induction k as [|k IH]; intros Hk.
  - simpl. now rewrite app_nil_r.
  - rewrite Nat.iter_succ, IH by lia.
    destruct (nth_error l k) as [a|] eqn:E; [|apply nth_error_None in E; lia].
    destruct (skipn_step l k a E) as [-> ->]. simpl.
    now rewrite <- app_assoc.
Qed.

Lemma full_turn {A} (l : list A) : Nat.iter (List.length l) rotate_left1 l = l.
Proof.
  rewrite iter_rotate_left by lia. now rewrite skipn_all, firstn_all.
Qed.

Lemma iter_rotate_rotor self k :
  Nat.iter k (fun s => rotate_rotor s (-1)) self =
  with_label (with_rotor_wiring self (Nat.iter k rotate_left1 (rotor_wiring self)))
             (Nat.iter k rotate_left1 (label self)).
Proof.
  induction k as [|k IH]; [now destruct self|].
  rewrite !Nat.iter_succ, IH. reflexivity.
Qed.

End ConstructorFacts.

(** [Rotor(rotor_type, initial_position, ring_setting)] builds a rotor exactly
    when the type, in any case, is one of I, II, III, IV, V, Beta and Gamma
    and the initial position is an upper-case letter; another type raises
    [KeyError], another position [ValueError]; the ring setting can be any
    integer. *)
Theorem rotor_constructor_accepts (ty : string) (p : ascii) (r : Z) :
  let names := ["i"; "ii"; "iii"; "iv"; "v"; "beta"; "gamma"] in
  (In (str_lower ty) names -> In p alphabet ->
   exists self, Rotor.new ty p r = Ok self /\
                Rotor.rotor_type self = ty /\ Rotor.initial_position self = p /\
                Rotor.ring_setting self = r) /\
  (~ In (str_lower ty) names -> Rotor.new ty p r = Raise KeyError) /\
  (In (str_lower ty) names -> ~ In p alphabet -> Rotor.new ty p r = Raise ValueError).
Proof.
  intros names.
  assert (Hnames : map fst RotorData.notch = names) by reflexivity.
  assert (Hstart : forall n w, In p alphabet ->
            exists base, Rotor.set_rotor_to_initial_position
                           (Rotor.mk n ty 1 w alphabet p r) p = Ok base).
  { intros n w Hp. unfold Rotor.set_rotor_to_initial_position. cbn [Rotor.label].
    destruct (index_In p alphabet Hp) as [i ->]. cbn [res_bind]. eauto. }
  split; [|split].
  - intros Hty Hp. rewrite <- Hnames in Hty.
    destruct (ConstructorFacts.dict_getitem_present _ _ Hty) as [n En].
    destruct (RotorFacts.catalog_rotor _ _ En) as [[w [Ew Hw]] _].
    destruct (Hstart n w Hp) as [base Eb].
    assert (Hnew : Rotor.new ty p r = Ok (Rotor.set_rotor_ring_setting base r)).
    { unfold Rotor.new. rewrite En. cbn [res_bind].
      rewrite Ew, RotorFacts.alpha_sequence. cbn [res_bind]. rewrite Eb. reflexivity. }
    eexists. split; [exact Hnew|]. apply (RotorFacts.new_spec _ _ _ _ Hnew).
  - intros Hty. rewrite <- Hnames in Hty. unfold Rotor.new.
    now rewrite (ConstructorFacts.dict_getitem_missing _ _ Hty).
  - intros Hty Hp. rewrite <- Hnames in Hty.
    destruct (ConstructorFacts.dict_getitem_present _ _ Hty) as [n En].
    destruct (RotorFacts.catalog_rotor _ _ En) as [[w [Ew Hw]] _].
    unfold Rotor.new. rewrite En. cbn [res_bind].
    rewrite Ew, RotorFacts.alpha_sequence. cbn [res_bind].
    unfold Rotor.set_rotor_to_initial_position. cbn [Rotor.label].
    now rewrite (ConstructorFacts.index_not_In _ _ Hp).
Qed.

(** A rotor whose ring setting brings its notch number to 26 never has its
    notch at the stepping contact, however many steps it takes: the contact
    is compared with an index of the alphabet, which is at most 25.  Rotor V
    at ring setting 1 is such a rotor. *)
Theorem notch_26_never_fires (ty : string) (p : ascii) (r n : Z) (self : Rotor.t)
    (Hnew : Rotor.new ty p r = Ok self) (Hr : 1 <= r <= 26)
    (Hn : dict_getitem RotorData.notch (str_lower ty) = Ok (NInt n))
    (Hring : (n - r) mod 26 = 25) :
  Rotor.notch self = NInt 26 /\
  forall k, Enigma.on_notch alphabet (Nat.iter k (fun s => Rotor.rotate_rotor s (-1)) self)
            = Ok false.
Proof.
  assert (Hnotch : Rotor.notch self = NInt 26).
  { rewrite (ConstructorFacts.new_notch ty p r self (NInt n) Hnew (proj1 Hr) Hn), Hring.
    reflexivity. }
  split; [exact Hnotch|]. intros k.
  destruct (RotorFacts.new_spec _ _ _ _ Hnew) as [Hwf _].
  destruct (ConstructorFacts.steps_keep self k Hwf) as [Hwfk Hnk].
  unfold Enigma.on_notch. rewrite Hnk, Hnotch. cbn [is_int int_of].
  destruct (TotalFacts.label_letter_index _ 0 Hwfk) as (c & j & -> & Hj); [lia|].
  cbn [res_bind]. rewrite Hj. cbn [res_bind].
  apply index_bounds in Hj. simpl in Hj.
  destruct (26 =? j) eqn:E; [apply Z.eqb_eq in E; lia|reflexivity].
Qed.

Lemma notch_26_never_fires_witness :
  Rotor.notch (build_rotor "V" "A"%char 1) = NInt 26 /\
  Enigma.on_notch alphabet
    (Nat.iter 26 (fun s => Rotor.rotate_rotor s (-1)) (build_rotor "V" "A"%char 1)) = Ok false.
Proof.
  assert (Hnew : Rotor.new "V" "A"%char 1 = Ok (build_rotor "V" "A"%char 1))
    by (vm_compute; reflexivity).
  destruct (notch_26_never_fires "V" "A"%char 1 26 _ Hnew ltac:(lia) eq_refl eq_refl)
    as [H1 H2].
  split; [exact H1|exact (H2 26%nat)].
Defined.

(** A step backwards undoes a step, and 26 steps bring a rotor back to where
    it was. *)
Theorem rotor_rotation_round_trip (self : Rotor.t) (Hreach : rotor_reachable self) :
  Rotor.rotate_rotor (Rotor.rotate_rotor self (-1)) 1 = self /\
  Nat.iter 26 (fun s => Rotor.rotate_rotor s (-1)) self = self.
Proof.
  destruct (RotorReach.reachable_inv self Hreach) as [[Hl Hw] _].
  split.
  - destruct self as [n ty o w l p r].
    unfold Rotor.rotate_rotor, Rotor.rotate, Rotor.with_label, Rotor.with_rotor_wiring.
    cbn [Rotor.notch Rotor.rotor_type Rotor.rotor_offset Rotor.rotor_wiring Rotor.label
         Rotor.initial_position Rotor.ring_setting].
    change (deque_rotate 1 (deque_rotate (-1) w)) with (rotate_right1 (rotate_left1 w)).
    change (deque_rotate 1 (deque_rotate (-1) l)) with (rotate_right1 (rotate_left1 l)).
    now rewrite !ConstructorFacts.rotate_right_left.
  - rewrite ConstructorFacts.iter_rotate_rotor.
    pose proof (ConstructorFacts.full_turn (Rotor.rotor_wiring self)) as Fw.
    rewrite (is_wiring_length _ Hw) in Fw.
    pose proof (ConstructorFacts.full_turn (Rotor.label self)) as Fl.
    rewrite (is_wiring_length _ Hl) in Fl.
    rewrite Fw, Fl. now destruct self.
Qed.

Lemma rotor_rotation_round_trip_witness :
  Nat.iter 26 (fun s => Rotor.rotate_rotor s (-1)) (build_rotor "III" "V"%char 15)
  = build_rotor "III" "V"%char 15.
Proof.
  refine (proj2 (rotor_rotation_round_trip (build_rotor "III" "V"%char 15) _)).
  apply (rot_reach_new "III" "V"%char 15). vm_compute. reflexivity.
Defined.

(** ** Reflectors with a given wiring *)

(** Any constructed reflector, from the catalog or from a given list of
    pairs, has no letter on two wires (a pair that reuses a letter is
    dropped); where it answers with an index, that index is the place of
    another letter, which it sends back to the place of the first; and a
    letter on no wire is returned as it is, not as an index. *)
Theorem reflector_is_involution (ty : string) (w : option (list string)) (rf : Reflector.t)
    (Hnew : Reflector.new ty w = Ok rf) :
  Leads.disjoint (Reflector.wiring rf) /\
  (forall x ix i,
     index x alphabet = Ok ix -> Reflector.encode rf x = Ok (Reflector.CInt i) ->
     exists y, getitem alphabet i = Ok y /\ y <> x /\
               Reflector.encode rf y = Ok (Reflector.CInt ix)) /\
  (forall x c, Reflector.encode rf x = Ok (Reflector.CStr c) ->
               c = x /\ ~ In x (Leads.letters (Reflector.wiring rf))).
Proof.
  pose proof (ReflectorFacts.rf_inv_new ty w rf Hnew) as Hinv.
  split; [apply (rf_inv_disjoint _ Hinv)|]. split.
  - intros x ix i Hix Hi.
    destruct (ReflectorFacts.refl_encode_involutive rf x ix i Hinv Hix Hi) as (_ & y & Hy & Hback).
    exists y. split; [exact Hy|]. split; [|exact Hback].
    intros ->. apply (FixpointFacts.refl_encode_no_fixpoint rf x i Hinv Hi).
    apply getitem_index; [apply alphabet_NoDup| |exact Hy].
    apply (TotalFacts.reflector_index_bounds rf x i Hinv Hi).
  - intros x c. unfold Reflector.encode. rewrite ReflectorFacts.refl_encode_find.
    destruct (Leads.find_lead x (Reflector.wiring rf)) as [l|] eqn:E.
    + destruct (PlugLead.encode l x); cbn [res_bind]; [|discriminate].
      destruct (index _ _); cbn [res_bind]; discriminate.
    + intros [= <-]. split; [reflexivity|]. now apply LeadFacts.find_lead_None.
Qed.

Lemma reflector_is_involution_witness :
  exists rf,
    Reflector.new "b" (Some ["AB"; "BC"; "CD"]) = Ok rf /\
    Leads.disjoint (Reflector.wiring rf) /\
    Reflector.encode rf "B"%char = Ok (Reflector.CInt 0) /\
    Reflector.encode rf "E"%char = Ok (Reflector.CStr "E"%char).
Proof.
  destruct (Reflector.new "b" (Some ["AB"; "BC"; "CD"])) as [rf|] eqn:E;
    [|vm_compute in E; discriminate].
  exists rf. split; [reflexivity|].
  destruct (reflector_is_involution "b" (Some ["AB"; "BC"; "CD"]) rf E) as (H1 & _ & _).
  split; [exact H1|].
  vm_compute in E. injection E as <-. split; vm_compute; reflexivity.
Defined.

(** ** A character that is not a letter *)

Module StrayFacts.

Import PlugLead Leads LeadFacts RotorFacts DrumFacts EngineFacts TotalFacts.

Lemma slot0_ret {A} (a : A) : keeps_slot0 (m_ret a).
Proof. intros d. reflexivity. Qed.

Lemma slot0_lift {A} (r : res A) : keeps_slot0 (m_lift r).
Proof. intros d. reflexivity. Qed.

Lemma slot0_read {A} (f : list Rotor.t -> res A) : keeps_slot0 (m_read f).
Proof. intros d. reflexivity. Qed.

Lemma slot0_bind {A B} (c : M (list Rotor.t) A) (k : A -> M (list Rotor.t) B) :
  keeps_slot0 c -> (forall a, keeps_slot0 (k a)) -> keeps_slot0 (m_bind c k).
Proof.
  intros Hc Hk d. unfold m_bind. specialize (Hc d).
  destruct (c d) as [d' [a|e]]; cbn [fst] in *; [|exact Hc].
  now rewrite Hk.
Qed.

Lemma slot0_drum_get i : keeps_slot0 (Enigma.drum_get i).
Proof. intros d. unfold Enigma.drum_get. destruct (nth_error d i); reflexivity. Qed.

Lemma slot0_drum_call_other i f : keeps_slot0 (Enigma.drum_call (S i) f).
Proof.
  intros d. unfold Enigma.drum_call.
  destruct (nth_error d (S i)) as [r|]; [|reflexivity].
  destruct d as [|a d]; reflexivity.
Qed.

Lemma slot0_drum_call_offset n :
  keeps_slot0 (Enigma.drum_call 0 (fun r => Rotor.set_rotor_offset r n)).
Proof. intros [|a d]; reflexivity. Qed.

Lemma slot0_rotate_and_offset i : keeps_slot0 (Enigma.rotate_and_offset (S i)).
Proof.
  unfold Enigma.rotate_and_offset.
  apply slot0_bind; [apply slot0_drum_call_other|intros _; apply slot0_drum_call_other].
Qed.

(** One round of stepping turns the rotor in slot 0 by one step. *)
Lemma step_rotors_slot0 wiring flag d :
  option_map Rotor.label (nth_error (fst (Enigma.step_rotors wiring flag d)) 0)
  = option_map (fun r => rotate_left1 (Rotor.label r)) (nth_error d 0).
Proof.
  unfold Enigma.step_rotors. unfold m_bind at 1.
  destruct d as [|r0 d]; [reflexivity|].
  change (Enigma.drum_call 0 (fun r => Rotor.rotate_rotor r (-1)) (r0 :: d))
    with (Rotor.rotate_rotor r0 (-1) :: d, @Ok unit tt).
  cbv beta iota.
  match goal with
  | |- option_map _ (nth_error (fst (?c _)) 0) = _ =>
      assert (Hk : keeps_slot0 c)
  end.
  { apply slot0_bind; [apply slot0_drum_get|intros r].
    apply slot0_bind; [apply slot0_lift|intros c1].
    apply slot0_bind.
    { destruct c1; [|apply slot0_ret].
      apply slot0_bind; [apply slot0_rotate_and_offset|intros _; apply slot0_ret]. }
    intros flag1.
    apply slot0_bind; [apply slot0_drum_get|intros r0'].
    apply slot0_bind.
    { destruct (is_int (Rotor.notch r0')); [|apply slot0_ret].
      apply slot0_bind; [apply slot0_drum_get|intros r1; apply slot0_lift]. }
    intros c2.
    apply slot0_bind.
    { destruct c2; [apply slot0_rotate_and_offset|apply slot0_ret]. }
    intros _.
    apply slot0_bind; [apply slot0_drum_get|intros r1].
    apply slot0_bind; [apply slot0_lift|intros c4].
    destruct (c4 && flag1)%bool; [|apply slot0_ret].
    apply slot0_bind; [apply slot0_drum_call_other|intros _; apply slot0_ret]. }
  rewrite Hk. reflexivity.
Qed.

(** A board sends a character that is not a letter to itself. *)
Lemma plug_encode_stray pb x :
  PlugboardFacts.pb_inv pb -> ~ In x alphabet -> Plugboard.encode pb x = Ok x.
Proof.
  intros [Hv _ _] Hx. unfold Plugboard.encode. rewrite PlugboardFacts.plug_encode_find.
  destruct (find_lead x (Plugboard.plug_leads pb)) as [l|] eqn:E; [|reflexivity].
  destruct (find_lead_In _ _ _ E) as [Hl Hxl]. exfalso. apply Hx.
  apply (valid_In_alphabet l); [|exact Hxl]. rewrite Forall_forall in Hv. auto.
Qed.

Lemma encode_letter_stray self d pb x :
  Enigma.plugboard self = Some pb -> PlugboardFacts.pb_inv pb ->
  Enigma.wiring self = alphabet -> ~ In x alphabet ->
  Enigma.encode_letter self d x = Raise ValueError.
Proof.
  intros Hpb Hpbi Hw Hx. unfold Enigma.encode_letter, Enigma.get_plugboard.
  rewrite Hpb, Hw. cbn [res_bind]. rewrite (plug_encode_stray pb x Hpbi Hx). cbn [res_bind].
  now rewrite (ConstructorFacts.index_not_In x alphabet Hx).
Qed.

Lemma encode_letters_stray self pb rf :
  Enigma.plugboard self = Some pb -> PlugboardFacts.pb_inv pb -> plugboard_proper pb ->
  Enigma.reflector self = Some rf -> reflector_inv rf -> reflector_complete rf ->
  Enigma.wiring self = alphabet ->
  forall s x t flag enc d,
    drum_ok d -> Forall (fun c => In c alphabet) s -> ~ In x alphabet ->
    exists d',
      Enigma.encode_letters self (s ++ x :: t) flag enc d = (d', Raise ValueError) /\
      option_map Rotor.label (nth_error d' 0)
      = option_map (fun r => Nat.iter (S (List.length s)) rotate_left1 (Rotor.label r))
                   (nth_error d 0).
Proof.
  intros Hpb Hpbi Hpp Hrf Hrfi Hrc Hw.
  induction s as [|c s IH]; intros x t flag enc d Hd Hs Hx;
    cbn [app Enigma.encode_letters].
  - unfold m_bind at 1. rewrite Hw.
    pose proof (step_rotors_slot0 alphabet flag d) as H0.
    destruct (succeeds_step_rotors flag d Hd) as (d1 & flag' & E1 & Hd1 & _).
    rewrite E1 in *. cbn [fst] in H0.
    unfold m_bind at 1, m_read.
    rewrite (encode_letter_stray self d1 pb x Hpb Hpbi Hw Hx).
    exists d1. split; [reflexivity|exact H0].
  - inversion Hs as [|? ? Hc Hs']; subst. unfold m_bind at 1. rewrite Hw.
    pose proof (step_rotors_slot0 alphabet flag d) as H0.
    destruct (succeeds_step_rotors flag d Hd) as (d1 & flag' & E1 & Hd1 & _).
    rewrite E1 in *. cbn [fst] in H0.
    unfold m_bind at 1, m_read.
    destruct (encode_letter_total self d1 pb rf c Hpb Hpbi Hpp Hrf Hrfi Hrc Hw (proj2 Hd1) Hc)
      as (c' & -> & Hc').
    unfold m_bind at 1.
    pose proof (slot0_drum_call_offset 1 d1) as H1.
    destruct (succeeds_drum_call 0 (fun r => Rotor.set_rotor_offset r 1)
                ltac:(lia) (set_rotor_offset_kept 1) d1 Hd1) as (d2 & [] & E2 & Hd2 & _).
    rewrite E2 in *. cbn [fst] in H1.
    destruct (IH x t flag' (enc ++ [c']) d2 Hd2 Hs' Hx) as (d' & E3 & H3).
    exists d'. split; [exact E3|]. rewrite H3.
    destruct (nth_error d2 0) as [a2|], (nth_error d1 0) as [a1|], (nth_error d 0) as [a0|];
      cbn [option_map] in *; try discriminate; try reflexivity.
    injection H1 as H1. injection H0 as H0. rewrite H1, H0.
    f_equal. cbn [List.length]. rewrite <- !Nat.iter_succ_r. reflexivity.
Qed.

Lemma encode_sequence_raise_intro e s d1 err :
  3 <= Z.of_nat (List.length (Enigma.drum e)) ->
  Enigma.encode_loop e s (Enigma.drum e) = (d1, Raise err) ->
  Enigma.encode_sequence e s = (Enigma.with_drum e d1, Raise err).
Proof.
  intros Hlen Hloop. unfold Enigma.encode_sequence.
  destruct (Z.of_nat (List.length (Enigma.drum e)) <? 3) eqn:E;
    [apply Z.ltb_lt in E; lia|].
  unfold m_bind at 1. now rewrite Hloop.
Qed.

End StrayFacts.

(** A message with a character that is not an upper-case letter, after a
    run of upper-case letters, makes [encode_sequence] raise [ValueError], and
    the rotors are not reset: the engine is left with the rotor of slot 0
    turned by one step for each letter read, the stray character included. *)
Theorem stray_character_raises (e : Enigma.t) (pb : Plugboard.t) (rf : Reflector.t)
    (s t : list ascii) (x : ascii)
    (Hconf : enigma_configured e)
    (Hdrum : (3 <= List.length (Enigma.drum e))%nat)
    (Hpb : Enigma.plugboard e = Some pb) (Hpp : plugboard_proper pb)
    (Hrf : Enigma.reflector e = Some rf) (Hrc : reflector_complete rf)
    (Hs : Forall (fun c => In c alphabet) s) (Hx : ~ In x alphabet) :
  snd (Enigma.encode_sequence e (s ++ x :: t)) = Raise ValueError /\
  option_map Rotor.label (nth_error (Enigma.drum (fst (Enigma.encode_sequence e (s ++ x :: t)))) 0)
  = option_map (fun r => Nat.iter (S (List.length s)) rotate_left1 (Rotor.label r))
               (nth_error (Enigma.drum e) 0).
Proof.
  destruct Hconf as ((pb' & Hpb' & Hpbr) & Hfresh & (ty & w & rf' & Hrf' & Hnew) & Hw).
  assert (pb' = pb) by congruence. assert (rf' = rf) by congruence. subst pb' rf'.
  pose proof (EngineFacts.fresh_wf _ Hfresh) as Hwf.
  assert (Hd : drum_ok (Enigma.drum e)) by (split; assumption).
  destruct (TotalFacts.succeeds_drum_get 2 ltac:(lia) _ Hd) as (d0 & r2 & E2 & _ & Hr2).
  unfold Enigma.drum_get in E2.
  destruct (nth_error (Enigma.drum e) 2) as [r2'|] eqn:En; [|discriminate].
  injection E2 as <- <-.
  destruct (TotalFacts.third_notch_init_total r2' Hr2) as [flag Hflag].
  destruct (StrayFacts.encode_letters_stray e pb rf Hpb
              (PlugboardFacts.reachable_pb_inv pb Hpbr) Hpp Hrf
              (ReflectorFacts.rf_inv_new ty w rf Hnew) Hrc Hw
              s x t flag [] (Enigma.drum e) Hd Hs Hx) as (d1 & El & Hslot).
  rewrite <- Hw in Hflag.
  assert (Hrun : Enigma.encode_sequence e (s ++ x :: t)
                 = (Enigma.with_drum e d1, Raise ValueError)).
  { apply StrayFacts.encode_sequence_raise_intro; [lia|].
    unfold Enigma.encode_loop, m_bind, m_lift, Enigma.drum_get.
    now rewrite En, Hflag, El. }
  rewrite Hrun. split; [reflexivity|exact Hslot].
Qed.

Lemma sample_reflector_complete :
  exists rf, Enigma.reflector sample_engine = Some rf /\ reflector_complete rf.
Proof.
  destruct (Reflector.new "c" None) as [rf|] eqn:E; [|vm_compute in E; discriminate].
  exists rf. split.
  - unfold sample_engine, build_enigma. rewrite E. vm_compute. reflexivity.
  - apply (catalog_reflector_complete "c"); [simpl; tauto|exact E].
Qed.

Lemma stray_character_raises_witness :
  snd (Enigma.encode_sequence sample_engine (list_ascii_of_string "HELLO WORLD"))
  = Raise ValueError.
Proof.
  destruct sample_reflector_complete as (rf & Hrf & Hrc).
  refine (proj1 (stray_character_raises sample_engine (build_plugboard ["KI"; "XN"; "FL"]) rf
                   (list_ascii_of_string "HELLO") (list_ascii_of_string "WORLD") " "%char
                   sample_engine_configured _ _ sample_plugboard_proper Hrf Hrc _ _)).
  - vm_compute. lia.
  - vm_compute. reflexivity.
  - apply Forall_forall. intros c Hc. apply char_in_In.
    assert (H : forallb (fun c => char_in c alphabet) (list_ascii_of_string "HELLO") = true)
      by (vm_compute; reflexivity).
    rewrite forallb_forall in H. now apply H.
  - intros H. apply char_in_In in H. vm_compute in H. discriminate.
Defined.

(** * Further properties of the search engine *)

Module LoopFacts.

Import CodeBreaker.

Lemma fresh_run_same e e' s out :
  Forall rotor_fresh (Enigma.drum e) ->
  Enigma.encode_sequence e s = (e', Ok out) -> e' = e.
Proof.
  intros Hfresh Hrun.
  destruct (RunFacts.encode_sequence_ok _ _ _ _ Hrun) as (d1 & Hloop & Hreset & He').
  pose proof (RunFacts.keeps_encode_loop e s (Enigma.drum e)) as Hkept.
  rewrite Hloop in Hkept. cbn [fst] in Hkept.
  apply EngineFacts.drum_kept_config in Hkept.
  rewrite (EngineFacts.reset_drum_fresh _ _ Hfresh Hkept) in Hreset.
  injection Hreset as Hd. now rewrite <- Hd, RunFacts.with_drum_same in He'.
Qed.

Lemma with_enigma_same self : with_enigma self (enigma self) = self.
Proof. now destruct self. Qed.

End LoopFacts.

(** With every setting known, [encode] has nothing to search: if the text the
    engine gives for the code does not hold the crib, the loop tries the same
    engine again and again and never ends, whatever number of rounds it is
    given. *)
Theorem encode_without_unknowns_never_returns (self : CodeBreaker.t) (cypher : list ascii)
    (Hrf : CodeBreaker.is_missing "reflector" (CodeBreaker.missing_information self) = false)
    (Hsp : CodeBreaker.is_missing "starting_positions"
             (CodeBreaker.missing_information self) = false)
    (Hpl : CodeBreaker.is_missing "plugboard" (CodeBreaker.missing_information self) = false)
    (Hfresh : Forall rotor_fresh (Enigma.drum (CodeBreaker.enigma self)))
    (Hrun : snd (Enigma.encode_sequence (CodeBreaker.enigma self) (CodeBreaker.code self))
            = Ok cypher)
    (Hcrib : str_contains cypher (CodeBreaker.crib self) = false) :
  forall fuel, CodeBreaker.encode fuel self = None.
Proof.
  assert (Hstep : CodeBreaker.run_enigma self = (self, Ok cypher)).
  { unfold CodeBreaker.run_enigma.
    destruct (Enigma.encode_sequence (CodeBreaker.enigma self) (CodeBreaker.code self))
      as [e' r] eqn:E.
    cbn [snd] in Hrun. subst r.
    rewrite (LoopFacts.fresh_run_same _ _ _ _ Hfresh E).
    now rewrite LoopFacts.with_enigma_same. }
  unfold CodeBreaker.encode.
  generalize (CodeBreaker.d_starting_positions (CodeBreaker.data self)).
  generalize 0.
  intros i sp fuel. revert i sp. induction fuel as [|fuel IH]; intros i sp; [reflexivity|].
  cbn [CodeBreaker.encode_loop]. rewrite Hstep, Hcrib.
  unfold CodeBreaker.encode_next. rewrite Hrf, Hsp, Hpl. apply IH.
Qed.

Lemma encode_without_unknowns_never_returns_witness :
  CodeBreaker.encode 1000 (build_code_breaker known_settings_data) = None.
Proof.
  apply (encode_without_unknowns_never_returns (build_code_breaker known_settings_data)
           sample_message).
  - vm_compute. reflexivity.
  - vm_compute. reflexivity.
  - vm_compute. reflexivity.
  - assert (E : Enigma.drum (CodeBreaker.enigma (build_code_breaker known_settings_data))
                = [build_rotor "V" "M"%char 14; build_rotor "Gamma" "J"%char 2;
                   build_rotor "Beta" "M"%char 4]) by (vm_compute; reflexivity).
    rewrite E.
    apply Forall_cons; [apply build_rotor_fresh; vm_compute; reflexivity|].
    apply Forall_cons; [apply build_rotor_fresh; vm_compute; reflexivity|].
    apply Forall_cons; [apply build_rotor_fresh; vm_compute; reflexivity|].
    apply Forall_nil.
  - vm_compute. reflexivity.
  - vm_compute. reflexivity.
Defined.

(** ** The candidate spaces *)

Module SpaceFacts.

Lemma product3_In {A} (l : list A) t :
  In t (product3 l) <-> exists a b c, t = [a; b; c] /\ In a l /\ In b l /\ In c l.
Proof.
  unfold product3. rewrite in_flat_map. split.
  - intros (a & Ha & H). apply in_flat_map in H as (b & Hb & H).
    apply in_map_iff in H as (c & <- & Hc). exists a, b, c. auto.
  - intros (a & b & c & -> & Ha & Hb & Hc). exists a. split; [exact Ha|].
    apply in_flat_map. exists b. split; [exact Hb|].
    apply in_map_iff. exists c. auto.
Qed.

Lemma flat_map_const_length {A B} (f : A -> list B) (l : list A) n :
  (forall a, List.length (f a) = n) -> List.length (flat_map f l) = (List.length l * n)%nat.
Proof.
  intros Hf. induction l as [|a l IH]; simpl; [reflexivity|].
  rewrite length_app, Hf, IH. lia.
Qed.

Lemma product3_length {A} (l : list A) :
  List.length (product3 l) = (List.length l * (List.length l * List.length l))%nat.
Proof.
  unfold product3. apply flat_map_const_length. intros a.
  apply flat_map_const_length. intros b. apply length_map.
Qed.

End SpaceFacts.

(** The starting-position search space holds exactly the 17576 triples of
    upper-case letters, and the joint search space 98304 candidates: every
    triple of the eight even ring settings with every triple of the rotors
    II, IV, Beta and Gamma and every reflector a, b or c. *)
Theorem candidate_spaces :
  List.length CodeBreaker.get_possible_starting_positions = 17576%nat /\
  (forall t, In t CodeBreaker.get_possible_starting_positions <->
             exists a b c, t = [a; b; c] /\ In a alphabet /\ In b alphabet /\ In c alphabet) /\
  List.length (CodeBreaker.get_r3_combination ["a"; "b"; "c"]) = 98304%nat /\
  (forall rs ro rf,
     In (rs, ro, rf) (CodeBreaker.get_r3_combination ["a"; "b"; "c"]) <->
     In rs (product3 ["02"; "04"; "06"; "08"; "20"; "22"; "24"; "26"]) /\
     In ro (product3 ["II"; "IV"; "Beta"; "Gamma"]) /\
     In rf ["a"; "b"; "c"]).
Proof.
  split; [|split; [|split]].
  - unfold CodeBreaker.get_possible_starting_positions.
    rewrite SpaceFacts.product3_length. reflexivity.
  - intros t. apply SpaceFacts.product3_In.
  - unfold CodeBreaker.get_r3_combination.
    rewrite (SpaceFacts.flat_map_const_length _ _ (64 * 3)).
    + rewrite SpaceFacts.product3_length. reflexivity.
    + intros rs. rewrite (SpaceFacts.flat_map_const_length _ _ 3).
      * rewrite SpaceFacts.product3_length. reflexivity.
      * intros ro. apply length_map.
  - intros rs ro rf. unfold CodeBreaker.get_r3_combination.
    rewrite in_flat_map. split.
    + intros (rs' & Hrs & H). apply in_flat_map in H as (ro' & Hro & H).
      apply in_map_iff in H as (rf' & [= <- <- <-] & Hrf). auto.
    + intros (Hrs & Hro & Hrf). exists rs. split; [exact Hrs|].
      apply in_flat_map. exists ro. split; [exact Hro|].
      apply in_map_iff. exists rf. auto.
Qed.

(** ** The reflector search *)

Module ReflectorSearch.

Import CodeBreaker.

Lemma m_iter_add_rotor rs :
  forall self,
    (List.length (Enigma.drum (enigma self)) + List.length rs <= 4)%nat ->
    m_iter (fun rotor self =>
              let (e, r) := Enigma.add_rotor (enigma self) rotor in (with_enigma self e, r))
           rs self
    = (with_enigma self
         (Enigma.with_drum (enigma self) (Enigma.drum (enigma self) ++ rs)), Ok tt).
Proof.
  induction rs as [|r rs IH]; intros self Hlen.
  - simpl. unfold m_ret. rewrite app_nil_r, RunFacts.with_drum_same.
    now rewrite LoopFacts.with_enigma_same.
  - simpl in Hlen. cbn [m_iter]. unfold m_bind, Enigma.add_rotor.
    destruct (3 <? Z.of_nat (List.length (Enigma.drum (enigma self)))) eqn:E;
      [apply Z.ltb_lt in E; lia|].
    rewrite IH.
    + destruct self as [mi co cr en da pb rf ro rfs sps r3 pc rc]. destruct en as [p d f w].
      unfold with_enigma, Enigma.with_drum. simpl. now rewrite <- app_assoc.
    + destruct self as [mi co cr en da pb rf ro rfs sps r3 pc rc]. destruct en as [p d f w].
      simpl in *. rewrite length_app. simpl. lia.
Qed.

(** [setup_enigma] on a code breaker whose data describe at most four
    rotors. *)
Lemma setup_enigma_spec self rs :
  setup_rotors (data self) = Ok rs -> (List.length rs <= 4)%nat ->
  setup_enigma self
  = (with_enigma self (Enigma.mk (Some (plugboard self)) rs (Some (reflector self)) alphabet),
     Ok tt).
Proof.
  intros Hrs Hlen. unfold setup_enigma, m_bind at 1, m_modify.
  unfold m_bind at 1. unfold m_bind at 1, m_read.
  replace (data (with_enigma _ _)) with (data self) by reflexivity.
  rewrite Hrs. unfold m_bind at 1. rewrite m_iter_add_rotor by (simpl; lia).
  destruct self as [mi co cr en da pb rf ro rfs sps r3 pc rc]. reflexivity.
Qed.

Lemma fold_raise {A B} (f : res A -> B -> res A) (l : list B) e :
  (forall b, f (Raise e) b = Raise e) -> fold_left f l (Raise e) = Raise e.
Proof. intros Hf. induction l as [|b l IH]; simpl; [reflexivity|]. now rewrite Hf. Qed.

(** The rotors [setup_rotors] returns are as the constructor leaves them. *)
Lemma setup_rotors_fresh d rs : setup_rotors d = Ok rs -> Forall rotor_fresh rs.
Proof.
  unfold setup_rotors.
  destruct (the_list (d_rotors d)) as [names|]; cbn [res_bind]; [|discriminate].
  match goal with
  | |- fold_left ?f _ _ = _ -> _ =>
      enough (H : forall zs acc out, Forall rotor_fresh acc ->
                                     fold_left f zs (Ok acc) = Ok out -> Forall rotor_fresh out)
        by (apply H; constructor)
  end.
  clear rs. intros l.
  induction l as [|i l IH]; intros acc rs Hacc; simpl.
  - now intros [= <-].
  - destruct (getitem names i) as [ty|]; cbn [res_bind];
      [|rewrite fold_raise by reflexivity; discriminate].
    destruct (the_list (d_starting_positions d)) as [ps|]; cbn [res_bind];
      [|rewrite fold_raise by reflexivity; discriminate].
    destruct (getitem ps i) as [p|]; cbn [res_bind];
      [|rewrite fold_raise by reflexivity; discriminate].
    destruct (the_list (d_ring_settings d)) as [rings|]; cbn [res_bind];
      [|rewrite fold_raise by reflexivity; discriminate].
    destruct (getitem rings i) as [ring|]; cbn [res_bind];
      [|rewrite fold_raise by reflexivity; discriminate].
    destruct (int ring) as [r|]; cbn [res_bind];
      [|rewrite fold_raise by reflexivity; discriminate].
    destruct (Rotor.new ty p r) as [rotor|] eqn:En; cbn [res_bind];
      [|rewrite fold_raise by reflexivity; discriminate].
    apply IH. apply Forall_app. split; [exact Hacc|].
    constructor; [|constructor]. exact (RotorFacts.new_fresh _ _ _ _ En).
Qed.

Lemma ready_configured self :
  reflector_search_ready self ->
  enigma_configured (enigma self) /\
  (3 <= List.length (Enigma.drum (enigma self)))%nat /\
  Enigma.plugboard (enigma self) = Some (plugboard self) /\
  Enigma.reflector (enigma self) = Some (reflector self).
Proof.
  intros (_ & _ & (rs & Hrs & Hlen & He) & Hpb & _ & (ty & w & Hnew) & _).
  rewrite He. cbn [Enigma.drum Enigma.plugboard Enigma.reflector].
  split; [|split; [lia|split; reflexivity]].
  unfold enigma_configured. cbn [Enigma.drum Enigma.plugboard Enigma.reflector Enigma.wiring].
  split; [eauto|]. split; [exact (setup_rotors_fresh _ _ Hrs)|].
  split; [|reflexivity]. exists ty, w, (reflector self). auto.
Qed.

(** A trial of a ready code breaker returns a text without the crib and
    leaves the code breaker as it was. *)
Lemma ready_trial self :
  reflector_search_ready self ->
  exists cypher, run_enigma self = (self, Ok cypher) /\
                 str_contains cypher (crib self) = false.
Proof.
  intros Hready. destruct (ready_configured self Hready) as (Hconf & Hlen & Hpb & Hrf).
  destruct Hready as (_ & _ & (rs & Hrs & _ & He) & _ & Hpp & _ & Hrc & Hcode & Hmiss & _).
  destruct (run_total (enigma self) (plugboard self) (reflector self) (code self)
              Hconf Hlen Hpb Hpp Hrf Hrc Hcode) as (out & Hrun & Hout & _).
  exists out. unfold run_enigma. rewrite Hrun, LoopFacts.with_enigma_same.
  split; [reflexivity|].
  apply Hmiss. unfold trial. rewrite Hrs. cbn [res_bind].
  rewrite <- He, Hrun. reflexivity.
Qed.

Lemma catalog_reflector_new ty :
  In ty ["a"; "b"; "c"] ->
  exists rf, Reflector.new ty None = Ok rf /\ reflector_complete rf.
Proof.
  intros Hty.
  assert (Hty' : In ty ["A"; "B"; "C"; "a"; "b"; "c"]) by (simpl in *; tauto).
  pose proof reflector_swaps_catalog as H.
  rewrite forallb_forall in H. specialize (H ty Hty').
  rewrite forallb_forall in H.
  assert (HA : In "A"%char alphabet) by (apply char_in_In; reflexivity).
  destruct (reflector_swaps_sound ty _ (H _ HA)) as (rf & _ & _ & _ & Hnew & _).
  exists rf. split; [exact Hnew|]. exact (catalog_reflector_complete ty rf Hty' Hnew).
Qed.

(** The next candidate of the reflector search is set up, and the code
    breaker is ready again. *)
Lemma ready_next self i sp :
  reflector_search_ready self -> 0 <= i <= 2 ->
  exists self' ty,
    encode_next i sp self = (self', Ok (true, sp)) /\
    getitem ["a"; "b"; "c"] i = Ok ty /\
    Reflector.new ty None = Ok (reflector self') /\
    reflector_search_ready self'.
Proof.
  intros (Hmode & Hrefl & (rs & Hrs & Hlen & He) & Hpb & Hpp & _ & _ & Hcode & _ & Hcands) Hi.
  unfold encode_next. rewrite Hmode.
  destruct (2 <? i) eqn:E; [apply Z.ltb_lt in E; lia|].
  unfold m_bind at 1, m_read. rewrite Hrefl.
  assert (Hty : exists ty, getitem ["a"; "b"; "c"] i = Ok ty /\ In ty ["a"; "b"; "c"]).
  { assert (Hc : i = 0 \/ i = 1 \/ i = 2) by lia.
    destruct Hc as [-> | [-> | ->]]; eexists; (split; [reflexivity|simpl; tauto]). }
  destruct Hty as (ty & Hget & Hty). rewrite Hget.
  destruct (catalog_reflector_new ty Hty) as (rf & Hnew & Hrc).
  unfold m_bind at 1, m_lift. rewrite Hnew.
  unfold m_bind at 1, m_modify. unfold m_bind at 1.
  rewrite (setup_enigma_spec (change_reflector self rf) rs Hrs) by lia.
  unfold m_ret. eexists. exists ty. split; [reflexivity|].
  split; [reflexivity|].
  assert (Hmiss : misses self rf) by (apply (Hcands ty rf); [rewrite Hrefl; exact Hty|exact Hnew]).
  unfold reflector_search_ready, engine_set_up.
  destruct self as [mi co cr en da pb rf0 ro rfs sps r3 pc rc].
  cbn in *. split; [exact Hnew|].
  split; [exact Hmode|]. split; [exact Hrefl|].
  split; [exists rs; split; [exact Hrs|split; [lia|reflexivity]]|].
  split; [exact Hpb|]. split; [exact Hpp|].
  split; [exists ty, None; exact Hnew|]. split; [exact Hrc|]. split; [exact Hcode|].
  split; [exact Hmiss|exact Hcands].
Qed.

Lemma ready_round self i sp fuel :
  reflector_search_ready self -> 0 <= i <= 2 ->
  exists self' ty,
    encode_loop (S fuel) i sp self = encode_loop fuel (i + 1) sp self' /\
    getitem ["a"; "b"; "c"] i = Ok ty /\
    Reflector.new ty None = Ok (reflector self') /\
    reflector_search_ready self'.
Proof.
  intros Hready Hi. destruct (ready_trial self Hready) as (cypher & Hrun & Hno).
  destruct (ready_next self i sp Hready Hi) as (self' & ty & Hnext & Hget & Hnew & Hready').
  exists self', ty. split; [|auto].
  cbn [encode_loop]. now rewrite Hrun, Hno, Hnext.
Qed.

Lemma ready_last self sp fuel :
  reflector_search_ready self ->
  encode_loop (S fuel) 3 sp self = Some (self, Ok EmptyResult).
Proof.
  intros Hready. destruct (ready_trial self Hready) as (cypher & Hrun & Hno).
  cbn [encode_loop]. rewrite Hrun, Hno. unfold encode_next.
  destruct Hready as (-> & _). reflexivity.
Qed.

Lemma proper_dec pb :
  forallb (fun l => negb (Nat.eqb (List.length (PlugLead.lead_mapping l)) 1))
          (Plugboard.plug_leads pb) = true ->
  plugboard_proper pb.
Proof.
  intros H. apply Forall_forall. intros l Hl.
  rewrite forallb_forall in H. specialize (H l Hl).
  destruct (Nat.eqb_spec (List.length (PlugLead.lead_mapping l)) 1); [discriminate|assumption].
Qed.

Lemma letters_dec s :
  forallb (fun c => char_in c alphabet) s = true -> Forall (fun c => In c alphabet) s.
Proof.
  intros H. apply Forall_forall. intros c Hc. apply char_in_In.
  rewrite forallb_forall in H. now apply H.
Qed.

(** A trial is decided by running it. *)
Lemma misses_dec self rf :
  match trial self rf with
  | Ok out => str_contains out (crib self)
  | Raise _ => false
  end = false ->
  misses self rf.
Proof. intros H out E. rewrite E in H. exact H. Qed.

(** The sample code breaker is ready for the reflector search. *)
Lemma sample_ready : reflector_search_ready (build_code_breaker reflector_search_data).
Proof.
  unfold reflector_search_ready.
  split; [vm_compute; reflexivity|].
  split; [vm_compute; reflexivity|].
  split.
  { unfold engine_set_up.
    destruct (setup_rotors (data (build_code_breaker reflector_search_data)))
      as [rs|] eqn:E; [|vm_compute in E; discriminate].
    exists rs. split; [reflexivity|].
    vm_compute in E. injection E as <-.
    split; [vm_compute; lia|]. vm_compute. reflexivity. }
  assert (Epb : plugboard (build_code_breaker reflector_search_data)
                = build_plugboard ["VH"; "PT"; "ZG"; "BJ"; "EY"; "FS"])
    by (vm_compute; reflexivity).
  assert (Erf : Reflector.new "b" None = Ok (reflector (build_code_breaker reflector_search_data)))
    by (vm_compute; reflexivity).
  split; [rewrite Epb; apply build_plugboard_reachable|].
  split; [apply proper_dec; vm_compute; reflexivity|].
  split; [exists "b", None; exact Erf|].
  split; [apply (catalog_reflector_complete "b"); [simpl; tauto|exact Erf]|].
  split; [apply letters_dec; vm_compute; reflexivity|].
  split; [apply misses_dec; vm_compute; reflexivity|].
  assert (Ers : reflectors (build_code_breaker reflector_search_data) = ["a"; "b"; "c"])
    by (vm_compute; reflexivity).
  rewrite Ers. intros ty rf [<- | [<- | [<- | []]]] Hnew;
    vm_compute in Hnew; injection Hnew as <-;
    apply misses_dec; vm_compute; reflexivity.
Qed.

End ReflectorSearch.

(** The reflector search gives up normally, after four trials.  When the
    reflector is the unknown and neither the reflector the search starts
    with nor one of the candidates a, b and c gives a text that holds the crib,
    [encode] runs the engine four times (three rounds are not enough for it to
    return), returns the empty result without an exception, and leaves the
    last candidate, reflector c, installed. *)
Theorem reflector_search_returns_empty (self : CodeBreaker.t)
    (Hready : reflector_search_ready self) :
  exists self',
    (forall fuel, (fuel < 4)%nat -> CodeBreaker.encode fuel self = None) /\
    (forall fuel, (4 <= fuel)%nat ->
                  CodeBreaker.encode fuel self = Some (self', Ok CodeBreaker.EmptyResult)) /\
    Reflector.new "c" None = Ok (CodeBreaker.reflector self').
Proof.
  unfold CodeBreaker.encode.
  generalize (CodeBreaker.d_starting_positions (CodeBreaker.data self)). intros sp.
  assert (Hrounds : exists s1 s2 s3,
            (forall fuel, CodeBreaker.encode_loop (S fuel) 0 sp self
                          = CodeBreaker.encode_loop fuel 1 sp s1) /\
            (forall fuel, CodeBreaker.encode_loop (S fuel) 1 sp s1
                          = CodeBreaker.encode_loop fuel 2 sp s2) /\
            (forall fuel, CodeBreaker.encode_loop (S fuel) 2 sp s2
                          = CodeBreaker.encode_loop fuel 3 sp s3) /\
            (forall fuel, CodeBreaker.encode_loop (S fuel) 3 sp s3
                          = Some (s3, Ok CodeBreaker.EmptyResult)) /\
            Reflector.new "c" None = Ok (CodeBreaker.reflector s3)).
  { destruct (ReflectorSearch.ready_next self 0 sp Hready ltac:(lia))
      as (s1 & t1 & N1 & _ & _ & H1).
    destruct (ReflectorSearch.ready_next s1 1 sp H1 ltac:(lia))
      as (s2 & t2 & N2 & _ & _ & H2).
    destruct (ReflectorSearch.ready_next s2 2 sp H2 ltac:(lia))
      as (s3 & t3 & N3 & G3 & R3 & H3).
    destruct (ReflectorSearch.ready_trial self Hready) as (c0 & T0 & M0).
    destruct (ReflectorSearch.ready_trial s1 H1) as (c1 & T1 & M1).
    destruct (ReflectorSearch.ready_trial s2 H2) as (c2 & T2 & M2).
    exists s1, s2, s3.
    split; [intros fuel; cbn [CodeBreaker.encode_loop]; now rewrite T0, M0, N1|].
    split; [intros fuel; cbn [CodeBreaker.encode_loop]; now rewrite T1, M1, N2|].
    split; [intros fuel; cbn [CodeBreaker.encode_loop]; now rewrite T2, M2, N3|].
    split; [intros fuel; exact (ReflectorSearch.ready_last s3 sp fuel H3)|].
    injection G3 as <-. exact R3. }
  destruct Hrounds as (s1 & s2 & s3 & E0 & E1 & E2 & E3 & Hc).
  exists s3. split; [|split; [|exact Hc]].
  - intros fuel Hfuel.
    destruct fuel as [|[|[|[|fuel]]]]; try lia.
    + reflexivity.
    + rewrite E0. reflexivity.
    + rewrite E0, E1. reflexivity.
    + rewrite E0, E1, E2. reflexivity.
  - intros fuel Hfuel.
    destruct fuel as [|[|[|[|fuel]]]]; try lia.
    rewrite E0, E1, E2. apply E3.
Qed.

Lemma reflector_search_returns_empty_witness :
  exists self',
    CodeBreaker.encode 3 (build_code_breaker reflector_search_data) = None /\
    CodeBreaker.encode 4 (build_code_breaker reflector_search_data)
    = Some (self', Ok CodeBreaker.EmptyResult) /\
    Reflector.new "c" None = Ok (CodeBreaker.reflector self').
Proof.
  destruct (reflector_search_returns_empty (build_code_breaker reflector_search_data)
              ReflectorSearch.sample_ready) as (self' & H3 & H4 & Hc).
  exists self'. split; [apply H3; lia|]. split; [apply H4; lia|exact Hc].
Defined.

(** ** The fourth rotor *)

Module UpperFacts.

Lemma list_set_other {A} (d : list A) i j a :
  i <> j -> nth_error (list_set d i a) j = nth_error d j.
Proof.
  revert i j. induction d as [|b d IH]; intros [|i] [|j] H; simpl; try reflexivity.
  - congruence.
  - apply IH. congruence.
Qed.

Lemma upper_ret {A} (a : A) : keeps_upper (m_ret a).
Proof. intros d i _. reflexivity. Qed.

Lemma upper_lift {A} (r : res A) : keeps_upper (m_lift r).
Proof. intros d i _. reflexivity. Qed.

Lemma upper_read {A} (f : list Rotor.t -> res A) : keeps_upper (m_read f).
Proof. intros d i _. reflexivity. Qed.

Lemma upper_bind {A B} (c : M (list Rotor.t) A) (k : A -> M (list Rotor.t) B) :
  keeps_upper c -> (forall a, keeps_upper (k a)) -> keeps_upper (m_bind c k).
Proof.
  intros Hc Hk d i Hi. unfold m_bind. specialize (Hc d i Hi).
  destruct (c d) as [d' [a|e]]; cbn [fst] in *; [|exact Hc].
  now rewrite Hk.
Qed.

Lemma upper_drum_get j : keeps_upper (Enigma.drum_get j).
Proof. intros d i _. unfold Enigma.drum_get. destruct (nth_error d j); reflexivity. Qed.

Lemma upper_drum_call j f : (j < 3)%nat -> keeps_upper (Enigma.drum_call j f).
Proof.
  intros Hj d i Hi. unfold Enigma.drum_call.
  destruct (nth_error d j) as [r|]; [|reflexivity].
  cbn [fst]. apply list_set_other. lia.
Qed.

Lemma upper_rotate_and_offset j : (j < 3)%nat -> keeps_upper (Enigma.rotate_and_offset j).
Proof.
  intros Hj. unfold Enigma.rotate_and_offset.
  apply upper_bind; [now apply upper_drum_call|intros _; now apply upper_drum_call].
Qed.

Lemma upper_step_rotors wiring flag : keeps_upper (Enigma.step_rotors wiring flag).
Proof.
  unfold Enigma.step_rotors.
  apply upper_bind; [apply upper_drum_call; lia|intros _].
  apply upper_bind; [apply upper_drum_get|intros r].
  apply upper_bind; [apply upper_lift|intros c1].
  apply upper_bind.
  { destruct c1; [|apply upper_ret].
    apply upper_bind; [apply upper_rotate_and_offset; lia|intros _; apply upper_ret]. }
  intros flag1.
  apply upper_bind; [apply upper_drum_get|intros r0'].
  apply upper_bind.
  { destruct (is_int (Rotor.notch r0')); [|apply upper_ret].
    apply upper_bind; [apply upper_drum_get|intros r1; apply upper_lift]. }
  intros c2.
  apply upper_bind.
  { destruct c2; [apply upper_rotate_and_offset; lia|apply upper_ret]. }
  intros _.
  apply upper_bind; [apply upper_drum_get|intros r1].
  apply upper_bind; [apply upper_lift|intros c4].
  destruct (c4 && flag1)%bool; [|apply upper_ret].
  apply upper_bind; [apply upper_drum_call; lia|intros _; apply upper_ret].
Qed.

Lemma upper_encode_letters self s :
  forall flag enc, keeps_upper (Enigma.encode_letters self s flag enc).
Proof.
  induction s as [|x s IH]; intros flag enc; cbn [Enigma.encode_letters].
  - apply upper_ret.
  - apply upper_bind; [apply upper_step_rotors|intros flag'].
    apply upper_bind; [apply upper_read|intros c].
    apply upper_bind; [apply upper_drum_call; lia|intros _]. apply IH.
Qed.

Lemma upper_encode_loop self s : keeps_upper (Enigma.encode_loop self s).
Proof.
  unfold Enigma.encode_loop.
  apply upper_bind; [apply upper_drum_get|intros r2].
  apply upper_bind; [apply upper_lift|intros flag]. apply upper_encode_letters.
Qed.

End UpperFacts.

(** The stepping of [encode_sequence] reaches the slots 0, 1 and 2 only: a
    fourth rotor, and whatever else sits at slot 3 or beyond, is exactly as it
    was when the loop over the letters ends, whether the run ends normally or
    with an exception. *)
Theorem fourth_rotor_never_moves (e : Enigma.t) (s : list ascii) (i : nat)
    (Hi : (3 <= i)%nat) :
  nth_error (drum_after e s) i = nth_error (Enigma.drum e) i.
Proof.
  unfold drum_after. now apply UpperFacts.upper_encode_loop.
Qed.

Lemma fourth_rotor_never_moves_witness :
  nth_error (drum_after four_rotor_engine sample_code) 3
  = nth_error (Enigma.drum four_rotor_engine) 3.
Proof.
  apply (fourth_rotor_never_moves four_rotor_engine sample_code 3). lia.
Defined.

(** ** What the joint search reports *)

Module ReportFacts.

Lemma nth_error_last {A} (l : list A) d :
  l <> [] -> nth_error l (List.length l - 1) = Some (last l d).
Proof.
  induction l as [|a l IH]; [congruence|]. intros _.
  destruct l as [|b l]; [reflexivity|].
  replace (List.length (a :: b :: l) - 1)%nat with (S (List.length (b :: l) - 1))
    by (simpl; lia).
  cbn [nth_error]. rewrite IH by discriminate. reflexivity.
Qed.

Lemma length_pos {A} (l : list A) : l <> [] -> (0 < List.length l)%nat.
Proof. destruct l; [congruence|simpl; lia]. Qed.

(** [l[-1]] and [l[len(l) - 1]] are the last element. *)
Lemma getitem_last {A} (l : list A) d :
  l <> [] ->
  getitem l (-1) = Ok (last l d) /\
  getitem l (Z.of_nat (List.length l) - 1) = Ok (last l d).
Proof.
  intros Hne. pose proof (length_pos l Hne) as Hlen.
  assert (H : getitem l (Z.of_nat (List.length l) - 1) = Ok (last l d)).
  { apply getitem_nth_error; [lia|].
    replace (Z.to_nat (Z.of_nat (List.length l) - 1)) with (List.length l - 1)%nat by lia.
    now apply nth_error_last. }
  split; [|exact H].
  unfold getitem in *. cbn zeta in *.
  destruct (-1 <? 0) eqn:E1; [|apply Z.ltb_ge in E1; lia].
  destruct (Z.of_nat (List.length l) - 1 <? 0) eqn:E2; [apply Z.ltb_lt in E2; lia|].
  replace (-1 + Z.of_nat (List.length l)) with (Z.of_nat (List.length l) - 1) by lia.
  exact H.
Qed.

(** A code breaker whose engine has fresh rotors is as it was after a
    trial. *)
Lemma fresh_trial self cypher :
  Forall rotor_fresh (Enigma.drum (CodeBreaker.enigma self)) ->
  snd (Enigma.encode_sequence (CodeBreaker.enigma self) (CodeBreaker.code self)) = Ok cypher ->
  CodeBreaker.run_enigma self = (self, Ok cypher).
Proof.
  intros Hfresh Hrun. unfold CodeBreaker.run_enigma.
  destruct (Enigma.encode_sequence (CodeBreaker.enigma self) (CodeBreaker.code self))
    as [e' r] eqn:E.
  cbn [snd] in Hrun. subst r.
  rewrite (LoopFacts.fresh_run_same _ _ _ _ Hfresh E).
  now rewrite LoopFacts.with_enigma_same.
Qed.

Lemma nonempty_dec {A} (l : list A) : Nat.ltb 0 (List.length l) = true -> l <> [].
Proof. destruct l; [discriminate|discriminate]. Qed.

End ReportFacts.

(** When a round of [encode_part3] finds the crib, the settings it reports
    are those of the candidate before the round number.  In the first round
    that is index -1: a code that the starting settings already decode is
    reported with the rotors and ring settings of the last candidate of the
    list, which were never set up.  And in the round that tries the last
    candidate the round number then exceeds the length of the list, so the
    result is replaced by the answer that the crib was not found. *)
Theorem part3_hit_report (self self' : CodeBreaker.t) (cypher : list ascii)
    (plugs : list (set ascii)) (fuel : nat)
    (c0 : list string * list string * string)
    (Hrun : CodeBreaker.run_enigma self = (self', Ok cypher))
    (Hhit : str_contains cypher (CodeBreaker.crib self') = true)
    (Hplugs : CodeBreaker.get_plugs_settings (CodeBreaker.plugboard self') = Ok plugs)
    (Hne : CodeBreaker.r3_combinations self' <> []) :
  let c := last (CodeBreaker.r3_combinations self') c0 in
  CodeBreaker.encode_part3 (S fuel) self
  = Some (self', Ok (CodeBreaker.Found3 cypher
                       (Reflector.r_type (CodeBreaker.reflector self'))
                       (snd (fst c)) (fst (fst c)) plugs)) /\
  CodeBreaker.encode_part3_loop (S fuel)
    (Z.of_nat (List.length (CodeBreaker.r3_combinations self'))) self
  = Some (self', Ok CodeBreaker.CribNotFound).
Proof.
  intros c. subst c.
  destruct (ReportFacts.getitem_last _ c0 Hne) as [Hfirst Hlast].
  pose proof (ReportFacts.length_pos _ Hne) as Hlen.
  split.
  - unfold CodeBreaker.encode_part3. cbn [CodeBreaker.encode_part3_loop].
    rewrite Hrun, Hhit.
    replace (0 - 1) with (-1) by lia. rewrite Hfirst. cbn [res_bind].
    rewrite Hplugs. cbn [res_bind].
    destruct (Z.of_nat (List.length (CodeBreaker.r3_combinations self')) <? 0 + 1) eqn:E;
      [apply Z.ltb_lt in E; lia|reflexivity].
  - cbn [CodeBreaker.encode_part3_loop]. rewrite Hrun, Hhit, Hlast. cbn [res_bind].
    rewrite Hplugs. cbn [res_bind].
    destruct (Z.of_nat (List.length (CodeBreaker.r3_combinations self'))
              <? Z.of_nat (List.length (CodeBreaker.r3_combinations self')) + 1) eqn:E;
      [reflexivity|apply Z.ltb_ge in E; lia].
Qed.

Lemma part3_hit_report_witness :
  exists self' plugs,
    CodeBreaker.d_rotors (CodeBreaker.data self') = Some ["I"; "II"; "III"] /\
    CodeBreaker.d_ring_settings (CodeBreaker.data self') = Some ["01"; "01"; "01"] /\
    CodeBreaker.encode_part3 1 (build_code_breaker first_hit_data)
    = Some (self', Ok (CodeBreaker.Found3 (list_ascii_of_string "THOUSANDS") "b"
                         ["Gamma"; "Gamma"; "Gamma"] ["26"; "26"; "26"] plugs)).
Proof.
  set (self := build_code_breaker first_hit_data).
  assert (Hrun : CodeBreaker.run_enigma self = (self, Ok (list_ascii_of_string "THOUSANDS"))).
  { apply ReportFacts.fresh_trial; [|vm_compute; reflexivity].
    assert (E : Enigma.drum (CodeBreaker.enigma self)
                = [build_rotor "III" "Y"%char 1; build_rotor "II" "M"%char 1;
                   build_rotor "I" "E"%char 1]) by (vm_compute; reflexivity).
    rewrite E.
    apply Forall_cons; [apply build_rotor_fresh; vm_compute; reflexivity|].
    apply Forall_cons; [apply build_rotor_fresh; vm_compute; reflexivity|].
    apply Forall_cons; [apply build_rotor_fresh; vm_compute; reflexivity|].
    apply Forall_nil. }
  destruct (CodeBreaker.get_plugs_settings (CodeBreaker.plugboard self)) as [plugs|] eqn:Hplugs;
    [|vm_compute in Hplugs; discriminate].
  assert (Hne : CodeBreaker.r3_combinations self <> [])
    by (apply ReportFacts.nonempty_dec; vm_compute; reflexivity).
  assert (Hhit : str_contains (list_ascii_of_string "THOUSANDS") (CodeBreaker.crib self) = true)
    by (vm_compute; reflexivity).
  assert (Elast : last (CodeBreaker.r3_combinations self) ([], [], EmptyString)
                  = (["26"; "26"; "26"], ["Gamma"; "Gamma"; "Gamma"], "c"))
    by (vm_compute; reflexivity).
  assert (Erf : Reflector.r_type (CodeBreaker.reflector self) = "b")
    by (vm_compute; reflexivity).
  pose proof (proj1 (part3_hit_report self self _ plugs 0 ([], [], EmptyString)
                       Hrun Hhit Hplugs Hne)) as H.
  rewrite Elast, Erf in H. cbn [fst snd] in H.
  exists self, plugs.
  split; [vm_compute; reflexivity|]. split; [vm_compute; reflexivity|]. exact H.
Defined.

(** ** The settings a code breaker starts from *)

Module DefaultFacts.

Import CodeBreaker.

Lemma partial_plugs_missing plugs :
  is_missing "plugboard"
    (flat_map (fun plug => if Z.of_nat (String.length plug) <? 2
                           then [MPlug plug; MKey "plugboard"] else []) plugs) = true
  <-> exists plug, In plug plugs /\ (String.length plug < 2)%nat.
Proof.
  unfold is_missing. induction plugs as [|p plugs IH]; cbn [flat_map].
  - split; [discriminate|intros (plug & [] & _)].
  - rewrite existsb_app, Bool.orb_true_iff, IH.
    destruct (Z.of_nat (String.length p) <? 2) eqn:E.
    + apply Z.ltb_lt in E. split; [intros _|intros _; left; reflexivity].
      exists p. split; [left; reflexivity|lia].
    + apply Z.ltb_ge in E. split.
      * intros [H|(plug & Hin & Hlen)]; [discriminate|].
        exists plug. split; [right; exact Hin|exact Hlen].
      * intros (plug & [->|Hin] & Hlen); [lia|]. right. exists plug. auto.
Qed.

Lemma partial_plugs_other k plugs :
  k <> "plugboard" ->
  is_missing k
    (flat_map (fun plug => if Z.of_nat (String.length plug) <? 2
                           then [MPlug plug; MKey "plugboard"] else []) plugs) = false.
Proof.
  intros Hk. unfold is_missing. induction plugs as [|p plugs IH]; cbn [flat_map]; [reflexivity|].
  rewrite existsb_app, IH, Bool.orb_false_r.
  destruct (Z.of_nat (String.length p) <? 2); [|reflexivity].
  cbn [existsb]. apply String.eqb_neq in Hk. now rewrite Hk.
Qed.

End DefaultFacts.

(** [set_missing_information] marks a setting as missing exactly when its
    entry is [None], and the plugboard also when one of its plugs has fewer
    than two characters; the constructor then gives the missing rotors, ring
    settings and starting positions the values I, II, III, 01, 01, 01 and A, A,
    A, and leaves every given entry as it is. *)
Theorem missing_settings_get_defaults (data : CodeBreaker.Data) :
  let mi := CodeBreaker.set_missing_information data in
  let data' := CodeBreaker.setup_ring_setting mi
                 (CodeBreaker.setup_starting_position mi
                    (CodeBreaker.setup_starting_rotors mi data)) in
  (CodeBreaker.is_missing "rotors" mi = true <-> CodeBreaker.d_rotors data = None) /\
  (CodeBreaker.is_missing "reflector" mi = true <-> CodeBreaker.d_reflector data = None) /\
  (CodeBreaker.is_missing "ring_settings" mi = true
   <-> CodeBreaker.d_ring_settings data = None) /\
  (CodeBreaker.is_missing "starting_positions" mi = true
   <-> CodeBreaker.d_starting_positions data = None) /\
  (CodeBreaker.is_missing "plugboard" mi = true
   <-> CodeBreaker.d_plugboard data = None \/
       exists plugs plug, CodeBreaker.d_plugboard data = Some plugs /\ In plug plugs /\
                          (String.length plug < 2)%nat) /\
  CodeBreaker.d_rotors data'
  = Some (match CodeBreaker.d_rotors data with Some l => l | None => ["I"; "II"; "III"] end) /\
  CodeBreaker.d_ring_settings data'
  = Some (match CodeBreaker.d_ring_settings data with
          | Some l => l
          | None => ["01"; "01"; "01"]
          end) /\
  CodeBreaker.d_starting_positions data'
  = Some (match CodeBreaker.d_starting_positions data with
          | Some l => l
          | None => list_ascii_of_string "AAA"
          end) /\
  CodeBreaker.d_code data' = CodeBreaker.d_code data /\
  CodeBreaker.d_crib data' = CodeBreaker.d_crib data /\
  CodeBreaker.d_reflector data' = CodeBreaker.d_reflector data /\
  CodeBreaker.d_plugboard data' = CodeBreaker.d_plugboard data.
Proof.
  intros mi data'.
  assert (Hkeys : forall k, k <> "plugboard" ->
            CodeBreaker.is_missing k mi
            = (match CodeBreaker.d_rotors data with None => String.eqb k "rotors" | _ => false end
               || (match CodeBreaker.d_reflector data with
                   | None => String.eqb k "reflector" | _ => false end
                   || (match CodeBreaker.d_ring_settings data with
                       | None => String.eqb k "ring_settings" | _ => false end
                       || match CodeBreaker.d_starting_positions data with
                          | None => String.eqb k "starting_positions" | _ => false end)))%bool).
  { intros k Hk. subst mi. unfold CodeBreaker.set_missing_information, CodeBreaker.is_missing.
    rewrite !existsb_app.
    assert (Hp : existsb (fun m => match m with
                                   | CodeBreaker.MKey k' => String.eqb k k'
                                   | CodeBreaker.MPlug _ => false
                                   end)
                   match CodeBreaker.d_plugboard data with
                   | None => [CodeBreaker.MKey "plugboard"]
                   | Some plugs =>
                       flat_map (fun plug => if Z.of_nat (String.length plug) <? 2
                                             then [CodeBreaker.MPlug plug;
                                                   CodeBreaker.MKey "plugboard"]
                                             else []) plugs
                   end = false).
    { destruct (CodeBreaker.d_plugboard data) as [plugs|].
      - exact (DefaultFacts.partial_plugs_other k plugs Hk).
      - cbn [existsb]. apply String.eqb_neq in Hk. now rewrite Hk. }
    rewrite Hp, Bool.orb_false_r.
    destruct (CodeBreaker.d_rotors data), (CodeBreaker.d_reflector data),
      (CodeBreaker.d_ring_settings data), (CodeBreaker.d_starting_positions data);
      cbn [existsb]; rewrite ?Bool.orb_false_r; reflexivity. }
  assert (Hro : CodeBreaker.is_missing "rotors" mi = true <-> CodeBreaker.d_rotors data = None).
  { rewrite Hkeys by discriminate.
    destruct (CodeBreaker.d_rotors data), (CodeBreaker.d_reflector data),
      (CodeBreaker.d_ring_settings data), (CodeBreaker.d_starting_positions data);
      cbn; split; congruence. }
  assert (Hrf : CodeBreaker.is_missing "reflector" mi = true
                <-> CodeBreaker.d_reflector data = None).
  { rewrite Hkeys by discriminate.
    destruct (CodeBreaker.d_rotors data), (CodeBreaker.d_reflector data),
      (CodeBreaker.d_ring_settings data), (CodeBreaker.d_starting_positions data);
      cbn; split; congruence. }
  assert (Hri : CodeBreaker.is_missing "ring_settings" mi = true
                <-> CodeBreaker.d_ring_settings data = None).
  { rewrite Hkeys by discriminate.
    destruct (CodeBreaker.d_rotors data), (CodeBreaker.d_reflector data),
      (CodeBreaker.d_ring_settings data), (CodeBreaker.d_starting_positions data);
      cbn; split; congruence. }
  assert (Hsp : CodeBreaker.is_missing "starting_positions" mi = true
                <-> CodeBreaker.d_starting_positions data = None).
  { rewrite Hkeys by discriminate.
    destruct (CodeBreaker.d_rotors data), (CodeBreaker.d_reflector data),
      (CodeBreaker.d_ring_settings data), (CodeBreaker.d_starting_positions data);
      cbn; split; congruence. }
  split; [exact Hro|]. split; [exact Hrf|]. split; [exact Hri|]. split; [exact Hsp|].
  split.
  { subst mi. unfold CodeBreaker.set_missing_information, CodeBreaker.is_missing.
    rewrite !existsb_app.
    assert (Hn : forall A (v : option A) k, k <> "plugboard" ->
              existsb (fun m => match m with
                                | CodeBreaker.MKey k' => String.eqb "plugboard" k'
                                | CodeBreaker.MPlug _ => false
                                end)
                      match v with None => [CodeBreaker.MKey k] | Some _ => [] end = false).
    { intros A [a|] k Hk; [reflexivity|]. cbn [existsb].
      assert (E : String.eqb "plugboard" k = false) by (apply String.eqb_neq; congruence).
      now rewrite E. }
    rewrite !Hn by discriminate. cbn [orb].
    destruct (CodeBreaker.d_plugboard data) as [plugs|].
    - pose proof (DefaultFacts.partial_plugs_missing plugs) as Hp.
      unfold CodeBreaker.is_missing in Hp. rewrite Hp. split.
      + intros (plug & Hin & Hlen). right. exists plugs, plug. auto.
      + intros [H|(plugs' & plug & E & Hin & Hlen)]; [discriminate|].
        injection E as <-. exists plug. auto.
    - split; [intros _; left; reflexivity|reflexivity]. }
  subst data'.
  unfold CodeBreaker.setup_ring_setting, CodeBreaker.setup_starting_position,
    CodeBreaker.setup_starting_rotors.
  destruct (CodeBreaker.is_missing "rotors" mi) eqn:Ero;
    destruct (CodeBreaker.is_missing "ring_settings" mi) eqn:Eri;
    destruct (CodeBreaker.is_missing "starting_positions" mi) eqn:Esp;
    destruct (CodeBreaker.d_rotors data) as [ro|] eqn:Dro;
    destruct (CodeBreaker.d_ring_settings data) as [ri|] eqn:Dri;
    destruct (CodeBreaker.d_starting_positions data) as [sp|] eqn:Dsp;
    try (pose proof (proj1 Hro eq_refl); discriminate);
    try (pose proof (proj1 Hri eq_refl); discriminate);
    try (pose proof (proj1 Hsp eq_refl); discriminate);
    try (pose proof (proj2 Hro eq_refl); discriminate);
    try (pose proof (proj2 Hri eq_refl); discriminate);
    try (pose proof (proj2 Hsp eq_refl); discriminate);
    cbn; rewrite ?Dro, ?Dri, ?Dsp; repeat split; reflexivity.
Qed.

(** ** The candidates of the plug search *)

Module PlugSearchFacts.

Import CodeBreaker.

Lemma product_In {A} (ls : list (list A)) :
  forall c, In c (product ls) <-> Forall2 (fun l x => In x l) ls c.
Proof.
  induction ls as [|l ls IH]; intros c; cbn [product].
  - split.
    + intros [<-|[]]. constructor.
    + intros H. inversion H. left. reflexivity.
  - rewrite in_flat_map. split.
    + intros (a & Ha & Hc). apply in_map_iff in Hc as (c' & <- & Hc').
      constructor; [exact Ha|now apply IH].
    + intros H. inversion H as [|l' a ls' c' Ha Hc']; subst.
      exists a. split; [exact Ha|]. apply in_map. now apply IH.
Qed.

Lemma Forall2_map_left {A B C} (R : B -> C -> Prop) (f : A -> B) l :
  forall c, Forall2 R (map f l) c <-> Forall2 (fun a x => R (f a) x) l c.
Proof.
  induction l as [|a l IH]; intros c; cbn [map].
  - split; intros H; inversion H; constructor.
  - split; intros H; inversion H; subst; constructor; try assumption; now apply IH.
Qed.

Lemma Forall2_iff {A B} (R S : A -> B -> Prop) l c :
  (forall a b, R a b <-> S a b) -> Forall2 R l c <-> Forall2 S l c.
Proof.
  intros H. split; induction 1; constructor; try assumption; now apply H.
Qed.

Lemma not_used_letters_In all u :
  In u (not_used_letters all)
  <-> (In u alphabet /\ ~ In u all) \/ (In u all /\ ~ In u alphabet).
Proof.
  unfold not_used_letters. rewrite in_app_iff, nodup_In, !filter_In, !Bool.negb_true_iff.
  assert (Hn : forall c l, char_in c l = false <-> ~ In c l).
  { intros c l. split.
    - intros E H. apply char_in_In in H. congruence.
    - intros H. destruct (char_in c l) eqn:E; [|reflexivity].
      exfalso. apply H. now apply char_in_In. }
  rewrite !Hn. tauto.
Qed.

Lemma existsb_eqb_In k keys : existsb (String.eqb k) keys = true <-> In k keys.
Proof.
  rewrite existsb_exists. split.
  - intros (x & Hx & E). apply String.eqb_eq in E. now subst.
  - intros H. exists k. split; [exact H|apply String.eqb_refl].
Qed.

(** A dict holds each key once, and the keys are those that were stored. *)
Lemma dict_keys_from l :
  forall acc,
    NoDup acc ->
    let keys := fold_left (fun keys k => if existsb (String.eqb k) keys then keys
                                         else keys ++ [k]) l acc in
    NoDup keys /\ forall k, In k keys <-> In k acc \/ In k l.
Proof.
  induction l as [|a l IH]; intros acc Hacc; cbn [fold_left].
  - split; [exact Hacc|]. intros k. simpl. tauto.
  - destruct (existsb (String.eqb a) acc) eqn:E.
    + destruct (IH acc Hacc) as [Hnd Hin]. split; [exact Hnd|].
      intros k. rewrite Hin. apply existsb_eqb_In in E. simpl.
      split; [tauto|]. intros [H|[<-|H]]; tauto.
    + assert (Ha : ~ In a acc).
      { intros H. apply existsb_eqb_In in H. congruence. }
      assert (Hnd' : NoDup (acc ++ [a])).
      { apply NoDup_app; [exact Hacc|repeat constructor; simpl; tauto|].
        intros x Hx [<-|[]]. tauto. }
      destruct (IH (acc ++ [a]) Hnd') as [Hnd Hin]. split; [exact Hnd|].
      intros k. rewrite Hin, in_app_iff. simpl. tauto.
Qed.

Lemma dict_keys_spec l :
  NoDup (dict_keys l) /\ forall k, In k (dict_keys l) <-> In k l.
Proof.
  destruct (dict_keys_from l [] (NoDup_nil _)) as [Hnd Hin].
  split; [exact Hnd|]. intros k. unfold dict_keys. rewrite Hin. simpl. tauto.
Qed.

(** The partly known plugs that [set_missing_information] records. *)
Lemma partial_plugs_of_data data plugs :
  d_plugboard data = Some plugs ->
  partial_plugs (set_missing_information data)
  = filter (fun plug => Z.of_nat (String.length plug) <? 2) plugs.
Proof.
  intros Hplugs. unfold set_missing_information, partial_plugs. rewrite Hplugs.
  rewrite !flat_map_app. clear Hplugs.
  assert (E : flat_map (fun m => match m with MPlug p => [p] | MKey _ => [] end)
                (flat_map (fun plug => if Z.of_nat (String.length plug) <? 2
                                       then [MPlug plug; MKey "plugboard"] else []) plugs)
              = filter (fun plug => Z.of_nat (String.length plug) <? 2) plugs).
  { induction plugs as [|p plugs IH]; cbn [flat_map filter]; [reflexivity|].
    rewrite flat_map_app, IH.
    destruct (Z.of_nat (String.length p) <? 2); reflexivity. }
  rewrite E.
  destruct (d_rotors data), (d_reflector data), (d_ring_settings data),
    (d_starting_positions data); reflexivity.
Qed.

Lemma existsb_none {A} (f : A -> bool) l :
  (forall x, In x l -> f x = false) -> existsb f l = false.
Proof.
  intros H. destruct (existsb f l) eqn:E; [|reflexivity].
  apply existsb_exists in E as (x & Hx & Hfx). rewrite (H x Hx) in Hfx. discriminate.
Qed.

Lemma existsb_some {A} (f : A -> bool) l x : In x l -> f x = true -> existsb f l = true.
Proof. intros Hx Hfx. apply existsb_exists. eauto. Qed.

End PlugSearchFacts.

(** The candidates of the plug search, for the code breaker of [data].  The
    keys are the plugs of fewer than two characters, each once, in the order
    in which they come first.  [get_plugs_combinations] raises [SyntaxError]
    when there is no key, and also when a key is a quote, a backslash or a
    line break, since the key is pasted into the text that [eval] reads.
    Otherwise its candidates are exactly the lists that give each key, in
    order, a completion: a character that is on no plug (or on a plug and not
    a letter), followed by the character of the key.  So every candidate has
    as many entries as there are keys. *)
Theorem plug_candidates (data : CodeBreaker.Data) (plugs : list string)
    (Hplugs : CodeBreaker.d_plugboard data = Some plugs) :
  let keys := partial_keys plugs in
  let candidates :=
    CodeBreaker.get_plugs_combinations (CodeBreaker.set_missing_information data) data in
  (NoDup keys /\
   forall k, In k keys <-> In k plugs /\ (String.length k < 2)%nat) /\
  (keys = [] -> candidates = Raise SyntaxError) /\
  ((exists k, In k keys /\ CodeBreaker.breaks_literal k = true) ->
   (forall k, In k keys -> CodeBreaker.has_nul k = false) ->
   candidates = Raise SyntaxError) /\
  (keys <> [] ->
   (forall k, In k keys ->
              CodeBreaker.has_nul k = false /\ CodeBreaker.breaks_literal k = false) ->
   exists pcs,
     candidates = Ok pcs /\
     (forall c, In c pcs <-> Forall2 (completes plugs) keys c) /\
     (forall c, In c pcs -> List.length c = List.length keys)).
Proof.
  intros keys candidates.
  assert (Ecand : candidates
                  = match keys with
                    | [] => Raise SyntaxError
                    | _ =>
                        if existsb CodeBreaker.has_nul keys then Raise ValueError
                        else if existsb CodeBreaker.breaks_literal keys then Raise SyntaxError
                        else Ok (product
                                   (map (fun key =>
                                           flat_map
                                             (fun u => map (fun k => String u (String k EmptyString))
                                                           (list_ascii_of_string key))
                                             (CodeBreaker.not_used_letters
                                                (flat_map list_ascii_of_string plugs)))
                                        keys))
                    end).
  { subst candidates keys. unfold CodeBreaker.get_plugs_combinations, partial_keys.
    rewrite Hplugs. cbn [CodeBreaker.the_list res_bind].
    fold (partial_plugs (CodeBreaker.set_missing_information data)).
    rewrite (PlugSearchFacts.partial_plugs_of_data data plugs Hplugs). reflexivity. }
  rewrite Ecand. clear Ecand candidates.
  split; [|split; [|split]].
  - subst keys. unfold partial_keys.
    destruct (PlugSearchFacts.dict_keys_spec
                (filter (fun plug => Z.of_nat (String.length plug) <? 2) plugs)) as [Hnd Hin].
    split; [exact Hnd|]. intros k. rewrite Hin, filter_In.
    split; intros [H1 H2]; (split; [exact H1|]).
    + apply Z.ltb_lt in H2. lia.
    + apply Z.ltb_lt. lia.
  - intros ->. reflexivity.
  - intros (k & Hk & Hbr) Hnul.
    destruct keys as [|key keys']; [destruct Hk|].
    rewrite (PlugSearchFacts.existsb_none _ _ Hnul).
    now rewrite (PlugSearchFacts.existsb_some _ _ k Hk Hbr).
  - intros Hne Hok. destruct keys as [|key keys'] eqn:E; [congruence|].
    rewrite (PlugSearchFacts.existsb_none CodeBreaker.has_nul)
      by (intros x Hx; apply (Hok x Hx)).
    rewrite (PlugSearchFacts.existsb_none CodeBreaker.breaks_literal)
      by (intros x Hx; apply (Hok x Hx)).
    eexists. split; [reflexivity|].
    assert (Hin : forall c,
              In c (product
                      (map (fun key0 =>
                              flat_map (fun u => map (fun k => String u (String k EmptyString))
                                                     (list_ascii_of_string key0))
                                       (CodeBreaker.not_used_letters
                                          (flat_map list_ascii_of_string plugs)))
                           (key :: keys')))
              <-> Forall2 (completes plugs) (key :: keys') c).
    { intros c. rewrite PlugSearchFacts.product_In, PlugSearchFacts.Forall2_map_left.
      apply PlugSearchFacts.Forall2_iff. intros k0 plug. unfold completes.
      rewrite in_flat_map. split.
      - intros (u & Hu & Hp). apply in_map_iff in Hp as (k & <- & Hk).
        exists u, k. split; [reflexivity|]. split; [|exact Hk].
        now apply PlugSearchFacts.not_used_letters_In.
      - intros (u & k & -> & Hu & Hk). exists u. split.
        + now apply PlugSearchFacts.not_used_letters_In.
        + apply in_map_iff. exists k. auto. }
    split; [exact Hin|].
    intros c Hc. apply Hin in Hc. symmetry. exact (Forall2_length Hc).
Qed.

Lemma plug_candidates_witness :
  partial_keys ["WP"; "A"; "I"; "A"; "HN"] = ["A"; "I"] /\
  exists pcs,
    CodeBreaker.get_plugs_combinations
      (CodeBreaker.set_missing_information
         (CodeBreaker.mkData [] [] None None None None (Some ["WP"; "A"; "I"; "A"; "HN"])))
      (CodeBreaker.mkData [] [] None None None None (Some ["WP"; "A"; "I"; "A"; "HN"]))
    = Ok pcs /\
    In ["TA"; "KI"] pcs.
Proof.
  split; [vm_compute; reflexivity|].
  destruct (plug_candidates
              (CodeBreaker.mkData [] [] None None None None
                 (Some ["WP"; "A"; "I"; "A"; "HN"]))
              ["WP"; "A"; "I"; "A"; "HN"] eq_refl) as (_ & _ & _ & H).
  destruct H as (pcs & Hpcs & Hin & _).
  - vm_compute. discriminate.
  - assert (E : partial_keys ["WP"; "A"; "I"; "A"; "HN"] = ["A"; "I"])
      by (vm_compute; reflexivity).
    rewrite E. intros k [<-|[<-|[]]]; split; vm_compute; reflexivity.
  - exists pcs. split; [exact Hpcs|]. apply Hin.
    assert (E : partial_keys ["WP"; "A"; "I"; "A"; "HN"] = ["A"; "I"])
      by (vm_compute; reflexivity).
    rewrite E.
    constructor; [|constructor; [|constructor]].
    + exists "T"%char, "A"%char. split; [reflexivity|]. split; [|simpl; tauto].
      left. split; [apply char_in_In; reflexivity|].
      simpl. intuition discriminate.
    + exists "K"%char, "I"%char. split; [reflexivity|]. split; [|simpl; tauto].
      left. split; [apply char_in_In; reflexivity|].
      simpl. intuition discriminate.
Defined.

(** The plug search needs two partly known plugs: [encode] reads the entries
    0 and 1 of the candidate it pops, so when the candidates have fewer than
    two entries (a single partly known plug) the first trial that misses the
    crib ends the search with [IndexError], the candidate already popped. *)
Theorem plug_search_needs_two_plugs (self : CodeBreaker.t) (e' : Enigma.t)
    (cypher : list ascii) (pcs : list (list string)) (fuel : nat)
    (Hrf : CodeBreaker.is_missing "reflector" (CodeBreaker.missing_information self) = false)
    (Hsp : CodeBreaker.is_missing "starting_positions"
             (CodeBreaker.missing_information self) = false)
    (Hpl : CodeBreaker.is_missing "plugboard" (CodeBreaker.missing_information self) = true)
    (Hrun : Enigma.encode_sequence (CodeBreaker.enigma self) (CodeBreaker.code self)
            = (e', Ok cypher))
    (Hmiss : str_contains cypher (CodeBreaker.crib self) = false)
    (Hpcs : CodeBreaker.plug_combinations self = Some pcs) (Hne : pcs <> [])
    (Hshort : Forall (fun c => (List.length c < 2)%nat) pcs) :
  CodeBreaker.encode (S fuel) self
  = Some (CodeBreaker.with_plug_combinations (CodeBreaker.with_enigma self e')
            (Some (removelast pcs)),
          Raise IndexError).
Proof.
  unfold CodeBreaker.encode. cbn [CodeBreaker.encode_loop].
  unfold CodeBreaker.run_enigma. rewrite Hrun.
  replace (CodeBreaker.crib (CodeBreaker.with_enigma self e')) with (CodeBreaker.crib self)
    by reflexivity.
  rewrite Hmiss. unfold CodeBreaker.encode_next.
  replace (CodeBreaker.missing_information (CodeBreaker.with_enigma self e'))
    with (CodeBreaker.missing_information self) by reflexivity.
  rewrite Hrf, Hsp, Hpl.
  replace (CodeBreaker.plug_combinations (CodeBreaker.with_enigma self e'))
    with (CodeBreaker.plug_combinations self) by reflexivity.
  rewrite Hpcs. destruct pcs as [|c cs]; [congruence|].
  assert (Hlast : (List.length (last (c :: cs) c) < 2)%nat).
  { rewrite Forall_forall in Hshort. apply Hshort.
    destruct (exists_last Hne) as (l & a & E). rewrite E, last_last.
    apply in_or_app. right. left. reflexivity. }
  unfold m_bind at 1, m_modify. unfold m_bind at 1, m_lift.
  destruct (last (c :: cs) c) as [|p0 [|p1 plug]]; [reflexivity| |simpl in Hlast; lia].
  change (getitem [p0] 0) with (@Ok string p0). cbv beta iota.
  unfold m_bind at 1. reflexivity.
Qed.

Lemma plug_search_needs_two_plugs_witness :
  exists self', CodeBreaker.encode 1 (build_code_breaker one_plug_data)
                = Some (self', Raise IndexError).
Proof.
  set (self := build_code_breaker one_plug_data).
  destruct (Enigma.encode_sequence (CodeBreaker.enigma self) (CodeBreaker.code self))
    as [e' r] eqn:Hrun.
  assert (Hr : r = Ok (list_ascii_of_string "BRBTC")).
  { change r with (snd (e', r)). rewrite <- Hrun. vm_compute. reflexivity. }
  subst r.
  destruct (CodeBreaker.plug_combinations self) as [pcs|] eqn:Hpcs;
    [|vm_compute in Hpcs; discriminate].
  eexists.
  apply (plug_search_needs_two_plugs self e' (list_ascii_of_string "BRBTC") pcs 0).
  - vm_compute. reflexivity.
  - vm_compute. reflexivity.
  - vm_compute. reflexivity.
  - exact Hrun.
  - vm_compute. reflexivity.
  - exact Hpcs.
  - vm_compute in Hpcs. injection Hpcs as <-. discriminate.
  - vm_compute in Hpcs. injection Hpcs as <-.
    repeat (apply Forall_cons; [simpl; lia|]). apply Forall_nil.
Defined.

(** ** The notch under a ring setting *)

Module AlignFacts.

Import Rotor RotorFacts.

Lemma iter_left_length {A} k (l : list A) :
  List.length (Nat.iter k rotate_left1 l) = List.length l.
Proof.
  induction k as [|k IH]; [reflexivity|].
  rewrite Nat.iter_succ, <- IH. apply Permutation_length, rotate_left1_perm.
Qed.

(** On a list of 26 entries a step to the right is 25 steps to the left. *)
Lemma right_as_left {A} (l : list A) :
  List.length l = 26%nat -> rotate_right1 l = Nat.iter 25 rotate_left1 l.
Proof.
  intros Hlen. pose proof (ConstructorFacts.full_turn l) as H. rewrite Hlen in H.
  change (Nat.iter 26 rotate_left1 l) with (rotate_left1 (Nat.iter 25 rotate_left1 l)) in H.
  rewrite <- H at 1. apply ConstructorFacts.rotate_right_left.
Qed.

Lemma iter_right_as_left {A} m (l : list A) :
  List.length l = 26%nat ->
  Nat.iter m rotate_right1 l = Nat.iter (25 * m) rotate_left1 l.
Proof.
  intros Hlen. induction m as [|m IH]; [reflexivity|].
  rewrite Nat.iter_succ, IH, right_as_left by (now rewrite iter_left_length).
  rewrite <- Nat.iter_add. f_equal. lia.
Qed.

Lemma iter_left_turns {A} q (l : list A) :
  List.length l = 26%nat -> Nat.iter (26 * q) rotate_left1 l = l.
Proof.
  intros Hlen. induction q as [|q IH]; [reflexivity|].
  replace (26 * S q)%nat with (26 + 26 * q)%nat by lia.
  rewrite Nat.iter_add, IH. pose proof (ConstructorFacts.full_turn l) as H.
  now rewrite Hlen in H.
Qed.

Lemma iter_left_mod {A} k (l : list A) :
  List.length l = 26%nat ->
  Nat.iter k rotate_left1 l = Nat.iter (k mod 26) rotate_left1 l.
Proof.
  intros Hlen.
  transitivity (Nat.iter (k mod 26 + 26 * (k / 26)) rotate_left1 l).
  - f_equal. pose proof (Nat.div_mod_eq k 26). lia.
  - rewrite Nat.iter_add. now rewrite iter_left_turns.
Qed.

(** The alphabet turned [j] steps to the left shows the letter of index
    [j]. *)
Lemma turned_head j :
  (j < 26)%nat ->
  exists c, getitem (Nat.iter j rotate_left1 alphabet) 0 = Ok c /\
            index c alphabet = Ok (Z.of_nat j).
Proof.
  intros Hj.
  do 26 (destruct j as [|j]; [eexists; split; vm_compute; reflexivity|]). lia.
Qed.

Lemma initial_steps_label k s :
  label (Nat.iter k initial_position_step s) = Nat.iter k rotate_left1 (label s).
Proof.
  induction k as [|k IH]; [reflexivity|].
  rewrite !Nat.iter_succ, <- IH.
  destruct (Nat.iter k initial_position_step s). reflexivity.
Qed.

(** The label of a constructed rotor: the alphabet turned to the initial
    position, then back by the ring setting. *)
Lemma new_label ty p r self ip :
  new ty p r = Ok self -> index p alphabet = Ok ip ->
  label self
  = Nat.iter (Z.to_nat (r - 1)) rotate_right1 (Nat.iter (Z.to_nat ip) rotate_left1 alphabet).
Proof.
  unfold new. intros Hnew Hp.
  destruct (dict_getitem RotorData.notch (str_lower ty)) as [n0|] eqn:En;
    cbn [res_bind] in Hnew; [|discriminate].
  destruct (catalog_rotor _ _ En) as [[w0 [Ew Hw]] Hn0].
  rewrite Ew, alpha_sequence in Hnew. cbn [res_bind] in Hnew.
  unfold set_rotor_to_initial_position in Hnew. cbn [label] in Hnew.
  rewrite Hp in Hnew. cbn [res_bind] in Hnew. injection Hnew as <-.
  unfold set_rotor_ring_setting.
  destruct (RingFacts.ring_steps_wiring (Z.to_nat (r - 1))
              (Nat.iter (Z.to_nat ip) initial_position_step
                 (mk n0 ty 1 w0 alphabet p r))) as [_ ->].
  now rewrite initial_steps_label.
Qed.

(** The letter a constructed rotor shows after [k] steps. *)
Lemma steps_head ty p r self ip k :
  new ty p r = Ok self -> 1 <= r -> index p alphabet = Ok ip ->
  exists c, getitem (label (steps k self)) 0 = Ok c /\
            index c alphabet = Ok ((ip - (r - 1) + Z.of_nat k) mod 26).
Proof.
  intros Hnew Hr Hp. pose proof (index_bounds _ _ _ Hp) as Hip. rewrite alphabet_length in Hip.
  unfold steps. rewrite ConstructorFacts.iter_rotate_rotor.
  replace (label (with_label _ _)) with (Nat.iter k rotate_left1 (label self))
    by (destruct self; reflexivity).
  rewrite (new_label ty p r self ip Hnew Hp).
  rewrite iter_right_as_left by (rewrite iter_left_length; apply alphabet_length).
  rewrite <- !Nat.iter_add.
  rewrite iter_left_mod by apply alphabet_length.
  destruct (turned_head ((k + 25 * Z.to_nat (r - 1) + Z.to_nat ip) mod 26))
    as (c & Hc & Hi); [apply Nat.mod_upper_bound; lia|].
  exists c. split; [exact Hc|]. rewrite Hi. f_equal.
  rewrite Nat2Z.inj_mod. rewrite !Nat2Z.inj_add, Nat2Z.inj_mul, !Z2Nat.id by lia.
  change (Z.of_nat 25) with 25. change (Z.of_nat 26) with 26.
  replace (Z.of_nat k + 25 * (r - 1) + ip) with (ip - (r - 1) + Z.of_nat k + (r - 1) * 26)
    by lia.
  apply Z.mod_add. lia.
Qed.

(** The notch test of a constructed rotor after [k] steps. *)
Lemma steps_on_notch ty p r self n ip k :
  new ty p r = Ok self -> 1 <= r <= 26 ->
  dict_getitem RotorData.notch (str_lower ty) = Ok (NInt n) ->
  index p alphabet = Ok ip ->
  Enigma.on_notch alphabet (steps k self)
  = Ok (if (n - r) mod 26 =? 25 then false else turnover_due n ip k).
Proof.
  intros Hnew Hr Hn Hp.
  destruct (catalog_rotor _ _ Hn) as [_ Hnb].
  pose proof (ConstructorFacts.new_notch ty p r self (NInt n) Hnew (proj1 Hr) Hn) as Hnotch.
  destruct (new_spec _ _ _ _ Hnew) as [Hwf _].
  destruct (ConstructorFacts.steps_keep self k Hwf) as [_ Hnk].
  destruct (steps_head ty p r self ip k Hnew (proj1 Hr) Hp) as (c & Hc & Hi).
  unfold Enigma.on_notch. unfold steps in *. rewrite Hnk, Hnotch. cbn [is_int int_of].
  rewrite Hc. cbn [res_bind]. rewrite Hi. cbn [res_bind]. f_equal.
  unfold turnover_due.
  pose proof (Z.mod_pos_bound (n - r) 26 ltac:(lia)) as B1.
  pose proof (Z.mod_pos_bound (ip - (r - 1) + Z.of_nat k) 26 ltac:(lia)) as B2.
  pose proof (Z.mod_pos_bound (ip + Z.of_nat k - n) 26 ltac:(lia)) as B3.
  pose proof (Z.div_mod (n - r) 26 ltac:(lia)) as D1.
  pose proof (Z.div_mod (ip - (r - 1) + Z.of_nat k) 26 ltac:(lia)) as D2.
  pose proof (Z.div_mod (ip + Z.of_nat k - n) 26 ltac:(lia)) as D3.
  destruct ((n - r) mod 26 =? 25) eqn:E25.
  - apply Z.eqb_eq in E25. apply Z.eqb_neq. lia.
  - apply Z.eqb_neq in E25.
    destruct ((ip + Z.of_nat k - n) mod 26 =? 0) eqn:E0.
    + apply Z.eqb_eq in E0. apply Z.eqb_eq. lia.
    + apply Z.eqb_neq in E0. apply Z.eqb_neq. lia.
Qed.

End AlignFacts.

(** C4: for every rotor type and every ring setting [r] in 1..26, the
    constructor applies exactly [r - 1] ring rotations, and each rotation
    turns wiring and label together by one step and lowers the notch index by
    one, 1 wrapping to 26, as the specification says.  But the notch does not
    always stay aligned with the rotated wiring.  The notch index is compared with
    the index of the letter the rotor shows, a number in 0..25: as long as the
    index does not wrap, the rotor steps its neighbour after the steps [k] with
    [ip + k = n] modulo 26, the same steps for every ring setting; at the ring
    setting where the index has wrapped to 26 (rotor I at 18, II at 6, III at
    23, IV at 11, V at 1) the test is never true, and the rotor never steps its
    neighbour although a step is due. *)
Theorem ring_setting_loses_notch (ty : string) (p : ascii) (r : Z) (self : Rotor.t)
    (Hr : 1 <= r <= 26) (Hnew : Rotor.new ty p r = Ok self) :
  (exists n0 w0 base,
     dict_getitem RotorData.notch (str_lower ty) = Ok n0 /\
     dict_getitem RotorData.sequence (str_lower ty) = Ok w0 /\
     Rotor.set_rotor_to_initial_position (Rotor.mk n0 ty 1 w0 alphabet p r) p = Ok base /\
     self = Nat.iter (Z.to_nat (r - 1)) Rotor.ring_setting_step base /\
     (forall s,
        Rotor.rotor_wiring (Rotor.ring_setting_step s) = deque_rotate 1 (Rotor.rotor_wiring s) /\
        Rotor.label (Rotor.ring_setting_step s) = deque_rotate 1 (Rotor.label s) /\
        Rotor.notch (Rotor.ring_setting_step s) =
          match Rotor.notch s with
          | NInt n => NInt (if n <=? 1 then 26 else n - 1)
          | NFalse => NFalse
          end) /\
     Rotor.rotor_wiring self = deque_rotate (r - 1) (Rotor.rotor_wiring base) /\
     Rotor.label self = deque_rotate (r - 1) (Rotor.label base) /\
     Rotor.notch self =
       match n0 with
       | NInt n => NInt ((n - r) mod 26 + 1)
       | NFalse => NFalse
       end) /\
  (forall n ip,
     dict_getitem RotorData.notch (str_lower ty) = Ok (NInt n) ->
     index p alphabet = Ok ip ->
     (forall k,
        Enigma.on_notch alphabet (steps k self)
        = Ok (if (n - r) mod 26 =? 25 then false else turnover_due n ip k)) /\
     ((n - r) mod 26 = 25 ->
      Rotor.notch self = NInt 26 /\
      (forall k, Enigma.on_notch alphabet (steps k self) = Ok false) /\
      exists k, turnover_due n ip k = true)).
Proof.
  split; [exact (ring_rotations_hold ty p r self Hr Hnew)|].
  intros n ip Hn Hp.
  assert (Hall : forall k,
            Enigma.on_notch alphabet (steps k self)
            = Ok (if (n - r) mod 26 =? 25 then false else turnover_due n ip k))
    by (intros k; exact (AlignFacts.steps_on_notch ty p r self n ip k Hnew Hr Hn Hp)).
  split; [exact Hall|].
  intros H25.
  split.
  { rewrite (ConstructorFacts.new_notch ty p r self (NInt n) Hnew (proj1 Hr) Hn), H25.
    reflexivity. }
  split.
  { intros k. rewrite Hall, H25. reflexivity. }
  pose proof (index_bounds _ _ _ Hp) as Hip. rewrite alphabet_length in Hip.
  exists (Z.to_nat ((n - ip) mod 26)). unfold turnover_due.
  pose proof (Z.mod_pos_bound (n - ip) 26 ltac:(lia)) as B.
  rewrite Z2Nat.id by lia. apply Z.eqb_eq.
  replace (ip + (n - ip) mod 26 - n) with ((n - ip) mod 26 - (n - ip)) by lia.
  rewrite Zminus_mod_idemp_l. now rewrite Z.sub_diag.
Qed.

Lemma ring_setting_loses_notch_witness :
  exists self,
    Rotor.new "I" "A"%char 18 = Ok self /\
    Rotor.notch self = NInt 26 /\
    (forall k, Enigma.on_notch alphabet (steps k self) = Ok false) /\
    exists k, turnover_due 17 0 k = true.
Proof.
  destruct (Rotor.new "I" "A"%char 18) as [self|e] eqn:E; [|vm_compute in E; discriminate].
  exists self. split; [reflexivity|].
  exact (proj2 (proj2 (ring_setting_loses_notch "I" "A"%char 18 self ltac:(lia) E)
                  17 0 eq_refl eq_refl) eq_refl).
Defined.
